(** * Actor network analysis: pathfinder, predictorandrecommender, popularityfinder

    A shallow embedding of the three programs of the repository
    (actorgraph.cpp / pathfindermain.cpp, predictormain.cpp and
    popularityfindermain.cpp) together with the properties their
    specification states about them.

    Conventions of the embedding.
    - [std::string] is [string]; [operator<] on strings is [String.ltb]
      (lexicographic on unsigned characters, a proper prefix is smaller).
    - [int] is [Z]; arithmetic that the input can push out of range is wrapped
      to 32 bits with [wrap].
    - [std::unordered_map] is a [gmap]; [operator[]] is [subscript], which
      inserts a value-initialised entry when the key is missing.
    - [std::vector] is a [list], indexed with stdpp's lookup and insert.
    - A [Vertex*] is the name of the actor it was allocated for: every vertex
      is allocated once, under its own name, so the priority queue and the
      map share the vertex through that name.
    - A run ends in an [outcome]: it returns, it throws, it dereferences a null
      pointer or reads outside a vector ([Undefined]), or the loop bound given
      to the model is used up ([OutOfFuel]). *)

From stdpp Require Import gmap strings list fin_maps sorting.
From Stdlib Require Ascii.
#[local] Set Warnings "-clear-no-such-hyp".
Import (notations) Stdlib.Strings.Ascii.
Import Stdlib.Strings.Ascii (ascii(..)).

Open Scope Z_scope.

(** ** Outcomes of a run *)

Inductive outcome (A : Type) : Type :=
| Returns (a : A)
| Throws (what : string)
| Undefined
| OutOfFuel.
Arguments Returns {A} a.
Arguments Throws {A} what.
Arguments Undefined {A}.
Arguments OutOfFuel {A}.

#[global] Instance outcome_ret : MRet outcome := fun A a => Returns a.

#[global] Instance outcome_bind : MBind outcome := fun A B f m =>
  match m with
  | Returns a => f a
  | Throws w => Throws w
  | Undefined => Undefined
  | OutOfFuel => OutOfFuel
  end.
Arguments outcome_bind _ _ _ !_ /.

(** [for (x : l) body], the body threading a state and possibly failing. *)
Fixpoint for_each {A S} (body : S → A → outcome S) (l : list A) (s : S)
  : outcome S :=
  match l with
  | [] => Returns s
  | x :: l' => s' ← body s x; for_each body l' s'
  end.

(** ** The parts of the C++ library the programs call *)

Module Cxx.

Definition INT_MAX : Z := 2147483647.
Definition INT_MIN : Z := -2147483648.

(** Two's complement wrap-around of a 32-bit [int]. *)
Definition wrap (z : Z) : Z := (z + 2 ^ 31) `mod` 2 ^ 32 - 2 ^ 31.

Definition tab : ascii := "009"%char.

(** [while (getline(ss, next, '\t')) record.push_back(next)]: a field ends
    at a tab or at the end of the line; [getline] fails, ending the loop,
    once nothing is left to extract. *)
Fixpoint getline_fields (cur : string) (s : string) : list string :=
  match s with
  | EmptyString => [cur]
  | String c s' =>
      if Ascii.eqb c tab
      then cur :: match s' with
                  | EmptyString => []
                  | String _ _ => getline_fields "" s'
                  end
      else getline_fields (cur +:+ String c "") s'
  end.

Definition tokenize (line : string) : list string :=
  match line with
  | EmptyString => []
  | String _ _ => getline_fields "" line
  end.

(** [std::stoi]: leading white space, an optional sign, then at least one
    decimal digit; what follows the digits is ignored.  Throws
    [std::invalid_argument] without a digit and [std::out_of_range] when
    the value is no [int]. *)
Definition isspace (c : ascii) : bool :=
  let n := Ascii.nat_of_ascii c in
  ((9 <=? n) && (n <=? 13))%nat || (n =? 32)%nat.

Definition digit (c : ascii) : option Z :=
  let n := Z.of_nat (Ascii.nat_of_ascii c) in
  if (48 <=? n) && (n <=? 57) then Some (n - 48) else None.

Fixpoint skip_space (s : string) : string :=
  match s with
  | String c s' => if isspace c then skip_space s' else s
  | EmptyString => s
  end.

Fixpoint digits (acc : Z) (s : string) : Z :=
  match s with
  | String c s' =>
      match digit c with
      | Some d => digits (10 * acc + d) s'
      | None => acc
      end
  | EmptyString => acc
  end.

Definition starts_with_digit (s : string) : bool :=
  match s with
  | String c _ => bool_decide (is_Some (digit c))
  | EmptyString => false
  end.

Definition in_range (z : Z) : outcome Z :=
  if (INT_MIN <=? z) && (z <=? INT_MAX) then Returns z
  else Throws "stoi: out_of_range".

Definition stoi (s : string) : outcome Z :=
  let s1 := skip_space s in
  let '(neg, s2) :=
    match s1 with
    | String "-"%char r => (true, r)
    | String "+"%char r => (false, r)
    | _ => (false, s1)
    end in
  if starts_with_digit s2
  then in_range (if neg then - digits 0 s2 else digits 0 s2)
  else Throws "stoi: invalid_argument".

(** [operator[]] of [std::unordered_map]: the mapped value, and the map,
    which gains a value-initialised entry when the key was missing. *)
Definition subscript {V} (dflt : V) (m : gmap string V) (k : string)
  : V * gmap string V :=
  match m !! k with
  | Some v => (v, m)
  | None => (dflt, <[k := dflt]> m)
  end.

(** *** Binary heap of [std::priority_queue]

    [push] is [push_back] then [std::push_heap], [pop] is [std::pop_heap]
    then [pop_back], [top] is [front]; the two heap algorithms are the
    sift-up and the sift-down of libstdc++'s [stl_heap.h].  [comp] is
    called on the elements as they are at the time of the call. *)
Section Heap.
Context {A : Type} `{Inhabited A} (comp : A → A → bool).

(** [__push_heap(first, holeIndex, topIndex, value, comp)] *)
Fixpoint push_heap_loop (fuel : nat) (c : list A) (hole top : nat)
  (value : A) : list A :=
  match fuel with
  | O => <[hole := value]> c
  | S fuel' =>
      let parent := ((hole - 1) / 2)%nat in
      if (top <? hole)%nat && comp (c !!! parent) value
      then push_heap_loop fuel' (<[hole := c !!! parent]> c) parent top
             value
      else <[hole := value]> c
  end.

Definition push (c : list A) (x : A) : list A :=
  let c' := (c ++ [x])%list in
  push_heap_loop (length c') c' (length c) 0 x.

(** The first loop of [__adjust_heap]: the hole moves down to the larger
    child while it has two children. *)
Fixpoint adjust_down (fuel : nat) (c : list A) (len hole child : nat)
  : list A * nat * nat :=
  match fuel with
  | O => (c, hole, child)
  | S fuel' =>
      if (child <? (len - 1) / 2)%nat
      then
        let child1 := (2 * (child + 1))%nat in
        let child2 :=
          if comp (c !!! child1) (c !!! (child1 - 1)%nat)
          then (child1 - 1)%nat else child1 in
        adjust_down fuel' (<[hole := c !!! child2]> c) len child2 child2
      else (c, hole, child)
  end.

(** [__adjust_heap(first, holeIndex = 0, len, value, comp)] *)
Definition adjust_heap (c : list A) (len : nat) (value : A) : list A :=
  let '(c1, hole, child) := adjust_down len c len 0%nat 0%nat in
  let '(c2, hole2) :=
    if Nat.even len && (child =? (len - 2) / 2)%nat
    then
      let child1 := (2 * (child + 1))%nat in
      (<[hole := c1 !!! (child1 - 1)%nat]> c1, (child1 - 1)%nat)
    else (c1, hole) in
  push_heap_loop len c2 hole2 0 value.

(** [pop_heap] then [pop_back]. *)
Definition pop (c : list A) : list A :=
  let n := length c in
  if (1 <? n)%nat
  then
    let value := c !!! (n - 1)%nat in
    let c' := <[(n - 1)%nat := c !!! 0%nat]> c in
    take (n - 1) (adjust_heap c' (n - 1) value)
  else take (n - 1) c.

End Heap.

(** *** [std::sort]

    Straight insertion, as libstdc++ runs it on short ranges.  The programs
    only sort vectors whose elements are pairwise distinct under a strict
    total order, for which every sorting algorithm gives the same
    vector. *)
Section Sort.
Context {A : Type} (less : A → A → bool).

Fixpoint insert (x : A) (l : list A) : list A :=
  match l with
  | [] => [x]
  | y :: l' => if less x y then x :: l else y :: insert x l'
  end.

Fixpoint sort (l : list A) : list A :=
  match l with
  | [] => []
  | x :: l' => insert x (sort l')
  end.
End Sort.

End Cxx.

(** ** pathfinder: actorgraph.cpp *)

Module ActorGraph.
Import Cxx.

(** [class Vertex] *)
Record Vertex := mkVertex {
  dist : Z;
  done : bool;
  prev_actor : string;
  prev_movie : string;
  name : string
}.

#[global] Instance Vertex_inhabited : Inhabited Vertex :=
  populate (mkVertex 0 false "" "" "").

(** [struct vertexComp] *)
Definition vertexComp (x y : Vertex) : bool :=
  if negb (dist x =? dist y)
  then dist y <? dist x
  else String.ltb (prev_actor x) (prev_actor y).

(** The members of [class ActorGraph]. *)
Record t := mkGraph {
  actor_map : gmap string (list string);
  movie_map : gmap string (Z * list string);
  vertices : gmap string Vertex
}.

Definition empty : t := mkGraph ∅ ∅ ∅.

(** *** [ActorGraph::loadFromFile] *)

(** The body of [while (getline(infile, s))] for one line.  [inl] is the
    early [return false]. *)
Definition load_line (use_weighted_edges : bool)
  (st : gmap string (list string) * gmap string (Z * list string))
  (s : string)
  : outcome (gmap string (list string) * gmap string (Z * list string)
             + gmap string (list string) * gmap string (Z * list string)) :=
  let '(am, mm) := st in
  match tokenize s with
  | [r0; r1; r2] =>
      let actor_name := r0 in
      let movie_title := r1 +:+ "#@" +:+ r2 in
      movie_year ← stoi r2;
      let am1 :=
        match am !! actor_name with
        | None => <[actor_name := []]> am
        | Some _ => am
        end in
      let '(movies, am2) := subscript [] am1 actor_name in
      let am3 := <[actor_name := movies ++ [movie_title]]> am2 in
      let mm1 :=
        match mm !! movie_title with
        | None =>
            <[movie_title :=
                (if use_weighted_edges
                 then wrap (wrap (2018 - movie_year) + 1) else 1, [])]> mm
        | Some _ => mm
        end in
      let '(weight, cast, mm2) := subscript (0, []) mm1 movie_title in
      let mm3 := <[movie_title := (weight, cast ++ [actor_name])]> mm2 in
      Returns (inr (am3, mm3))
  | _ => Returns (inl (am, mm))
  end.

Fixpoint load_lines (use_weighted_edges : bool) (lines : list string)
  (st : gmap string (list string) * gmap string (Z * list string))
  : outcome (gmap string (list string) * gmap string (Z * list string)
             + gmap string (list string) * gmap string (Z * list string)) :=
  match lines with
  | [] => Returns (inr st)
  | s :: rest =>
      r ← load_line use_weighted_edges st s;
      match r with
      | inl st' => Returns (inl st')
      | inr st' => load_lines use_weighted_edges rest st'
      end
  end.

(** [new Vertex(n)]: only [name] is initialised by the constructor;
    [findPath] assigns the other members before it reads them. *)
Definition new_Vertex (n : string) : Vertex := mkVertex 0 false "" "" n.

(** [lines] are the lines of the file after its header.  The stream is read
    to its end, so the final [eof()] test succeeds. *)
Definition loadFromFile (g : t) (lines : list string)
  (use_weighted_edges : bool) : outcome (bool * t) :=
  r ← load_lines use_weighted_edges lines (actor_map g, movie_map g);
  match r with
  | inl (am, mm) => Returns (false, mkGraph am mm (vertices g))
  | inr (am, mm) =>
      Returns (true,
               mkGraph am mm
                 (map_imap (λ n _, Some (new_Vertex n)) am ∪ vertices g))
  end.

(** *** [ActorGraph::findPath] *)

Definition reset (v : Vertex) : Vertex :=
  mkVertex INT_MAX false "" "" (name v).

(** The locals and members the search loop works on. *)
Record search := mkSearch {
  s_actor_map : gmap string (list string);
  s_movie_map : gmap string (Z * list string);
  s_vertices : gmap string Vertex;
  pq : list string
}.

(** The comparator applied to two queued pointers: it reads the vertices
    as they are now. *)
Definition comp_now (vs : gmap string Vertex) (x y : string) : bool :=
  vertexComp (vs !!! x) (vs !!! y).

(** The body of [for (string adj_actor : movie_map[movie].second)]. *)
Definition relax (working : string) (movie : string) (weight : Z)
  (st : gmap string Vertex * list string) (adj_actor : string)
  : outcome (gmap string Vertex * list string) :=
  let '(vs, q) := st in
  match vs !! working with
  | None => Undefined
  | Some w =>
      if String.eqb adj_actor (name w) then Returns st
      else
        match vs !! adj_actor with
        | None => Undefined
        | Some a =>
            if wrap (dist w + weight) <? dist a
            then
              let a' := mkVertex (wrap (dist w + weight)) (done a)
                          (name w) movie (name a) in
              let vs' := <[adj_actor := a']> vs in
              Returns (vs', push (comp_now vs') q adj_actor)
            else Returns st
        end
  end.

(** The body of [for (string movie : actor_map[working->name])]. *)
Definition explore_movie (working : string) (st : search) (movie : string)
  : outcome search :=
  let e := subscript (0, []) (s_movie_map st) movie in
  let weight := e.1.1 in
  let e2 := subscript (0, []) e.2 movie in
  '(vs, q) ← for_each (relax working movie weight) e2.1.2
               (s_vertices st, pq st);
  Returns (mkSearch (s_actor_map st) e2.2 vs q).

(** [while (pq.size())].  The result is the state at the exit of the loop
    and the vertex [working] points to. *)
Fixpoint search_loop (fuel : nat) (end_name : string) (st : search)
  (working : string) : outcome (search * string) :=
  match fuel with
  | O => OutOfFuel
  | S fuel' =>
      match pq st with
      | [] => Returns (st, working)
      | top :: _ =>
          let st1 := mkSearch (s_actor_map st) (s_movie_map st)
                       (s_vertices st)
                       (pop (comp_now (s_vertices st)) (pq st)) in
          match s_vertices st !! top with
          | None => Undefined
          | Some w =>
              if String.eqb (name w) end_name then Returns (st1, top)
              else if done w then search_loop fuel' end_name st1 top
              else
                let w' := mkVertex (dist w) true (prev_actor w)
                            (prev_movie w) (name w) in
                let e := subscript [] (s_actor_map st) (name w) in
                let st2 := mkSearch e.2 (s_movie_map st)
                             (<[top := w']> (s_vertices st)) (pq st1) in
                st3 ← for_each (explore_movie top) e.1 st2;
                search_loop fuel' end_name st3 top
          end
      end
  end.

(** [while (working->prev_actor != "")]: the stack [vs], top first. *)
Fixpoint unwind (fuel : nat) (vs : gmap string Vertex) (working : string)
  (stack : list string) : outcome (list string) :=
  match fuel with
  | O => OutOfFuel
  | S fuel' =>
      match vs !! working with
      | None => Undefined
      | Some w =>
          if String.eqb (prev_actor w) "" then Returns (name w :: stack)
          else unwind fuel' vs (prev_actor w)
                 (prev_movie w :: name w :: stack)
      end
  end.

(** [while (vs.size() > 1)] and the final write. *)
Fixpoint write_path (stack : list string) : string :=
  match stack with
  | actor :: movie :: rest =>
      "(" +:+ actor +:+ ")--[" +:+ movie +:+ "]-->" +:+ write_path rest
  | [actor] => "(" +:+ actor +:+ ")"
  | [] => ""
  end.

(** What [findPath] appends to [out_file], and the graph it leaves.
    [fuel] bounds the iterations of each of its two [while] loops. *)
Definition findPath (fuel : nat) (g : t) (start_name end_name : string)
  : outcome (string * t) :=
  let vs0 := reset <$> vertices g in
  match vs0 !! start_name with
  | None => Undefined
  | Some w =>
      let vs1 := <[start_name :=
                     mkVertex 0 (done w) (prev_actor w) (prev_movie w)
                       (name w)]> vs0 in
      let q := push (comp_now vs1) [] start_name in
      '(st, working) ←
        search_loop fuel end_name
          (mkSearch (actor_map g) (movie_map g) vs1 q) start_name;
      stack ← unwind fuel (s_vertices st) working [];
      Returns (write_path stack,
               mkGraph (s_actor_map st) (s_movie_map st) (s_vertices st))
  end.

(** *** [main] of pathfindermain.cpp *)

Definition header : string := "(actor)--[movie#@year]-->(actor)--...".

(** [while (getline(pairs, line))]: the lines written to the output. *)
Fixpoint find_pairs (fuel : nat) (g : t) (pairs : list string)
  : outcome (list string) :=
  match pairs with
  | [] => Returns []
  | line :: rest =>
      match tokenize line with
      | start_name :: end_name :: _ =>
          '(out, g') ← findPath fuel g start_name end_name;
          outs ← find_pairs fuel g' rest;
          Returns (out :: outs)
      | _ => Undefined
      end
  end.

(** The exit status and the lines of the output file, from the lines of
    the two input files after their headers. *)
Definition main (fuel : nat) (data : list string) (weighted : bool)
  (pairs : list string) : outcome (Z * list string) :=
  '(ok, g) ← loadFromFile empty data weighted;
  if ok : bool
  then outs ← find_pairs fuel g pairs; Returns (0, header :: outs)
  else Returns (-1, []).

End ActorGraph.

(** ** The projected actor graph of predictormain.cpp and
       popularityfindermain.cpp

    Both files carry the same [BuildStructures]: the statements up to the
    filling of [graph] are modelled once, here. *)

Module Projection.
Import Cxx.

(** [name_to_int], [int_to_name] and the local [movie_to_actor]. *)
Record tables := mkTables {
  name_to_int : gmap string nat;
  int_to_name : list string;
  movie_to_actor : gmap string (list string)
}.

Definition no_tables : tables := mkTables ∅ [] ∅.

(** The body of [while (getline(tsv_file, line))].  [record[1]] and
    [record[2]] are read unchecked: a shorter record is read out of
    bounds. *)
Definition read_line (tb : tables) (line : string) : outcome tables :=
  match tokenize line with
  | r0 :: r1 :: r2 :: _ =>
      let actor_name := r0 in
      let movie_title := r1 +:+ r2 in
      let '(n2i, i2n) :=
        match name_to_int tb !! actor_name with
        | None => (<[actor_name := length (int_to_name tb)]> (name_to_int tb),
                   int_to_name tb ++ [actor_name])
        | Some _ => (name_to_int tb, int_to_name tb)
        end in
      let m2a :=
        match movie_to_actor tb !! movie_title with
        | None => <[movie_title := []]> (movie_to_actor tb)
        | Some _ => movie_to_actor tb
        end in
      let '(cast, m2a') := subscript [] m2a movie_title in
      Returns (mkTables n2i i2n
                 (<[movie_title := cast ++ [actor_name]]> m2a'))
  | _ => Undefined
  end.

Definition read_tsv (lines : list string) : outcome tables :=
  for_each read_line lines no_tables.

(** [vector<vector<int>>(n, vector<int>(n, 0))] *)
Definition zeros (n : nat) : list (list Z) := replicate n (replicate n 0).

(** [graph[a][b] = 1] *)
Definition set_edge (a b : nat) (graph : list (list Z)) : list (list Z) :=
  <[a := <[b := 1]> (graph !!! a)]> graph.

(** [name_to_int[actors[i]]] inside [BuildStructures]: every name of a cast
    was registered by the reading loop, so the subscript finds it. *)
Definition id_of (n2i : gmap string nat) (actor : string) : nat :=
  default 0%nat (n2i !! actor).

(** The loop on [j] from [i + 1] for the cast member [x] at position [i],
    [rest] being the members after it. *)
Definition connect_one (n2i : gmap string nat) (x : string)
  (rest : list string) (graph : list (list Z)) : list (list Z) :=
  foldl (λ g y, set_edge (id_of n2i y) (id_of n2i x)
                  (set_edge (id_of n2i x) (id_of n2i y) g)) graph rest.

(** The loop on [i] over one cast. *)
Fixpoint connect_cast (n2i : gmap string nat) (cast : list string)
  (graph : list (list Z)) : list (list Z) :=
  match cast with
  | [] => graph
  | x :: rest => connect_cast n2i rest (connect_one n2i x rest graph)
  end.

(** [for (auto pair : movie_to_actor)], in the unspecified order of the
    map. *)
Definition build_graph (tb : tables) : list (list Z) :=
  map_fold (λ _ cast g, connect_cast (name_to_int tb) cast g)
    (zeros (length (int_to_name tb))) (movie_to_actor tb).

End Projection.

(** ** predictorandrecommender: predictormain.cpp *)

Module Predictor.
Import Cxx Projection.

(** The file-level variables. *)
Record globals := mkGlobals {
  g_name_to_int : gmap string nat;
  g_int_to_name : list string;
  actors : list string;
  graph : list (list Z)
}.

(** [BuildStructures(tsv_file, actors_file)], from the lines of the two
    files after their headers. *)
Definition BuildStructures (tsv targets : list string) : outcome globals :=
  tb ← read_tsv tsv;
  Returns (mkGlobals (name_to_int tb) (int_to_name tb) targets
             (build_graph tb)).

(** [compare] *)
Definition compare (x y : Z * string) : bool :=
  if x.1 =? y.1 then String.ltb x.2 y.2 else y.1 <? x.1.

Definition predict_max : nat := 4.

(** [mutual_count] after the two nested loops on [dot_ind] and [i]. *)
Definition mutual_counts (graph : list (list Z)) (row : list Z) : list Z :=
  let row_size := length row in
  foldl (λ mc dot_ind,
           foldl (λ mc i,
                    <[dot_ind :=
                      mc !!! dot_ind
                      + Z.land ((graph !!! dot_ind) !!! i) (row !!! i)]> mc)
             mc (seq 0 row_size))
    (replicate row_size 0) (seq 0 row_size).

(** The loop that writes the names of one line. *)
Fixpoint write_names (i : nat) (predicts : list (Z * string)) : string :=
  match predicts with
  | [] => ""
  | p :: rest =>
      if (p.1 =? 0) || (predict_max <=? i)%nat then ""
      else p.2 +:+ (if (i =? predict_max - 1)%nat then "" else String tab "")
             +:+ write_names (S i) rest
  end.

(** The vector [predicts] of one target before the [sort]. *)
Definition candidates (graph : list (list Z)) (i2n : list string) (u : nat)
  (neighbor : bool) : list (Z * string) :=
  let row := graph !!! u in
  let mutual_count := <[u := 0]> (mutual_counts graph row) in
  omap (λ i, if row !!! i =? (if neighbor then 1 else 0)
             then Some (mutual_count !!! i, i2n !!! i) else None)
    (seq 0 (length row)).

Definition ranked (graph : list (list Z)) (i2n : list string) (u : nat)
  (neighbor : bool) : list (Z * string) :=
  sort compare (candidates graph i2n u neighbor).

(** The body of [for (string actor : actors)]: the line written for
    [actor], without its newline, and [name_to_int] after the subscripts. *)
Definition interactions_of (neighbor : bool) (graph : list (list Z))
  (i2n : list string) (n2i : gmap string nat) (actor : string)
  : outcome (string * gmap string nat) :=
  let '(u, n2i') := subscript 0%nat n2i actor in
  if (u <? length graph)%nat
  then Returns (write_names 0 (ranked graph i2n u neighbor), n2i')
  else Undefined.

Definition header : string := "Actor1,Actor2,Actor3,Actor4".

(** [FindInteractions(neighbor, out_file)]: the lines written. *)
Fixpoint interactions (neighbor : bool) (graph : list (list Z))
  (i2n : list string) (n2i : gmap string nat) (targets : list string)
  : outcome (list string * gmap string nat) :=
  match targets with
  | [] => Returns ([], n2i)
  | actor :: rest =>
      '(line, n2i1) ← interactions_of neighbor graph i2n n2i actor;
      '(lines, n2i2) ← interactions neighbor graph i2n n2i1 rest;
      Returns (line :: lines, n2i2)
  end.

Definition FindInteractions (neighbor : bool) (g : globals)
  : outcome (list string * globals) :=
  '(lines, n2i) ← interactions neighbor (graph g) (g_int_to_name g)
                    (g_name_to_int g) (actors g);
  Returns (header :: lines,
           mkGlobals n2i (g_int_to_name g) (actors g) (graph g)).

(** [main]: the lines of the two output files. *)
Definition main (tsv targets : list string)
  : outcome (list string * list string) :=
  g ← BuildStructures tsv targets;
  '(interact, g1) ← FindInteractions true g;
  '(collab, _) ← FindInteractions false g1;
  Returns (interact, collab).

End Predictor.

(** ** popularityfinder: popularityfindermain.cpp *)

Module Popularity.
Import Cxx Projection.

(** The file-level variables. *)
Record globals := mkGlobals {
  g_name_to_int : gmap string nat;
  g_int_to_name : list string;
  graph : list (list Z);
  counts : list Z
}.

(** The two nested loops that fill [counts] with the row sums. *)
Definition first_counts (graph : list (list Z)) (n : nat) : list Z :=
  foldl (λ c i,
           foldl (λ c j, <[i := c !!! i + (graph !!! i) !!! j]> c) c
             (seq 0 (length graph)))
    (replicate n 0) (seq 0 (length graph)).

(** [BuildStructures(tsv_file)] *)
Definition BuildStructures (tsv : list string) : outcome globals :=
  tb ← read_tsv tsv;
  let graph := build_graph tb in
  Returns (mkGlobals (name_to_int tb) (int_to_name tb) graph
             (first_counts graph (length (int_to_name tb)))).

(** The deletion of vertex [i]: the loop on [j], then the mark. *)
Definition remove_vertex (graph : list (list Z)) (i : nat) (counts : list Z)
  : list Z :=
  let size := length counts in
  <[i := - Z.of_nat size]>
    (foldl (λ c j, if (graph !!! i) !!! j =? 0 then c
                   else <[j := c !!! j - 1]> c)
       counts (seq 0 size)).

(** The body of the loop on [i]; the state is [counts] and [not_done]. *)
Definition prune_vertex (graph : list (list Z)) (k : Z)
  (st : list Z * bool) (i : nat) : list Z * bool :=
  let '(counts, not_done) := st in
  if (counts !!! i <? k) && (- Z.of_nat (length counts) <? counts !!! i)
  then (remove_vertex graph i counts, true)
  else st.

(** One round of [while (not_done)]. *)
Definition prune_pass (graph : list (list Z)) (k : Z) (counts : list Z)
  : list Z * bool :=
  foldl (prune_vertex graph k) (counts, false) (seq 0 (length counts)).

(** [while (not_done)]: [counts] at the exit. *)
Fixpoint prune (fuel : nat) (graph : list (list Z)) (k : Z)
  (counts : list Z) : outcome (list Z) :=
  match fuel with
  | O => OutOfFuel
  | S fuel' =>
      let '(counts', not_done) := prune_pass graph k counts in
      if not_done then prune fuel' graph k counts' else Returns counts'
  end.

(** The vector [names] before it is sorted. *)
Definition kept (k : Z) (counts : list Z) (i2n : list string) : list string :=
  omap (λ i, if k <=? counts !!! i then Some (i2n !!! i) else None)
    (seq 0 (length counts)).

Definition header : string := "Actor".

(** [main]: the lines of the output file, from the lines of the data file
    after its header and the argument [k]. *)
Definition main (fuel : nat) (tsv : list string) (k_arg : string)
  : outcome (list string) :=
  k ← stoi k_arg;
  g ← BuildStructures tsv;
  counts' ← prune fuel (graph g) k (counts g);
  Returns (header :: sort String.ltb (kept k counts' (g_int_to_name g))).

End Popularity.

(** ** What the specification speaks of *)

(** *** Paths *)

Module PathSpec.
Import Cxx ActorGraph.

(** One hop [--[movie]-->(actor)] of a path. *)
Definition hop : Type := string * string.

(** [actor] plays in [movie] according to the two maps of the graph. *)
Definition plays_in (g : t) (actor movie : string) : bool :=
  bool_decide (movie ∈ default [] (actor_map g !! actor))
  && bool_decide (actor ∈ default [] (snd <$> movie_map g !! movie)).

(** [hops] leads from [from] to [to]: each hop goes through a movie shared
    by the two actors it joins. *)
Fixpoint connects (g : t) (from : string) (hops : list hop) (to : string)
  : bool :=
  match hops with
  | [] => bool_decide (from = to)
  | (movie, actor) :: rest =>
      plays_in g from movie && plays_in g actor movie
      && connects g actor rest to
  end.

(** The sum of the weights of the movies a path goes through. *)
Fixpoint total_weight (g : t) (hops : list hop) : Z :=
  match hops with
  | [] => 0
  | (movie, _) :: rest =>
      default 0 (fst <$> movie_map g !! movie) + total_weight g rest
  end.

(** The line [findPath] writes for a path. *)
Fixpoint line_of (from : string) (hops : list hop) : string :=
  match hops with
  | [] => "(" +:+ from +:+ ")"
  | (movie, actor) :: rest =>
      "(" +:+ from +:+ ")--[" +:+ movie +:+ "]-->" +:+ line_of actor rest
  end.

(** Every vertex is stored under its own name. *)
Definition named (g : t) : Prop :=
  ∀ k v, vertices g !! k = Some v → name v = k.

(** The line an outcome of [findPath] carries. *)
Definition written (o : outcome (string * t)) : option string :=
  match o with
  | Returns (line, _) => Some line
  | _ => None
  end.

End PathSpec.

(** *** The projected graph, the ranking and the core *)

Module GraphSpec.
Import Cxx Projection.

(** [graph[i][j]] *)
Definition entry (graph : list (list Z)) (i j : nat) : Z :=
  (graph !!! i) !!! j.

(** An [n] by [n] matrix. *)
Definition square (n : nat) (graph : list (list Z)) : Prop :=
  length graph = n ∧ ∀ i, (i < n)%nat → length (graph !!! i) = n.

(** Ids and names are inverse to each other, and every member of a cast has
    an id. *)
Definition registry (tb : tables) : Prop :=
  (∀ a i, name_to_int tb !! a = Some i ↔ int_to_name tb !! i = Some a)
  ∧ (∀ m cast a, movie_to_actor tb !! m = Some cast → a ∈ cast →
       is_Some (name_to_int tb !! a)).

(** What the pairing loops keep: the shape of the matrix, its symmetry and
    its entries being 0 or 1. *)
Definition projected (n : nat) (g : list (list Z)) : Prop :=
  square n g
  ∧ (∀ i j, (i < n)%nat → (j < n)%nat → entry g i j = entry g j i)
  ∧ (∀ i j, (i < n)%nat → (j < n)%nat → entry g i j = 0 ∨ entry g i j = 1).

(** No actor is connected to itself. *)
Definition loop_free (n : nat) (g : list (list Z)) : Prop :=
  ∀ i, (i < n)%nat → entry g i i = 0.

(** The number of ids [k] with [graph[u][k]] and [graph[v][k]] both 1: what
    the dot product of the two rows counts.  [u] and [v] themselves are
    among the [k] when their diagonal entries are set. *)
Definition mutual (graph : list (list Z)) (u v : nat) : Z :=
  Z.of_nat (length (filter (λ k, entry graph u k = 1 ∧ entry graph v k = 1)
                      (seq 0 (length graph)))).

(** [v] is a candidate for the query actor [u] in the given mode (neighbours
    for prediction, the others for recommendation) and has a neighbour in
    common with [u]. *)
Definition qualifies (graph : list (list Z)) (u : nat) (neighbor : bool)
  (v : nat) : Prop :=
  v ≠ u ∧ entry graph u v = (if neighbor then 1 else 0)
  ∧ 0 < mutual graph u v.

#[global] Instance qualifies_dec graph u neighbor v :
  Decision (qualifies graph u neighbor v).
Proof. unfold qualifies. apply _. Defined.

(** The qualifying candidates with their scores and names. *)
Definition qualifying (graph : list (list Z)) (i2n : list string) (u : nat)
  (neighbor : bool) : list (Z * string) :=
  (λ v, (mutual graph u v, i2n !!! v))
    <$> filter (qualifies graph u neighbor) (seq 0 (length graph)).

(** The number of actors other than [u] and [v] connected to both: their
    common neighbours. *)
Definition shared (graph : list (list Z)) (u v : nat) : Z :=
  Z.of_nat (length (filter (λ k, k ≠ u ∧ k ≠ v
                                 ∧ entry graph u k = 1 ∧ entry graph v k = 1)
                      (seq 0 (length graph)))).

(** [v] is a candidate for the query actor [u] in the given mode, and a
    third actor is connected to both. *)
Definition nominee (graph : list (list Z)) (u : nat) (neighbor : bool)
  (v : nat) : Prop :=
  v ≠ u ∧ entry graph u v = (if neighbor then 1 else 0)
  ∧ 0 < shared graph u v.

#[global] Instance nominee_dec graph u neighbor v :
  Decision (nominee graph u neighbor v).
Proof. unfold nominee. apply _. Defined.

(** The nominees with their numbers of common neighbours and their names. *)
Definition nominees (graph : list (list Z)) (i2n : list string) (u : nat)
  (neighbor : bool) : list (Z * string) :=
  (λ v, (shared graph u v, i2n !!! v))
    <$> filter (nominee graph u neighbor) (seq 0 (length graph)).

(** The ranking: larger score first, equal scores by ascending name. *)
Definition ranks_before (x y : Z * string) : Prop :=
  y.1 < x.1 ∨ (x.1 = y.1 ∧ String.ltb x.2 y.2).

(** [x] is not ranked after [y] by [compare]. *)
Definition rank_le (x y : Z * string) : Prop := Predictor.compare y x = false.

(** The entry of [predicts] that vertex [v] contributes. *)
Definition candidate_of (g : list (list Z)) (i2n : list string) (u : nat)
  (neighbor : bool) (v : nat) : option (Z * string) :=
  if entry g u v =? (if neighbor then 1 else 0)
  then Some (if decide (v = u) then 0 else mutual g u v, i2n !!! v)
  else None.

(** The sum of [f] over a list of indices. *)
Definition sum_over {A} (f : A → Z) (l : list A) : Z :=
  foldr (λ i acc, f i + acc) 0 l.

(** Names each followed by a tab, except the one at index 3 of the line. *)
Fixpoint tab_separated (i : nat) (names : list string) : string :=
  match names with
  | [] => ""
  | nm :: rest =>
      nm +:+ (if (i =? 3)%nat then "" else String tab "")
         +:+ tab_separated (S i) rest
  end.

(** The number of members of [S] other than [i] that [i] is connected to. *)
Definition degree_in (graph : list (list Z)) (S : gset nat) (i : nat) : Z :=
  Z.of_nat (length (filter (λ j, j ∈ S ∧ j ≠ i ∧ entry graph i j ≠ 0)
                      (seq 0 (length graph)))).

(** Every member of [S] is a vertex with at least [k] neighbours among the
    other members of [S]. *)
Definition core (graph : list (list Z)) (k : Z) (S : gset nat) : Prop :=
  ∀ i, i ∈ S → (i < length graph)%nat ∧ k ≤ degree_in graph S i.

(** Vertex [j] has not been deleted: its count is above the mark. *)
Definition alive (c : list Z) (j : nat) : Prop :=
  - Z.of_nat (length c) < c !!! j.

#[global] Instance alive_dec c j : Decision (alive c j).
Proof. unfold alive. apply _. Defined.

(** The number of vertices still alive that [i] is connected to. *)
Definition alive_degree (g : list (list Z)) (c : list Z) (i : nat) : Z :=
  Z.of_nat (length (filter (λ j, alive c j ∧ entry g i j ≠ 0)
                      (seq 0 (length c)))).

(** The number of vertices still alive. *)
Definition alive_count (c : list Z) : nat :=
  length (filter (alive c) (seq 0 (length c))).

(** What the pruning loop maintains: the count of a vertex that is alive is
    the number of its neighbours that are alive, and the count of a deleted
    vertex is below the threshold. *)
Definition counted (g : list (list Z)) (k : Z) (c : list Z) : Prop :=
  (∀ i, (i < length c)%nat → alive c i → c !!! i = alive_degree g c i)
  ∧ (∀ i, (i < length c)%nat → ¬ alive c i → c !!! i < k).

(** The vertices whose final count is at least [k]. *)
Definition survivors (k : Z) (counts : list Z) : gset nat :=
  list_to_set (filter (λ i, k ≤ counts !!! i) (seq 0 (length counts))).

End GraphSpec.

(** ** Sample inputs *)

Module Samples.
Import Cxx.

Definition row (actor movie year : string) : string :=
  actor +:+ String tab (movie +:+ String tab year).

Definition pair (start_name end_name : string) : string :=
  start_name +:+ String tab end_name.

(** S, A, B and C share an older movie; S and B, and A and B, each share a
    recent one. *)
Definition detour : list string :=
  [ row "S" "M1" "2009"; row "A" "M1" "2009"; row "B" "M1" "2009";
    row "C" "M1" "2009"; row "S" "M2" "2018"; row "B" "M2" "2018";
    row "A" "M3" "2018"; row "B" "M3" "2018" ].

(** S and A share a movie, E plays alone. *)
Definition apart : list string :=
  [ row "S" "M1" "2000"; row "A" "M1" "2000"; row "E" "M2" "2000" ].

(** The dataset of the specification's example scenarios. *)
Definition scenario : list string :=
  [ row "A" "M1" "2000"; row "B" "M1" "2000"; row "C" "M1" "2000";
    row "A" "M2" "2010"; row "D" "M2" "2010" ].

(** The tables that the reading loop builds from [scenario]. *)
Definition scenario_tables : Projection.tables :=
  Projection.mkTables
    {["A" := 0%nat; "B" := 1%nat; "C" := 2%nat; "D" := 3%nat]}
    ["A"; "B"; "C"; "D"]
    {["M12000" := ["A"; "B"; "C"]; "M22010" := ["A"; "D"]]}.

(** The same record twice. *)
Definition repeated : list string :=
  [ row "A" "M" "2000"; row "A" "M" "2000" ].

(** A movie that bills A twice, and B. *)
Definition billed_twice : list string :=
  [ row "A" "M" "2000"; row "A" "M" "2000"; row "B" "M" "2000" ].

(** Two titles and years with the same concatenation. *)
Definition glued : list string :=
  [ row "A" "X1" "999"; row "B" "X" "1999" ].

(** Two titles and years that meet in one key of [movie_map]: [stoi] reads
    the year 1 from the text before the number sign. *)
Definition glued_titles : list string :=
  [ row "P" "T#@1" "2"; row "Q" "T" "1#@2" ].

(** A good record followed by one with a single field. *)
Definition truncated : list string := [ row "S" "M1" "2000"; "S" ].

(** A record with a fourth field. *)
Definition overlong : list string :=
  [ row "A" "M" "2000" +:+ String tab "x"; row "B" "M" "2000" ].

(** What [loadFromFile] leaves in the graph, whatever it returns. *)
Definition loaded (lines : list string) (weighted : bool) : ActorGraph.t :=
  match ActorGraph.loadFromFile ActorGraph.empty lines weighted with
  | Returns (_, g) => g
  | _ => ActorGraph.empty
  end.

(** The graph as the query for the pair ([start_name], [end_name]) leaves
    it. *)
Definition queried (fuel : nat) (g : ActorGraph.t)
  (start_name end_name : string) : ActorGraph.t :=
  match ActorGraph.findPath fuel g start_name end_name with
  | Returns (_, g') => g'
  | _ => g
  end.

End Samples.

(** *** Records and casts *)

Module DataSpec.
Import Cxx.

(** The actor and the movie key that the reading loop of [BuildStructures]
    takes from a line, when the line has the three fields it reads. *)
Definition record_of (line : string) : option (string * string) :=
  match tokenize line with
  | r0 :: r1 :: r2 :: _ => Some (r0, r1 +:+ r2)
  | _ => None
  end.

(** The actors of the lines filed under [key], in the order of the lines. *)
Definition cast_of (key : string) (lines : list string) : list string :=
  omap (λ line, match record_of line with
                | Some (a, k) => if decide (k = key) then Some a else None
                | None => None
                end) lines.

(** Two entries, at different positions, of the cast of one movie name [a]
    and [b]. *)
Definition co_star (lines : list string) (a b : string) : Prop :=
  ∃ key p q, p ≠ q ∧ cast_of key lines !! p = Some a
             ∧ cast_of key lines !! q = Some b.

End DataSpec.

(** *** Sets closed under the threshold *)

Module PruneSpec.
Import GraphSpec.

(** The number of members of [S] that [i] has a non-zero entry for, its
    own diagonal entry included. *)
Definition degree_within (graph : list (list Z)) (S : gset nat) (i : nat)
  : Z :=
  Z.of_nat (length (filter (λ j, j ∈ S ∧ entry graph i j ≠ 0)
                      (seq 0 (length graph)))).

(** Every member of [S] is a vertex whose row has at least [k] non-zero
    entries in the columns of [S]. *)
Definition closed (graph : list (list Z)) (k : Z) (S : gset nat) : Prop :=
  ∀ i, i ∈ S → (i < length graph)%nat ∧ k ≤ degree_within graph S i.

End PruneSpec.

(** *** The records of a data file, as [loadFromFile] reads them *)

Module LoadSpec.
Import Cxx ActorGraph.

(** The actor, the movie key and the year of a line that has exactly three
    fields and a year that [stoi] reads. *)
Definition parsed (line : string) : option (string * string * Z) :=
  match tokenize line with
  | [r0; r1; r2] =>
      match stoi r2 with
      | Returns y => Some (r0, r1 +:+ "#@" +:+ r2, y)
      | _ => None
      end
  | _ => None
  end.

(** The movie keys of the records of [actor], in the order of the lines. *)
Definition movies_of (actor : string) (lines : list string) : list string :=
  omap (λ line, match parsed line with
                | Some (a, m, _) => if decide (a = actor) then Some m else None
                | None => None
                end) lines.

(** The actors of the records of [movie], in the order of the lines. *)
Definition players_of (movie : string) (lines : list string) : list string :=
  omap (λ line, match parsed line with
                | Some (a, m, _) => if decide (m = movie) then Some a else None
                | None => None
                end) lines.

(** The years read from the records of [movie]. *)
Definition years_of (movie : string) (lines : list string) : list Z :=
  omap (λ line, match parsed line with
                | Some (_, m, y) => if decide (m = movie) then Some y else None
                | None => None
                end) lines.

(** The weight given to a movie of year [y]. *)
Definition weight_of (use_weighted_edges : bool) (y : Z) : Z :=
  if use_weighted_edges then wrap (wrap (2018 - y) + 1) else 1.

End LoadSpec.

(** *** The state of the search of [findPath] *)

Module SearchSpec.
Import Cxx ActorGraph PathSpec.

(** [b] is in the cast of a movie listed for [a]. *)
Definition adjacent (g : t) (a b : string) : Prop :=
  ∃ m movies wt cast,
    actor_map g !! a = Some movies ∧ m ∈ movies
    ∧ movie_map g !! m = Some (wt, cast) ∧ b ∈ cast.

(** What a graph built by [loadFromFile] satisfies: the two maps mirror each
    other, every actor has a vertex stored under its name, no actor has the
    empty name (which [prev_actor] uses for the absence of a predecessor),
    and the weights lie between 1 and [W], where [W] times the number of
    vertices stays below [INT_MAX]. *)
Definition consistent (g : t) (W : Z) : Prop :=
  (∀ a movies m, actor_map g !! a = Some movies → m ∈ movies →
     ∃ wt cast, movie_map g !! m = Some (wt, cast) ∧ a ∈ cast)
  ∧ (∀ m wt cast a, movie_map g !! m = Some (wt, cast) → a ∈ cast →
       1 ≤ wt ≤ W ∧ ∃ movies, actor_map g !! a = Some movies ∧ m ∈ movies)
  ∧ dom (vertices g) = dom (actor_map g)
  ∧ named g
  ∧ vertices g !! "" = None
  ∧ 0 ≤ W
  ∧ W * Z.of_nat (size (vertices g)) < INT_MAX.

(** The number of vertices marked [done]. *)
Definition done_count (vs : gmap string Vertex) : nat :=
  size (filter (λ kv, done kv.2 = true) vs).

(** The sum of the [dist] members. *)
Definition dist_sum (vs : gmap string Vertex) : Z :=
  map_fold (λ _ v acc, dist v + acc) 0 vs.

(** What decreases with every round of [while (pq.size())]. *)
Definition measure (st : search) : Z :=
  Z.of_nat (length (pq st)) + 2 * dist_sum (s_vertices st).

(** The predecessor members form chains that lead back to [start] through
    shared movies, with [dist] decreasing along them. *)
Record chained (g : t) (W : Z) (start : string) (vs : gmap string Vertex)
  : Prop := {
  ch_dom : dom vs = dom (vertices g);
  ch_name : ∀ k v, vs !! k = Some v → name v = k;
  ch_start : ∃ v, vs !! start = Some v ∧ dist v = 0 ∧ prev_actor v = "";
  ch_dist : ∀ k v, vs !! k = Some v →
    dist v = INT_MAX ∨ 0 ≤ dist v ≤ W * Z.of_nat (done_count vs);
  ch_prev : ∀ k v, vs !! k = Some v → prev_actor v ≠ "" →
    dist v ≠ INT_MAX
    ∧ plays_in g (prev_actor v) (prev_movie v) = true
    ∧ plays_in g k (prev_movie v) = true
    ∧ ∃ p, vs !! prev_actor v = Some p ∧ dist p < dist v;
  ch_root : ∀ k v, vs !! k = Some v → prev_actor v = "" →
    k = start ∨ dist v = INT_MAX
}.

(** The invariant of the search loop.  [cur] is the vertex whose movies are
    being explored, if any, and [Seen] holds of the co-stars the exploration
    has already looked at. *)
Record searching (g : t) (W : Z) (start end_name : string)
    (cur : option string) (Seen : string → Prop) (st : search) : Prop := {
  se_am : s_actor_map st = actor_map g;
  se_mm : s_movie_map st = movie_map g;
  se_chained : chained g W start (s_vertices st);
  se_pq : ∀ k, k ∈ pq st →
    ∃ v, s_vertices st !! k = Some v ∧ dist v ≠ INT_MAX;
  se_done : ∀ k v, s_vertices st !! k = Some v → done v = true →
    dist v ≠ INT_MAX ∧ k ≠ end_name;
  se_open : ∀ k v, s_vertices st !! k = Some v → dist v ≠ INT_MAX →
    done v = true ∨ k ∈ pq st;
  se_closed : ∀ k v, s_vertices st !! k = Some v → done v = true →
    cur ≠ Some k →
    ∀ b, adjacent g k b →
      ∃ vb, s_vertices st !! b = Some vb ∧ dist vb ≠ INT_MAX;
  se_cur : ∀ w, cur = Some w →
    ∃ v, s_vertices st !! w = Some v ∧ done v = true
         ∧ dist v + W ≤ W * Z.of_nat (done_count (s_vertices st));
  se_seen : ∀ b, Seen b →
    ∃ vb, s_vertices st !! b = Some vb ∧ dist vb ≠ INT_MAX
}.

(** The stack that [findPath] fills for a path, below its first actor. *)
Fixpoint stack_of (hops : list hop) : list string :=
  match hops with
  | [] => []
  | (movie, actor) :: rest => movie :: actor :: stack_of rest
  end.

End SearchSpec.

(** *** Lines and their fields *)

Module LineSpec.
Import Cxx.

(** The string contains a tab. *)
Fixpoint has_tab (s : string) : bool :=
  match s with
  | EmptyString => false
  | String c s' => Ascii.eqb c tab || has_tab s'
  end.

(** The fields written one after the other with a tab between them. *)
Fixpoint tab_joined (fields : list string) : string :=
  match fields with
  | [] => ""
  | [f] => f
  | f :: rest => f +:+ String tab (tab_joined rest)
  end.

End LineSpec.

(** *** The heap order of the queue *)

Module HeapSpec.

Section Heap.
Context {A : Type} `{Inhabited A} (comp : A → A → bool).

(** The index of the parent of a node of the binary heap. *)
Definition parent (i : nat) : nat := ((i - 1) / 2)%nat.

(** No node among the first [len] is ordered before its child: the first
    element is a largest one. *)
Definition heap (len : nat) (c : list A) : Prop :=
  ∀ i, (0 < i < len)%nat → comp (c !!! parent i) (c !!! i) = false.

(** The heap order everywhere but at the node [hole], whose children are
    not above its parent. *)
Definition heap_but (len hole : nat) (c : list A) : Prop :=
  (∀ i, (0 < i < len)%nat → i ≠ hole → parent i ≠ hole →
     comp (c !!! parent i) (c !!! i) = false)
  ∧ ((0 < hole)%nat →
     ∀ i, (0 < i < len)%nat → parent i = hole →
       comp (c !!! parent hole) (c !!! i) = false).

(** [value] is not below the children of the node [hole]. *)
Definition fits (len hole : nat) (c : list A) (value : A) : Prop :=
  ∀ i, (0 < i < len)%nat → parent i = hole → comp value (c !!! i) = false.

(** What the heap algorithms ask of the comparator. *)
Definition strict_weak : Prop :=
  (∀ x, comp x x = false)
  ∧ (∀ x y, comp x y = true → comp y x = false)
  ∧ (∀ x y z, comp x y = false → comp y z = false → comp x z = false).

End Heap.

End HeapSpec.

(** *** The search when every movie has the weight 1 *)

Module LevelSpec.
Import Cxx ActorGraph PathSpec SearchSpec HeapSpec.

(** What the search keeps in addition when all weights are 1: the queue is
    a heap for the comparator, the vertices come off it level by level
    ([D] is the distance of the vertex popped last), and the distance of a
    vertex is one more than that of its predecessor. *)
Record level (g : t) (D : Z) (cur : option string) (Seen : string → Prop)
    (st : search) : Prop := {
  lv_heap : heap (comp_now (s_vertices st)) (length (pq st)) (pq st);
  lv_done : ∀ k v, s_vertices st !! k = Some v → done v = true →
    dist v ≤ D;
  lv_pq : ∀ k v, k ∈ pq st → s_vertices st !! k = Some v →
    D ≤ dist v ≤ D + 1;
  lv_prev : ∀ k v, s_vertices st !! k = Some v → prev_actor v ≠ "" →
    ∃ p, s_vertices st !! prev_actor v = Some p ∧ dist v = dist p + 1;
  lv_closed : ∀ k v, s_vertices st !! k = Some v → done v = true →
    cur ≠ Some k →
    ∀ b vb, adjacent g k b → s_vertices st !! b = Some vb →
      dist vb ≤ dist v + 1;
  lv_cur : ∀ w v, cur = Some w → s_vertices st !! w = Some v → dist v = D;
  lv_seen : ∀ b vb, Seen b → s_vertices st !! b = Some vb →
    dist vb ≤ D + 1
}.

End LevelSpec.

(** * Properties *)

(** ** pathfinder *)

Module PathfinderFacts.
Import Cxx ActorGraph PathSpec.

Lemma bind_Returns {A B} (m : outcome A) (f : A → outcome B) b :
  m ≫= f = Returns b → ∃ a, m = Returns a ∧ f a = Returns b.
Proof. destruct m; simpl; try discriminate. eauto. Qed.

Lemma loadFromFile_vertices lines w b g :
  loadFromFile empty lines w = Returns (b, g) →
  ∀ k v, vertices g !! k = Some v → v = new_Vertex k.
Proof.
  unfold loadFromFile. intros Hl k v Hv.
  apply bind_Returns in Hl as ([[am mm]|[am mm]] & _ & Hr);
    simpl in Hr; injection Hr as <- <-; simpl in Hv.
  - rewrite lookup_empty in Hv. discriminate.
  - rewrite (right_id_L ∅ (∪)) in Hv. rewrite map_lookup_imap in Hv.
    destruct (am !! k); simpl in Hv; congruence.
Qed.

Lemma loadFromFile_named lines w b g :
  loadFromFile empty lines w = Returns (b, g) → named g.
Proof.
  intros Hl k v Hv. by rewrite (loadFromFile_vertices _ _ _ _ Hl k v Hv).
Qed.

(** *** Vertices stay under their names *)

Lemma relax_names working movie weight vs q vs' q' adj_actor :
  (∀ k v, vs !! k = Some v → name v = k) →
  relax working movie weight (vs, q) adj_actor = Returns (vs', q') →
  ∀ k v, vs' !! k = Some v → name v = k.
Proof.
  intros Hn. unfold relax.
  destruct (vs !! working) as [w|]; [|done].
  destruct (String.eqb adj_actor (name w)); [by intros [= <- <-]|].
  destruct (vs !! adj_actor) as [a|] eqn:Ha; [|done].
  destruct (_ <? _); [|by intros [= <- <-]].
  intros [= <- <-] k v. destruct (decide (k = adj_actor)) as [->|Hne].
  - rewrite lookup_insert_eq. intros [= <-]. simpl. by apply Hn.
  - rewrite lookup_insert_ne by done. apply Hn.
Qed.

Lemma relax_all_names working movie weight cast st st' :
  (∀ k v, st.1 !! k = Some v → name v = k) →
  for_each (relax working movie weight) cast st = Returns st' →
  ∀ k v, st'.1 !! k = Some v → name v = k.
Proof.
  revert st. induction cast as [|a cast IH]; intros [vs q] Hn; simpl.
  - by intros [= <-].
  - intros Hrun. apply bind_Returns in Hrun as ([vs1 q1] & H1 & Hrest).
    apply (IH (vs1, q1)); [|done]. simpl. by eapply relax_names.
Qed.

Lemma explore_movie_names working st st' movie :
  (∀ k v, s_vertices st !! k = Some v → name v = k) →
  explore_movie working st movie = Returns st' →
  ∀ k v, s_vertices st' !! k = Some v → name v = k.
Proof.
  intros Hn. unfold explore_movie. intros Hrun.
  apply bind_Returns in Hrun as ([vs q] & H1 & Hrest).
  injection Hrest as <-. simpl.
  exact (relax_all_names _ _ _ _ (s_vertices st, pq st) (vs, q) Hn H1).
Qed.

Lemma explore_all_names working movies st st' :
  (∀ k v, s_vertices st !! k = Some v → name v = k) →
  for_each (explore_movie working) movies st = Returns st' →
  ∀ k v, s_vertices st' !! k = Some v → name v = k.
Proof.
  revert st. induction movies as [|m movies IH]; intros st Hn; simpl.
  - by intros [= <-].
  - intros Hrun. apply bind_Returns in Hrun as (st1 & H1 & Hrest).
    apply (IH st1); [|done]. by eapply explore_movie_names.
Qed.

Lemma search_loop_names fuel end_name st working st' working' :
  (∀ k v, s_vertices st !! k = Some v → name v = k) →
  search_loop fuel end_name st working = Returns (st', working') →
  ∀ k v, s_vertices st' !! k = Some v → name v = k.
Proof.
  revert st working. induction fuel as [|fuel IH]; intros st working Hn;
    [done|].
  cbn [search_loop]. destruct (pq st) as [|top rest] eqn:Hq.
  { by intros [= <- <-]. }
  destruct (s_vertices st !! top) as [w|] eqn:Hw; [|done].
  destruct (String.eqb (name w) end_name); [by intros [= <- <-]|].
  destruct (done w).
  { apply IH. exact Hn. }
  intros Hrun. apply bind_Returns in Hrun as (st3 & H3 & Hrest).
  refine (IH _ _ _ Hrest).
  refine (explore_all_names _ _ _ _ _ H3). cbn [s_vertices].
  intros k v. destruct (decide (k = top)) as [->|Hne].
  - rewrite lookup_insert_eq. intros [= <-]. simpl. by apply Hn.
  - rewrite lookup_insert_ne by done. apply Hn.
Qed.

Lemma findPath_named fuel g start_name end_name line g' :
  named g → findPath fuel g start_name end_name = Returns (line, g') →
  named g'.
Proof.
  intros Hn. unfold findPath.
  destruct ((reset <$> vertices g) !! start_name) as [w|] eqn:Hw; [|done].
  intros Hrun. apply bind_Returns in Hrun as ([st working] & Hloop & Hrest).
  apply bind_Returns in Hrest as (stack & _ & Hret).
  injection Hret as _ <-. unfold named. cbn [vertices].
  refine (search_loop_names _ _ _ _ _ _ _ Hloop). cbn [s_vertices].
  assert (∀ k v, (reset <$> vertices g) !! k = Some v → name v = k) as Hr.
  { intros k v. rewrite lookup_fmap.
    destruct (vertices g !! k) as [v0|] eqn:Hv0; [|done].
    intros [= <-]. simpl. by apply Hn. }
  intros k v. destruct (decide (k = start_name)) as [->|Hne].
  - rewrite lookup_insert_eq. intros [= <-]. simpl. by apply Hr.
  - rewrite lookup_insert_ne by done. apply Hr.
Qed.

(** C10.  Whatever earlier queries have left in the vertices, when the
    start and the end are the same actor of the graph [findPath] stops at
    the first pop, before any relaxation: one iteration of each loop is
    enough, the line is the single node [(name)], the two maps of the graph
    are as they were and [vertices] holds the same actors, each in its
    reset state (the start at distance 0).  The graph of a run has every
    vertex under its own name: [loadFromFile] builds it so and every call
    of [findPath] keeps it so. *)
Theorem findPath_same_actor g n fuel :
  named g →
  is_Some (vertices g !! n) →
  (0 < fuel)%nat →
  ∃ g', findPath fuel g n n = Returns ("(" +:+ n +:+ ")", g')
        ∧ findPath 1 g n n = Returns ("(" +:+ n +:+ ")", g')
        ∧ actor_map g' = actor_map g
        ∧ movie_map g' = movie_map g
        ∧ vertices g' = <[n := mkVertex 0 false "" "" n]> (reset <$> vertices g)
        ∧ dom (vertices g') = dom (vertices g)
        ∧ named g'.
Proof.
  intros Hnamed [v Hv] Hf.
  assert (name v = n) as Hn by (by apply Hnamed).
  assert (∀ f, (0 < f)%nat →
    findPath f g n n
    = Returns ("(" +:+ n +:+ ")",
               mkGraph (actor_map g) (movie_map g)
                 (<[n := mkVertex 0 false "" "" n]> (reset <$> vertices g))))
    as Hrun.
  { intros [|f] ?; [lia|]. unfold findPath.
    rewrite lookup_fmap, Hv. simpl. rewrite Hn.
    unfold push. simpl. rewrite lookup_insert_eq. simpl.
    rewrite String.eqb_refl. simpl. rewrite lookup_insert_eq. simpl.
    done. }
  eexists. split; [by apply Hrun|]. split; [apply Hrun; lia|].
  simpl. split; [done|]. split; [done|]. split; [done|]. split.
  - rewrite dom_insert_L, dom_fmap_L.
    apply subseteq_union_1_L, singleton_subseteq_l, elem_of_dom. eauto.
  - by apply (findPath_named 1 g n n _ _ Hnamed (Hrun 1%nat ltac:(lia))).
Qed.

(** The same-actor query for A on the sample graph as the query for the
    pair (S, A) leaves it, where the vertex of A holds the predecessor S. *)
Lemma findPath_same_actor_witness :
  ∃ g',
    findPath 3
      (Samples.queried 3 (Samples.loaded Samples.apart false) "S" "A")
      "A" "A"
    = Returns ("(A)", g')
    ∧ findPath 1
        (Samples.queried 3 (Samples.loaded Samples.apart false) "S" "A")
        "A" "A"
      = Returns ("(A)", g')
    ∧ actor_map g'
      = actor_map
          (Samples.queried 3 (Samples.loaded Samples.apart false) "S" "A")
    ∧ movie_map g'
      = movie_map
          (Samples.queried 3 (Samples.loaded Samples.apart false) "S" "A")
    ∧ vertices g'
      = <["A" := mkVertex 0 false "" "" "A"]>
          (reset <$> vertices
             (Samples.queried 3 (Samples.loaded Samples.apart false)
                "S" "A"))
    ∧ dom (vertices g')
      = dom (vertices
               (Samples.queried 3 (Samples.loaded Samples.apart false)
                  "S" "A"))
    ∧ named g'.
Proof.
  apply (findPath_same_actor
           (Samples.queried 3 (Samples.loaded Samples.apart false) "S" "A")
           "A" 3).
  - apply (findPath_named 3 (Samples.loaded Samples.apart false) "S" "A"
             "(S)--[M1#@2000]-->(A)").
    + apply (loadFromFile_named Samples.apart false true).
      vm_compute. reflexivity.
    + vm_compute. reflexivity.
  - vm_compute. eexists. reflexivity.
  - lia.
Defined.

Lemma written_Some o line :
  written o = Some line → ∃ g', o = Returns (line, g').
Proof.
  destruct o as [[l g']| | |]; simpl; intros; simplify_eq. eauto.
Qed.

(** C1.  On the sample [detour], weighted, the path written from S to A is
    the direct hop through M1, of weight 10, although S, B, A through M2
    and M3 weighs 2.  The relaxation of B through M2 lowers the distance of
    a vertex that is already queued; the copy pushed next stops below the
    queued one, the front of the queue is still A at distance 10, and the
    loop breaks on it. *)
Theorem findPath_misses_shortest_path :
  loadFromFile empty Samples.detour true
  = Returns (true, Samples.loaded Samples.detour true)
  ∧ (∃ g', findPath 2 (Samples.loaded Samples.detour true) "S" "A"
           = Returns (line_of "S" [("M1#@2009", "A")], g'))
  ∧ connects (Samples.loaded Samples.detour true)
      "S" [("M1#@2009", "A")] "A" = true
  ∧ total_weight (Samples.loaded Samples.detour true)
      [("M1#@2009", "A")] = 10
  ∧ connects (Samples.loaded Samples.detour true)
      "S" [("M2#@2018", "B"); ("M3#@2018", "A")] "A" = true
  ∧ total_weight (Samples.loaded Samples.detour true)
      [("M2#@2018", "B"); ("M3#@2018", "A")] = 2.
Proof.
  split; [vm_compute; reflexivity|].
  split; [apply written_Some; vm_compute; reflexivity|].
  repeat split; vm_compute; reflexivity.
Qed.

(** No actor other than S and A can be reached from S in [apart]. *)
Lemma apart_unreachable hops from :
  from = "S" ∨ from = "A" →
  connects (Samples.loaded Samples.apart false) from hops "E" = false.
Proof.
  set (g := Samples.loaded Samples.apart false).
  assert (actor_map g !! "S" = Some ["M1#@2000"]) as HS
    by (vm_compute; reflexivity).
  assert (actor_map g !! "A" = Some ["M1#@2000"]) as HA
    by (vm_compute; reflexivity).
  assert (movie_map g !! "M1#@2000" = Some (1, ["S"; "A"])) as HM
    by (vm_compute; reflexivity).
  clearbody g. revert from. induction hops as [|[movie actor] rest IH]; intros from Hfrom.
  - simpl. apply bool_decide_eq_false. destruct Hfrom; subst; discriminate.
  - simpl. destruct (plays_in g from movie) eqn:H1; [|done].
    destruct (plays_in g actor movie) eqn:H2; [|done]. simpl.
    apply IH. unfold plays_in in H1, H2.
    apply andb_true_iff in H1 as [H1 _]. apply andb_true_iff in H2 as [_ H2].
    apply bool_decide_eq_true in H1. apply bool_decide_eq_true in H2.
    assert (movie = "M1#@2000") as ->.
    { destruct Hfrom; subst; rewrite ?HS, ?HA in H1; simpl in H1;
        by apply list_elem_of_singleton in H1. }
    rewrite HM in H2. simpl in H2.
    apply elem_of_cons in H2 as [->| H2]; [by left|].
    apply list_elem_of_singleton in H2 as ->. by right.
Qed.

(** C3.  On the sample [apart], E is in the graph and unreachable from S:
    no path connects them and its distance is still [INT_MAX] when the queue
    empties.  The line written for the pair (S, E) is nevertheless the
    chain from S to A, the vertex popped last. *)
Theorem findPath_unreachable_writes_other_chain :
  loadFromFile empty Samples.apart false
  = Returns (true, Samples.loaded Samples.apart false)
  ∧ is_Some (vertices (Samples.loaded Samples.apart false) !! "E")
  ∧ (∀ hops, connects (Samples.loaded Samples.apart false) "S" hops "E"
             = false)
  ∧ ∃ g', findPath 3 (Samples.loaded Samples.apart false) "S" "E"
          = Returns ("(S)--[M1#@2000]-->(A)", g')
          ∧ dist <$> vertices g' !! "E" = Some INT_MAX.
Proof.
  split; [vm_compute; reflexivity|].
  split; [vm_compute; eexists; reflexivity|].
  split; [intros hops; apply apart_unreachable; by left|].
  set (r := findPath 3 (Samples.loaded Samples.apart false) "S" "E").
  assert (written r = Some "(S)--[M1#@2000]-->(A)") as Hline
    by (vm_compute; reflexivity).
  assert (match r with
          | Returns (_, g) => dist <$> vertices g !! "E"
          | _ => None
          end = Some INT_MAX) as Hdist by (vm_compute; reflexivity).
  clearbody r. destruct r as [[line g']| | |]; simplify_eq/=. eauto.
Qed.

(** *** Records with a wrong number of fields *)

#[local] Arguments load_line : simpl never.
#[local] Arguments Projection.read_line : simpl never.

Lemma load_line_malformed w st s :
  length (tokenize s) ≠ 3%nat → load_line w st s = Returns (inl st).
Proof.
  intros Hlen. unfold load_line. destruct st as [am mm].
  destruct (tokenize s) as [|r0 [|r1 [|r2 [|r3 rest]]]]; simpl in *;
    done.
Qed.

Lemma load_line_record w am mm s r0 r1 r2 y :
  tokenize s = [r0; r1; r2] → stoi r2 = Returns y →
  load_line w (am, mm) s
  = Returns (inr
      (<[r0 := default [] (am !! r0) ++ [r1 +:+ "#@" +:+ r2]]> am,
       <[r1 +:+ "#@" +:+ r2 :=
           (default (if w then wrap (wrap (2018 - y) + 1) else 1)
              (fst <$> mm !! (r1 +:+ "#@" +:+ r2)),
            default [] (snd <$> mm !! (r1 +:+ "#@" +:+ r2)) ++ [r0])]> mm)).
Proof.
  intros Htok Hy. unfold load_line. rewrite Htok, Hy. simpl.
  unfold subscript.
  destruct (am !! r0) as [movies|] eqn:Ham;
    destruct (mm !! (r1 +:+ "#@" +:+ r2)) as [[wt cast]|] eqn:Hmm; simpl;
    rewrite ?Ham, ?Hmm, ?lookup_insert_eq; simpl;
    rewrite ?insert_insert_eq; reflexivity.
Qed.

Lemma load_line_inv w am mm s am' mm' :
  load_line w (am, mm) s = Returns (inr (am', mm')) →
  ∃ r0 r1 r2, tokenize s = [r0; r1; r2]
    ∧ dom am' = {[r0]} ∪ dom am
    ∧ dom mm' = {[r1 +:+ "#@" +:+ r2]} ∪ dom mm.
Proof.
  intros Hl.
  destruct (tokenize s) as [|r0 [|r1 [|r2 [|r3 rest]]]] eqn:Htok;
    try (unfold load_line in Hl; rewrite Htok in Hl; discriminate).
  destruct (stoi r2) as [y| | |] eqn:Hy;
    try (unfold load_line in Hl; rewrite Htok, Hy in Hl; discriminate).
  rewrite (load_line_record _ _ _ _ _ _ _ _ Htok Hy) in Hl.
  injection Hl as <- <-. exists r0, r1, r2.
  by rewrite !dom_insert_L.
Qed.

Lemma load_lines_app w pre rest st :
  load_lines w (pre ++ rest) st
  = r ← load_lines w pre st;
    match r with
    | inl st' => Returns (inl st')
    | inr st' => load_lines w rest st'
    end.
Proof.
  revert st. induction pre as [|s pre IH]; intros st; simpl.
  - done.
  - destruct (load_line w st s) as [[st'|st']| | |]; simpl; auto.
Qed.

Lemma load_lines_keeps w pre am0 mm0 am mm :
  load_lines w pre (am0, mm0) = Returns (inr (am, mm)) →
  dom am0 ⊆ dom am ∧ dom mm0 ⊆ dom mm
  ∧ ∀ line r0 r1 r2, line ∈ pre → tokenize line = [r0; r1; r2] →
      r0 ∈ dom am ∧ r1 +:+ "#@" +:+ r2 ∈ dom mm.
Proof.
  revert am0 mm0. induction pre as [|s pre IH]; intros am0 mm0 Hl.
  - simpl in Hl. injection Hl as <- <-.
    split; [done|]. split; [done|]. intros ???? Hin. by inv Hin.
  - simpl in Hl.
    destruct (load_line w (am0, mm0) s) as [[st'|[am1 mm1]]| | |] eqn:Hs;
      simpl in Hl; try discriminate.
    apply load_line_inv in Hs as (q0 & q1 & q2 & Htok & Ha & Hm).
    apply IH in Hl as (Hsa & Hsm & Hin).
    split; [set_solver|]. split; [set_solver|].
    intros line r0 r1 r2 Hline Hrec.
    apply elem_of_cons in Hline as [->|Hline]; [|by eapply Hin].
    rewrite Htok in Hrec. injection Hrec as <- <- <-. set_solver.
Qed.

Lemma for_each_app {A S} (body : S → A → outcome S) l1 l2 s :
  for_each body (l1 ++ l2) s = for_each body l1 s ≫= for_each body l2.
Proof.
  revert s. induction l1 as [|x l1 IH]; intros s; simpl; [done|].
  destruct (body s x); simpl; auto.
Qed.

Lemma read_line_short tb s :
  (length (tokenize s) < 3)%nat → Projection.read_line tb s = Undefined.
Proof.
  intros Hlen. unfold Projection.read_line.
  destruct (tokenize s) as [|r0 [|r1 [|r2 rest]]]; simpl in *;
    done || lia.
Qed.

Lemma read_line_first_three tb s s' :
  (3 ≤ length (tokenize s))%nat →
  take 3 (tokenize s) = take 3 (tokenize s') →
  Projection.read_line tb s = Projection.read_line tb s'.
Proof.
  intros Hlen Heq. unfold Projection.read_line.
  destruct (tokenize s) as [|r0 [|r1 [|r2 rest]]]; simpl in *; try lia.
  destruct (tokenize s') as [|q0 [|q1 [|q2 rest']]]; simpl in *;
    try discriminate.
  by injection Heq as <- <- <-.
Qed.

(** C4, as the code has it.  At the first record whose field count is not
    three [loadFromFile] returns [false] and [main] exits with -1 without
    output; no [Vertex] has been created, but the entries that the records
    before it put in [actor_map] and [movie_map] are still there.
    [BuildStructures] of the two other programs does not count the fields:
    it reads a record of fewer than three fields out of bounds, and of a
    longer one it uses the first three fields. *)
Theorem malformed_record_not_atomic w pre bad post am mm tb :
  load_lines w pre (∅, ∅) = Returns (inr (am, mm)) →
  Projection.read_tsv pre = Returns tb →
  length (tokenize bad) ≠ 3%nat →
  loadFromFile empty (pre ++ bad :: post) w
  = Returns (false, mkGraph am mm ∅)
  ∧ (∀ fuel pairs,
       main fuel (pre ++ bad :: post) w pairs = Returns (-1, []))
  ∧ (∀ line r0 r1 r2, line ∈ pre → tokenize line = [r0; r1; r2] →
       is_Some (am !! r0) ∧ is_Some (mm !! (r1 +:+ "#@" +:+ r2)))
  ∧ ((length (tokenize bad) < 3)%nat →
       (∀ targets,
          Predictor.BuildStructures (pre ++ bad :: post) targets = Undefined)
       ∧ Popularity.BuildStructures (pre ++ bad :: post) = Undefined)
  ∧ ((3 < length (tokenize bad))%nat →
       ∀ line, take 3 (tokenize bad) = tokenize line →
         (∀ targets,
            Predictor.BuildStructures (pre ++ bad :: post) targets
            = Predictor.BuildStructures (pre ++ line :: post) targets)
         ∧ Popularity.BuildStructures (pre ++ bad :: post)
           = Popularity.BuildStructures (pre ++ line :: post)).
Proof.
  intros Hpre Htsv Hbad.
  assert (loadFromFile empty (pre ++ bad :: post) w
          = Returns (false, mkGraph am mm ∅)) as Hload.
  { unfold loadFromFile. rewrite load_lines_app. simpl. rewrite Hpre. simpl.
    by rewrite load_line_malformed. }
  split; [done|]. split.
  { intros fuel pairs. unfold main. by rewrite Hload. }
  split.
  { intros line r0 r1 r2 Hin Htok.
    destruct (load_lines_keeps _ _ _ _ _ _ Hpre) as (_ & _ & Hk).
    destruct (Hk line r0 r1 r2 Hin Htok) as [Ha Hm].
    by rewrite <- !elem_of_dom. }
  split.
  - intros Hshort.
    assert (Projection.read_tsv (pre ++ bad :: post) = Undefined) as Hr.
    { unfold Projection.read_tsv in *. rewrite for_each_app, Htsv. simpl.
      by rewrite read_line_short. }
    split; [intros targets; unfold Predictor.BuildStructures
           |unfold Popularity.BuildStructures]; by rewrite Hr.
  - intros Hlong line Hline.
    assert (Projection.read_tsv (pre ++ bad :: post)
            = Projection.read_tsv (pre ++ line :: post)) as Hr.
    { unfold Projection.read_tsv in *. rewrite !for_each_app, Htsv. simpl.
      rewrite (read_line_first_three tb bad line); [done|lia|].
      rewrite <- Hline. by rewrite take_take. }
    split; [intros targets; unfold Predictor.BuildStructures
           |unfold Popularity.BuildStructures]; by rewrite Hr.
Qed.

(** The theorem at the sample [truncated]: one good record, then a record
    of one field. *)
Lemma malformed_record_witness :
  loadFromFile empty Samples.truncated true
  = Returns (false,
             mkGraph {["S" := ["M1#@2000"]]} {["M1#@2000" := (19, ["S"])]} ∅)
  ∧ Popularity.BuildStructures Samples.truncated = Undefined.
Proof.
  destruct (malformed_record_not_atomic true [Samples.row "S" "M1" "2000"]
              "S" [] {["S" := ["M1#@2000"]]} {["M1#@2000" := (19, ["S"])]}
              (Projection.mkTables {["S" := 0%nat]} ["S"]
                 {["M12000" := ["S"]]}))
    as (Hload & _ & _ & Hshort & _).
  - vm_compute. reflexivity.
  - vm_compute. reflexivity.
  - vm_compute. lia.
  - split; [exact Hload|]. apply Hshort. vm_compute. lia.
Defined.

(** C4 as stated fails on [truncated] and on [overlong]: after the
    malformed record of [truncated] the graph still holds the actor and the
    movie of the record before it, the predictor's [BuildStructures]
    signals nothing on it, and on [overlong] it builds its tables as if
    the record were well formed. *)
Lemma malformed_record_leaves_entries :
  (∃ g, loadFromFile empty Samples.truncated true = Returns (false, g)
        ∧ actor_map g !! "S" = Some ["M1#@2000"]
        ∧ movie_map g !! "M1#@2000" = Some (19, ["S"]))
  ∧ Predictor.BuildStructures Samples.truncated [] = Undefined
  ∧ Predictor.BuildStructures Samples.overlong []
    = Returns (Predictor.mkGlobals {["A" := 0%nat; "B" := 1%nat]} ["A"; "B"]
                 [] [[0; 1]; [1; 0]]).
Proof.
  split.
  - exists (Samples.loaded Samples.truncated true).
    repeat split; vm_compute; reflexivity.
  - split; vm_compute; reflexivity.
Qed.

(** *** Queries that name an actor the graph does not have *)

Lemma for_each_no_throw {A S} (body : S → A → outcome S) l s what :
  (∀ s x, body s x ≠ Throws what) → for_each body l s ≠ Throws what.
Proof.
  intros Hbody. revert s. induction l as [|x l IH]; intros s; simpl.
  - discriminate.
  - specialize (Hbody s x). destruct (body s x); simpl; auto; discriminate.
Qed.

Lemma relax_no_throw working movie weight st adj what :
  relax working movie weight st adj ≠ Throws what.
Proof.
  unfold relax. destruct st as [vs q].
  repeat case_match; discriminate.
Qed.

Lemma explore_movie_no_throw working st movie what :
  explore_movie working st movie ≠ Throws what.
Proof.
  unfold explore_movie.
  pose proof (for_each_no_throw
    (relax working movie (subscript (0, []) (s_movie_map st) movie).1.1)
    (subscript (0, [])
       (subscript (0, []) (s_movie_map st) movie).2 movie).1.2
    (s_vertices st, pq st) what
    (λ s x, relax_no_throw working movie _ s x what)) as Hno.
  destruct (for_each _ _ _) as [[vs q]| | |]; simpl; congruence.
Qed.

Lemma search_loop_no_throw fuel end_name st working what :
  search_loop fuel end_name st working ≠ Throws what.
Proof.
  revert st working. induction fuel as [|fuel IH]; intros st working;
    simpl; [discriminate|].
  destruct (pq st) as [|top q]; [discriminate|].
  destruct (s_vertices st !! top) as [w|]; [|discriminate].
  destruct (String.eqb (name w) end_name); [discriminate|].
  destruct (done w); [apply IH|].
  match goal with
  | |- for_each ?b ?l ?s ≫= _ ≠ _ =>
      pose proof (for_each_no_throw b l s what
                    (λ s0 x0, explore_movie_no_throw top s0 x0 what)) as Hno;
      destruct (for_each b l s); simpl; [apply IH|congruence..]
  end.
Qed.

Lemma unwind_no_throw fuel vs working stack what :
  unwind fuel vs working stack ≠ Throws what.
Proof.
  revert working stack. induction fuel as [|fuel IH]; intros working stack;
    simpl; [discriminate|].
  destruct (vs !! working) as [w|]; [|discriminate].
  destruct (String.eqb (prev_actor w) ""); [discriminate|apply IH].
Qed.

Lemma findPath_no_throw fuel g start_name end_name what :
  findPath fuel g start_name end_name ≠ Throws what.
Proof.
  unfold findPath. destruct (_ !! start_name) as [w|]; [|discriminate].
  match goal with
  | |- search_loop ?f ?e ?s ?w ≫= _ ≠ _ =>
      pose proof (search_loop_no_throw f e s w what) as Hno;
      destruct (search_loop f e s w) as [[st working]| | |]; simpl;
      try congruence
  end.
  pose proof (unwind_no_throw fuel (s_vertices st) working [] what) as Hno'.
  destruct (unwind _ _ _ _); simpl; congruence.
Qed.

Lemma findPath_unknown_start fuel g start_name end_name :
  vertices g !! start_name = None →
  findPath fuel g start_name end_name = Undefined.
Proof.
  intros Hnone. unfold findPath. by rewrite lookup_fmap, Hnone.
Qed.

(** *** The loop bound *)

Lemma search_loop_more_fuel fuel fuel' end_name st working r :
  search_loop fuel end_name st working = Returns r → (fuel ≤ fuel')%nat →
  search_loop fuel' end_name st working = Returns r.
Proof.
  revert fuel' st working.
  induction fuel as [|fuel IH]; intros fuel' st working Hrun Hle;
    [discriminate|].
  destruct fuel' as [|fuel']; [lia|]. cbn [search_loop] in *.
  destruct (pq st) as [|top q]; [done|].
  destruct (s_vertices st !! top) as [w|]; [|done].
  destruct (String.eqb (name w) end_name); [done|].
  destruct (done w); [apply IH; [done|lia]|].
  destruct (for_each _ _ _) as [st3| | |]; try discriminate.
  simpl in *. apply IH; [done|lia].
Qed.

Lemma unwind_more_fuel fuel fuel' vs working stack r :
  unwind fuel vs working stack = Returns r → (fuel ≤ fuel')%nat →
  unwind fuel' vs working stack = Returns r.
Proof.
  revert fuel' working stack.
  induction fuel as [|fuel IH]; intros fuel' working stack Hrun Hle;
    [discriminate|].
  destruct fuel' as [|fuel']; [lia|]. cbn [unwind] in *.
  destruct (vs !! working) as [w|]; [|done].
  destruct (String.eqb (prev_actor w) ""); [done|].
  apply IH; [done|lia].
Qed.

(** A larger bound on the iterations does not change what [findPath]
    returns. *)
Lemma findPath_more_fuel fuel fuel' g start_name end_name r :
  findPath fuel g start_name end_name = Returns r → (fuel ≤ fuel')%nat →
  findPath fuel' g start_name end_name = Returns r.
Proof.
  unfold findPath. intros Hrun Hle.
  destruct (_ !! start_name) as [w|]; [|done].
  destruct (search_loop fuel _ _ _) as [[st working]| | |] eqn:Hs;
    try discriminate.
  rewrite (search_loop_more_fuel _ _ _ _ _ _ Hs Hle). simpl in *.
  destruct (unwind fuel _ _ _) as [stack| | |] eqn:Hu; try discriminate.
  by rewrite (unwind_more_fuel _ _ _ _ _ _ Hu Hle).
Qed.

End PathfinderFacts.

(** ** The projected graph *)

Module ProjectionFacts.
Import Cxx Projection GraphSpec.

#[local] Arguments read_line : simpl never.

(** *** The tables after the reading loop *)

Lemma read_line_record tb s r0 r1 r2 rest :
  tokenize s = r0 :: r1 :: r2 :: rest →
  read_line tb s
  = Returns
      (mkTables
         (match name_to_int tb !! r0 with
          | None => <[r0 := length (int_to_name tb)]> (name_to_int tb)
          | Some _ => name_to_int tb
          end)
         (match name_to_int tb !! r0 with
          | None => int_to_name tb ++ [r0]
          | Some _ => int_to_name tb
          end)
         (<[r1 +:+ r2 := default [] (movie_to_actor tb !! (r1 +:+ r2)) ++ [r0]]>
            (movie_to_actor tb))).
Proof.
  intros Htok. unfold read_line, subscript. rewrite Htok.
  destruct (name_to_int tb !! r0);
    destruct (movie_to_actor tb !! (r1 +:+ r2)) as [cast|] eqn:Hm; simpl;
    rewrite ?Hm, ?lookup_insert_eq; simpl; rewrite ?insert_insert_eq;
    reflexivity.
Qed.

Lemma read_line_inv tb s tb' :
  read_line tb s = Returns tb' →
  ∃ r0 r1 r2 rest, tokenize s = r0 :: r1 :: r2 :: rest.
Proof.
  unfold read_line.
  destruct (tokenize s) as [|r0 [|r1 [|r2 rest]]]; try discriminate. eauto.
Qed.

Lemma registry_no_tables : registry no_tables.
Proof.
  split.
  - intros a i. simpl. rewrite lookup_empty, lookup_nil. naive_solver.
  - intros m cast a. simpl. rewrite lookup_empty. discriminate.
Qed.

Lemma registry_read_line tb s tb' :
  registry tb → read_line tb s = Returns tb' → registry tb'.
Proof.
  intros [Hinv Hcast] Hr.
  destruct (read_line_inv _ _ _ Hr) as (r0 & r1 & r2 & rest & Htok).
  rewrite (read_line_record _ _ _ _ _ _ Htok) in Hr. injection Hr as <-.
  assert (∀ a, is_Some (name_to_int tb !! a) →
            is_Some (match name_to_int tb !! r0 with
                     | None => <[r0 := length (int_to_name tb)]> (name_to_int tb)
                     | Some _ => name_to_int tb
                     end !! a)) as Hkeep.
  { intros a Ha. destruct (name_to_int tb !! r0); [done|].
    rewrite lookup_insert_is_Some. destruct (decide (r0 = a)); auto. }
  assert (is_Some (match name_to_int tb !! r0 with
                   | None => <[r0 := length (int_to_name tb)]> (name_to_int tb)
                   | Some _ => name_to_int tb
                   end !! r0)) as Hnew.
  { destruct (name_to_int tb !! r0) eqn:H0; [by rewrite H0|].
    rewrite lookup_insert_eq. eauto. }
  split; simpl.
  - destruct (name_to_int tb !! r0) as [i0|] eqn:H0; [apply Hinv|].
    intros a i. rewrite lookup_insert_Some, lookup_app_Some, Hinv.
    rewrite list_lookup_singleton_Some.
    split.
    + intros [[<- <-]|[Hne Hi]]; [right|by left].
      split; [lia|]. split; [lia|done].
    + intros [Hi|(Hlen & Hz & <-)].
      * right. split; [|done]. intros <-. apply Hinv in Hi. congruence.
      * left. split; [done|lia].
  - intros m cast a Hm Ha.
    apply lookup_insert_Some in Hm as [[<- <-]|[Hne Hm]].
    + apply elem_of_app in Ha as [Ha|Ha].
      * apply Hkeep.
        destruct (movie_to_actor tb !! (r1 +:+ r2)) as [c|] eqn:Hc;
          simpl in Ha; [by eapply Hcast|by apply elem_of_nil in Ha].
      * apply list_elem_of_singleton in Ha as ->. done.
    + apply Hkeep. by eapply Hcast.
Qed.

Lemma registry_for_each lines tb tb' :
  registry tb → for_each read_line lines tb = Returns tb' → registry tb'.
Proof.
  revert tb. induction lines as [|s lines IH]; intros tb Hreg Hr.
  - simpl in Hr. by injection Hr as <-.
  - simpl in Hr. destruct (read_line tb s) as [tb1| | |] eqn:H1; try done.
    simpl in Hr. eapply IH; [|done]. by eapply registry_read_line.
Qed.

Lemma registry_read_tsv lines tb :
  read_tsv lines = Returns tb → registry tb.
Proof. apply registry_for_each, registry_no_tables. Qed.

Lemma registry_id_lt tb a i :
  registry tb → name_to_int tb !! a = Some i →
  (i < length (int_to_name tb))%nat.
Proof. intros [Hinv _] Ha. apply Hinv in Ha. by eapply lookup_lt_Some. Qed.

Lemma registry_NoDup tb : registry tb → NoDup (int_to_name tb).
Proof.
  intros [Hinv _]. apply NoDup_alt. intros i j a Hi Hj.
  apply Hinv in Hi, Hj. congruence.
Qed.

Lemma registry_id_of_inj tb cast :
  registry tb → (∀ a, a ∈ cast → is_Some (name_to_int tb !! a)) →
  NoDup cast → NoDup (id_of (name_to_int tb) <$> cast).
Proof.
  intros [Hinv _] Hreg Hnd. apply NoDup_fmap_2_strong; [|done].
  intros a b Ha Hb Heq. unfold id_of in Heq.
  destruct (Hreg a Ha) as [i Hi]. destruct (Hreg b Hb) as [j Hj].
  rewrite Hi, Hj in Heq. simpl in Heq. subst j.
  apply Hinv in Hi, Hj. congruence.
Qed.

(** *** The matrix after the pairing loops *)

Lemma square_zeros n : square n (zeros n).
Proof.
  unfold zeros. split; [by rewrite length_replicate|].
  intros i Hi. rewrite lookup_total_replicate_2 by done.
  by rewrite length_replicate.
Qed.

Lemma entry_zeros n i j :
  (i < n)%nat → (j < n)%nat → entry (zeros n) i j = 0.
Proof.
  intros Hi Hj. unfold entry, zeros.
  by rewrite !lookup_total_replicate_2.
Qed.

Lemma square_set_edge n a b g : square n g → square n (set_edge a b g).
Proof.
  intros [Hlen Hrows]. unfold set_edge. split; [by rewrite length_insert|].
  intros i Hi. destruct (decide (i = a)) as [->|Hne].
  - rewrite list_lookup_total_insert_eq by lia.
    rewrite length_insert. by apply Hrows.
  - rewrite list_lookup_total_insert_ne by done. by apply Hrows.
Qed.

Lemma entry_set_edge n a b g i j :
  square n g →
  entry (set_edge a b g) i j
  = if decide (i = a ∧ j = b ∧ (a < n)%nat ∧ (b < n)%nat) then 1
    else entry g i j.
Proof.
  intros [Hlen Hrows]. unfold entry, set_edge.
  destruct (decide (a < n)%nat) as [Ha|Ha].
  - destruct (decide (i = a)) as [->|Hia].
    + rewrite list_lookup_total_insert_eq by lia.
      destruct (decide (b < n)%nat) as [Hb|Hb].
      * destruct (decide (j = b)) as [->|Hjb].
        -- rewrite list_lookup_total_insert_eq by (rewrite Hrows; lia).
           by rewrite decide_True.
        -- rewrite list_lookup_total_insert_ne by done.
           rewrite decide_False; [done|naive_solver].
      * rewrite list_insert_ge by (rewrite Hrows; lia).
        rewrite decide_False; [done|naive_solver].
    + rewrite list_lookup_total_insert_ne by done.
      rewrite decide_False; [done|naive_solver].
  - rewrite list_insert_ge by lia.
    rewrite decide_False; [done|naive_solver].
Qed.

Lemma projected_zeros n : projected n (zeros n).
Proof.
  split; [apply square_zeros|].
  split; intros i j Hi Hj; rewrite !entry_zeros; auto.
Qed.

Lemma projected_pair n a b g :
  projected n g → projected n (set_edge b a (set_edge a b g)).
Proof.
  intros (Hsq & Hsym & Hbin).
  assert (square n (set_edge a b g)) as Hsq1 by by apply square_set_edge.
  split; [by apply square_set_edge|].
  split; intros i j Hi Hj;
    rewrite !(entry_set_edge n b a) by done;
    rewrite !(entry_set_edge n a b) by done.
  - rewrite (Hsym i j) by done. repeat case_decide; naive_solver.
  - repeat case_decide; auto.
Qed.

Lemma projected_connect_one n n2i x rest g :
  projected n g → projected n (connect_one n2i x rest g).
Proof.
  unfold connect_one. revert g.
  induction rest as [|y rest IH]; intros g Hg; simpl; [done|].
  apply IH. by apply projected_pair.
Qed.

Lemma projected_connect_cast n n2i cast g :
  projected n g → projected n (connect_cast n2i cast g).
Proof.
  revert g. induction cast as [|x rest IH]; intros g Hg; simpl; [done|].
  apply IH. by apply projected_connect_one.
Qed.

Lemma projected_build_graph tb :
  projected (length (int_to_name tb)) (build_graph tb).
Proof.
  unfold build_graph.
  apply (map_fold_weak_ind
           (λ g (_ : gmap string (list string)),
              projected (length (int_to_name tb)) g)).
  - apply projected_zeros.
  - intros m cast mp g _ Hg. by apply projected_connect_cast.
Qed.

Lemma loop_free_pair n a b g :
  square n g → a ≠ b → loop_free n g →
  loop_free n (set_edge b a (set_edge a b g)).
Proof.
  intros Hsq Hab Hdiag i Hi.
  rewrite (entry_set_edge n b a) by (by apply square_set_edge).
  rewrite (entry_set_edge n a b) by done.
  repeat case_decide; try (by apply Hdiag); naive_solver.
Qed.

Lemma loop_free_connect_one n n2i x rest g :
  projected n g → id_of n2i x ∉ id_of n2i <$> rest → loop_free n g →
  loop_free n (connect_one n2i x rest g).
Proof.
  unfold connect_one. revert g.
  induction rest as [|y rest IH]; intros g Hg Hx Hdiag; simpl; [done|].
  rewrite fmap_cons, not_elem_of_cons in Hx. destruct Hx as [Hxy Hx].
  apply IH; [by apply projected_pair|done|].
  eapply loop_free_pair; [apply Hg|done..].
Qed.

Lemma loop_free_connect_cast n n2i cast g :
  projected n g → NoDup (id_of n2i <$> cast) → loop_free n g →
  loop_free n (connect_cast n2i cast g).
Proof.
  revert g. induction cast as [|x rest IH]; intros g Hg Hnd Hdiag; simpl;
    [done|].
  rewrite fmap_cons, NoDup_cons in Hnd. destruct Hnd as [Hx Hnd].
  apply IH; [by apply projected_connect_one|done|].
  by eapply loop_free_connect_one.
Qed.

Lemma loop_free_build_graph tb :
  registry tb →
  (∀ m cast, movie_to_actor tb !! m = Some cast → NoDup cast) →
  loop_free (length (int_to_name tb)) (build_graph tb).
Proof.
  intros Hreg Hnd. unfold build_graph.
  assert (∀ mp : gmap string (list string),
            mp ⊆ movie_to_actor tb →
            projected (length (int_to_name tb))
              (map_fold (λ _ cast g, connect_cast (name_to_int tb) cast g)
                 (zeros (length (int_to_name tb))) mp)
            ∧ loop_free (length (int_to_name tb))
                (map_fold (λ _ cast g, connect_cast (name_to_int tb) cast g)
                   (zeros (length (int_to_name tb))) mp)) as Hall.
  { intros mp.
    apply (map_fold_weak_ind
             (λ g (mp : gmap string (list string)),
                mp ⊆ movie_to_actor tb →
                projected (length (int_to_name tb)) g
                ∧ loop_free (length (int_to_name tb)) g)).
    - intros _. split; [apply projected_zeros|].
      intros i Hi. by apply entry_zeros.
    - intros m cast mp' g Hfresh IH Hsub.
      assert (movie_to_actor tb !! m = Some cast) as Hm.
      { eapply lookup_weaken; [|done]. apply lookup_insert_eq. }
      destruct IH as [Hp Hd].
      { etrans; [|done]. by apply insert_subseteq. }
      split; [by apply projected_connect_cast|].
      eapply loop_free_connect_cast; [done| |done].
      apply registry_id_of_inj; [done| |by eapply Hnd].
      intros a Ha. destruct Hreg as [_ Hcast]. by eapply Hcast. }
  by apply Hall.
Qed.

End ProjectionFacts.

(** ** predictorandrecommender *)

Module PredictorFacts.
Import Cxx Projection GraphSpec ProjectionFacts Predictor.

(** C9.  For the target A of the sample [scenario] two candidates qualify
    in neighbour mode, B and C; the line written is the two names each
    followed by a tab.  The tab is left out only after the fourth name. *)
Theorem FindInteractions_trailing_tab :
  main Samples.scenario ["A"]
  = Returns ([header; "B" +:+ String tab ("C" +:+ String tab "")],
             [header; ""])
  ∧ write_names 0 [(1, "B"); (1, "C"); (0, "D")]
    = "B" +:+ String tab ("C" +:+ String tab "")
  ∧ write_names 0 [(2, "B"); (2, "C"); (1, "D"); (1, "E"); (1, "F")]
    = "B" +:+ String tab ("C" +:+ String tab ("D" +:+ String tab "E")).
Proof. repeat split; vm_compute; reflexivity. Qed.

(** C8.  The records of the sample [glued] name the movies (X1, 999) and
    (X, 1999); both programs that project the graph file them under the one
    key X1999 and join their two actors.  In the pathfinder the records of
    [glued_titles], (T#@1, 2) and (T, 1#@2), share the key T#@1#@2 and a
    path is found through it. *)
Theorem movie_keys_collide :
  ("X1", "999") ≠ ("X", "1999")
  ∧ Predictor.BuildStructures Samples.glued []
    = Returns (mkGlobals {["A" := 0%nat; "B" := 1%nat]} ["A"; "B"] []
                 [[0; 1]; [1; 0]])
  ∧ Popularity.BuildStructures Samples.glued
    = Returns (Popularity.mkGlobals {["A" := 0%nat; "B" := 1%nat]}
                 ["A"; "B"] [[0; 1]; [1; 0]] [1; 1])
  ∧ ("T#@1", "2") ≠ ("T", "1#@2")
  ∧ ActorGraph.main 2 Samples.glued_titles false [Samples.pair "P" "Q"]
    = Returns (0, [ActorGraph.header; "(P)--[T#@1#@2]-->(Q)"]).
Proof.
  split; [discriminate|]. split; [vm_compute; reflexivity|].
  split; [vm_compute; reflexivity|]. split; [discriminate|].
  vm_compute. reflexivity.
Qed.

(** *** Movie keys *)

Lemma append_length a b :
  String.length (a +:+ b) = (String.length a + String.length b)%nat.
Proof. induction a as [|c a IH]; simpl; [done|]. by rewrite IH. Qed.

Lemma append_inj_same_length t1 t2 y1 y2 :
  String.length y1 = String.length y2 →
  t1 +:+ y1 = t2 +:+ y2 → t1 = t2 ∧ y1 = y2.
Proof.
  intros Hlen. revert t2.
  induction t1 as [|c t1 IH]; intros [|c2 t2] Heq; simpl in Heq.
  - done.
  - apply (f_equal String.length) in Heq.
    rewrite !append_length in Heq. simpl in Heq. lia.
  - apply (f_equal String.length) in Heq.
    rewrite !append_length in Heq. simpl in Heq. lia.
  - injection Heq as -> Heq. destruct (IH _ Heq) as [-> ->]. done.
Qed.

(** The keys of two movies whose year fields have the same width are equal
    only if the titles and the years are: in the projected graph for the
    plain concatenation, in the pathfinder for the one with the separator. *)
Lemma movie_key_distinct t1 t2 y1 y2 :
  String.length y1 = String.length y2 →
  (t1 +:+ y1 = t2 +:+ y2 → t1 = t2 ∧ y1 = y2)
  ∧ (t1 +:+ "#@" +:+ y1 = t2 +:+ "#@" +:+ y2 → t1 = t2 ∧ y1 = y2).
Proof.
  intros Hlen. split; [by apply append_inj_same_length|].
  intros Heq. apply append_inj_same_length in Heq as [-> Heq].
  - by simplify_eq/=.
  - by rewrite !append_length, Hlen.
Qed.

(** *** Targets that the registry does not have *)

Lemma interactions_of_known neighbor gr i2n (n2i : gmap string nat) actor u :
  n2i !! actor = Some u → (u < length gr)%nat →
  interactions_of neighbor gr i2n n2i actor
  = Returns (write_names 0 (ranked gr i2n u neighbor), n2i).
Proof.
  intros Hu Hlt. unfold interactions_of, subscript. rewrite Hu.
  by rewrite (proj2 (Nat.ltb_lt _ _) Hlt).
Qed.

Lemma interactions_of_unknown neighbor gr i2n (n2i : gmap string nat) actor :
  n2i !! actor = None →
  interactions_of neighbor gr i2n n2i actor
  = if (0 <? length gr)%nat
    then Returns (write_names 0 (ranked gr i2n 0 neighbor),
                  <[actor := 0%nat]> n2i)
    else Undefined.
Proof. intros Hu. unfold interactions_of, subscript. by rewrite Hu. Qed.

(** C5, as the code has it.  No query is checked against the registry.
    [findPath] with a start name that has no vertex writes through the null
    pointer that [vertices[start_name]] creates, before any output, and it
    never throws, whatever the two names.  [FindInteractions] reads the id
    0 that [name_to_int[actor]] creates for a missing target: on a graph
    with at least one actor it writes for it the line of the actor whose
    id is 0. *)
Theorem unknown_actor_not_checked fuel g start_name end_name
    neighbor gr i2n (n2i : gmap string nat) actor :
  ActorGraph.vertices g !! start_name = None →
  n2i !! actor = None →
  ActorGraph.findPath fuel g start_name end_name = Undefined
  ∧ (∀ s e what, ActorGraph.findPath fuel g s e ≠ Throws what)
  ∧ interactions_of neighbor gr i2n n2i actor
    = (if (0 <? length gr)%nat
       then Returns (write_names 0 (ranked gr i2n 0 neighbor),
                     <[actor := 0%nat]> n2i)
       else Undefined)
  ∧ (∀ first, n2i !! first = Some 0%nat → (0 < length gr)%nat →
       ∃ line,
         interactions_of neighbor gr i2n n2i actor
         = Returns (line, <[actor := 0%nat]> n2i)
         ∧ interactions_of neighbor gr i2n n2i first = Returns (line, n2i)).
Proof.
  intros Hstart Hactor.
  split; [by apply PathfinderFacts.findPath_unknown_start|].
  split; [intros; apply PathfinderFacts.findPath_no_throw|].
  split; [by apply interactions_of_unknown|].
  intros first Hfirst Hlen. eexists. split.
  - rewrite interactions_of_unknown by done.
    by rewrite (proj2 (Nat.ltb_lt _ _) Hlen).
  - by apply interactions_of_known.
Qed.

(** The theorem on the sample graphs, for the names X and Y that no record
    has. *)
Lemma unknown_actor_witness :
  ActorGraph.findPath 3 (Samples.loaded Samples.apart false) "X" "S"
  = Undefined
  ∧ interactions_of true [[0; 1]; [1; 0]] ["A"; "B"]
      {["A" := 0%nat; "B" := 1%nat]} "Y"
    = Returns (write_names 0 (ranked [[0; 1]; [1; 0]] ["A"; "B"] 0 true),
               <["Y" := 0%nat]> {["A" := 0%nat; "B" := 1%nat]}).
Proof.
  destruct (unknown_actor_not_checked 3
              (Samples.loaded Samples.apart false) "X" "S" true
              [[0; 1]; [1; 0]] ["A"; "B"]
              {["A" := 0%nat; "B" := 1%nat]} "Y")
    as (Hpath & _ & Hline & _).
  - vm_compute. reflexivity.
  - vm_compute. reflexivity.
  - split; [exact Hpath|exact Hline].
Defined.

(** C5 as stated fails on the samples: the pair (S, X), whose end X is in no
    record, gets a path line, and the target X gets the lines of A, the
    actor with id 0, in both output files. *)
Lemma unknown_actor_gets_output :
  ActorGraph.main 3 Samples.apart false [Samples.pair "S" "X"]
  = Returns (0, [ActorGraph.header; "(S)--[M1#@2000]-->(A)"])
  ∧ main Samples.scenario ["X"]
    = Returns ([header; "B" +:+ String tab ("C" +:+ String tab "")],
               [header; ""])
  ∧ main Samples.scenario ["A"] = main Samples.scenario ["X"].
Proof. repeat split; vm_compute; reflexivity. Qed.

(** *** Insertion sort *)

Section Sort.
Context {A : Type} (less : A → A → bool).
Let R (x y : A) : Prop := less y x = false.
Hypothesis less_asym : ∀ x y, less x y = true → less y x = false.
Hypothesis R_trans : ∀ x y z, R x y → R y z → R x z.

Lemma insert_Permutation x l : insert less x l ≡ₚ x :: l.
Proof.
  induction l as [|y l IH]; simpl; [done|].
  destruct (less x y); [done|]. rewrite IH. apply Permutation_swap.
Qed.

Lemma sort_Permutation l : sort less l ≡ₚ l.
Proof.
  induction l as [|x l IH]; simpl; [done|].
  rewrite insert_Permutation. by rewrite IH.
Qed.

Lemma insert_StronglySorted x l :
  StronglySorted R l → StronglySorted R (insert less x l).
Proof.
  induction 1 as [|y l Hl IH Hy]; simpl.
  - repeat constructor.
  - destruct (less x y) eqn:Hxy.
    + constructor; [by constructor|].
      assert (R x y) as Rxy by (by apply less_asym).
      constructor; [done|].
      eapply Forall_impl; [exact Hy|]. intros z Hz. by eapply R_trans.
    + constructor; [done|].
      rewrite insert_Permutation. by constructor.
Qed.

Lemma sort_StronglySorted l : StronglySorted R (sort less l).
Proof.
  induction l as [|x l IH]; simpl; [constructor|].
  by apply insert_StronglySorted.
Qed.
End Sort.

Lemma StronglySorted_filter_keep {A} (R : relation A) (P : A → Prop)
    `{∀ x, Decision (P x)} l :
  StronglySorted R l → StronglySorted R (filter P l).
Proof.
  induction 1 as [|x l Hl IH Hx]; [constructor|].
  rewrite filter_cons. destruct (decide (P x)); [|done].
  constructor; [done|].
  rewrite Forall_forall in Hx |- *. intros y Hy.
  apply Hx. by apply list_elem_of_filter in Hy as [_ ?].
Qed.

Lemma StronglySorted_strict {A B} (R R' : relation (A * B)) l :
  (∀ x y, R x y → x.2 ≠ y.2 → R' x y) →
  NoDup l.*2 → StronglySorted R l → StronglySorted R' l.
Proof.
  intros Hstrict Hnd. induction 1 as [|x l Hl IH Hx]; [constructor|].
  rewrite fmap_cons, NoDup_cons in Hnd. destruct Hnd as [Hxl Hnd].
  constructor; [by apply IH|].
  rewrite Forall_forall in Hx |- *. intros y Hy.
  apply Hstrict; [by apply Hx|]. intros Heq. apply Hxl. rewrite Heq.
  by apply list_elem_of_fmap_2.
Qed.

(** *** The order of [compare] *)

Lemma ltb_false_le a b : String.ltb b a = false ↔ String.le a b.
Proof.
  unfold String.le, String.ltb, String.leb.
  rewrite (String.compare_antisym a b).
  destruct (String.compare b a); simpl; split; intros; done.
Qed.

Lemma ltb_true_not_le a b : String.ltb a b = true ↔ ¬ String.le b a.
Proof.
  rewrite <- ltb_false_le. destruct (String.ltb a b); naive_solver.
Qed.

Lemma rank_le_alt x y :
  rank_le x y ↔ y.1 < x.1 ∨ (x.1 = y.1 ∧ String.le x.2 y.2).
Proof.
  unfold rank_le, compare.
  destruct (Z.eqb_spec y.1 x.1) as [Heq|Hne].
  - rewrite ltb_false_le. rewrite Heq. split; [by right|].
    intros [?|[_ ?]]; [lia|done].
  - rewrite Z.ltb_ge. split; [intros; left; lia|].
    intros [?|[? _]]; [lia|congruence].
Qed.

Lemma compare_asym x y : compare x y = true → compare y x = false.
Proof.
  intros Hxy. change (rank_le x y). apply rank_le_alt.
  unfold compare in Hxy.
  destruct (Z.eqb_spec x.1 y.1) as [Heq|Hne].
  - right. split; [done|]. apply ltb_true_not_le in Hxy.
    destruct (total String.le x.2 y.2); done.
  - left. lia.
Qed.

Lemma rank_le_trans x y z : rank_le x y → rank_le y z → rank_le x z.
Proof.
  rewrite !rank_le_alt. intros [Hxy|[Hxy Hs1]] [Hyz|[Hyz Hs2]].
  - left; lia.
  - left; lia.
  - left; lia.
  - right. split; [congruence|]. by etrans.
Qed.

Lemma rank_le_strict x y : rank_le x y → x.2 ≠ y.2 → ranks_before x y.
Proof.
  rewrite rank_le_alt. unfold ranks_before.
  intros [?|[Heq Hle]] Hne; [by left|right]. split; [done|].
  apply Is_true_true, ltb_true_not_le. intros Hle'.
  apply Hne. by apply (anti_symm String.le).
Qed.

(** *** The nested loops that fill a vector *)

Lemma accumulate_at (f : nat → Z) d l (mc : list Z) :
  foldl (λ mc i, <[d := mc !!! d + f i]> mc) mc l
  = if decide (l = []) then mc else <[d := mc !!! d + sum_over f l]> mc.
Proof.
  revert mc. induction l as [|i l IH]; intros mc; simpl; [done|].
  rewrite IH. destruct (decide (l = [])) as [->|Hne]; simpl.
  - by rewrite Z.add_0_r.
  - destruct (decide (d < length mc)%nat) as [Hd|Hd].
    + rewrite list_lookup_total_insert_eq by done.
      rewrite list_insert_insert_eq. by rewrite Z.add_assoc.
    + by rewrite !list_insert_ge by (rewrite ?length_insert; lia).
Qed.

Lemma accumulate_rows (f : nat → nat → Z) (cols ds : list nat) (mc : list Z) :
  cols ≠ [] → NoDup ds → (∀ d, d ∈ ds → (d < length mc)%nat) →
  let mc' := foldl (λ mc d,
                      foldl (λ mc i, <[d := mc !!! d + f d i]> mc) mc cols)
               mc ds in
  length mc' = length mc
  ∧ ∀ d, mc' !!! d
         = if decide (d ∈ ds) then mc !!! d + sum_over (f d) cols else mc !!! d.
Proof.
  intros Hcols. revert mc. induction ds as [|d0 ds IH]; intros mc Hnd Hlt.
  - cbn [foldl]. split; [done|]. intros d. rewrite decide_False; [done|].
    apply not_elem_of_nil.
  - cbn [foldl]. rewrite (accumulate_at (f d0)). rewrite decide_False by done.
    apply NoDup_cons in Hnd as [Hd0 Hnd].
    destruct (IH (<[d0 := mc !!! d0 + sum_over (f d0) cols]> mc) Hnd)
      as [Hlen Hval].
    { intros d Hd. rewrite length_insert. apply Hlt. by right. }
    split; [by rewrite Hlen, length_insert|].
    intros d. rewrite Hval.
    destruct (decide (d = d0)) as [->|Hne].
    + rewrite decide_False by done. rewrite decide_True by left.
      rewrite list_lookup_total_insert_eq; [done|]. apply Hlt. left.
    + rewrite list_lookup_total_insert_ne by done.
      destruct (decide (d ∈ ds)) as [Hin|Hin].
      * rewrite decide_True; [done|by right].
      * rewrite decide_False; [done|]. by apply not_elem_of_cons.
Qed.

Lemma sum_over_indicator {A} (f : A → Z) (P : A → Prop) `{∀ x, Decision (P x)} l :
  (∀ x, x ∈ l → f x = if decide (P x) then 1 else 0) →
  sum_over f l = Z.of_nat (length (filter P l)).
Proof.
  induction l as [|x l IH]; intros Hf; simpl; [done|].
  rewrite filter_cons, (Hf x) by left.
  rewrite IH by (intros; apply Hf; by right).
  destruct (decide (P x)); simpl; lia.
Qed.

Lemma mutual_counts_spec n g u v :
  projected n g → (u < n)%nat → (v < n)%nat →
  length (mutual_counts g (g !!! u)) = n
  ∧ mutual_counts g (g !!! u) !!! v = mutual g u v.
Proof.
  intros (Hsq & Hsym & Hbin) Hu Hv. destruct Hsq as [Hlen Hrows].
  unfold mutual_counts. rewrite (Hrows u Hu).
  destruct (accumulate_rows
              (λ d i, Z.land ((g !!! d) !!! i) ((g !!! u) !!! i))
              (seq 0 n) (seq 0 n) (replicate n 0)) as [Hl Hval].
  { destruct n; [lia|done]. }
  { apply NoDup_seq. }
  { intros d Hd. rewrite length_replicate. apply elem_of_seq in Hd. lia. }
  split; [by rewrite Hl, length_replicate|].
  rewrite Hval. rewrite decide_True by (apply elem_of_seq; lia).
  rewrite lookup_total_replicate_2 by done. rewrite Z.add_0_l.
  unfold mutual. rewrite Hlen.
  apply sum_over_indicator. intros k Hk. apply elem_of_seq in Hk.
  fold (entry g v k). fold (entry g u k).
  destruct (Hbin v k) as [-> | ->]; [done|lia|..];
    destruct (Hbin u k) as [-> | ->]; try done; try lia;
    by case_decide; naive_solver.
Qed.

Lemma mutual_nonneg g u v : 0 ≤ mutual g u v.
Proof. unfold mutual. lia. Qed.

(** *** The candidates of one target *)

Lemma candidates_spec n g i2n u neighbor :
  projected n g → (u < n)%nat →
  candidates g i2n u neighbor
  = omap (candidate_of g i2n u neighbor) (seq 0 n).
Proof.
  intros Hp Hu. unfold candidates.
  assert (length (g !!! u) = n) as -> by (by apply Hp).
  apply list_omap_ext. apply Forall2_same_length_lookup. split; [done|].
  intros i v v' Hi Hi'. rewrite Hi in Hi'. injection Hi' as <-.
  apply lookup_seq in Hi as [-> Hi]. simpl.
  unfold candidate_of. fold (entry g u i).
  destruct (entry g u i =? _); [|done].
  f_equal. f_equal.
  destruct (mutual_counts_spec n g u i Hp Hu Hi) as [Hlen Hval].
  destruct (decide (i = u)) as [->|Hne].
  - by rewrite list_lookup_total_insert_eq by lia.
  - by rewrite list_lookup_total_insert_ne.
Qed.

Lemma candidates_nonneg n g i2n u neighbor p :
  projected n g → (u < n)%nat →
  p ∈ candidates g i2n u neighbor → 0 ≤ p.1.
Proof.
  intros Hp Hu. rewrite (candidates_spec n) by done.
  rewrite list_elem_of_omap. intros (v & _ & Hv).
  unfold candidate_of in Hv. destruct (_ =? _); [|done].
  injection Hv as <-. simpl. case_decide; [lia|apply mutual_nonneg].
Qed.

Lemma candidates_positive n g i2n u neighbor :
  projected n g → (u < n)%nat →
  filter (λ p, p.1 ≠ 0) (candidates g i2n u neighbor)
  = qualifying g i2n u neighbor.
Proof.
  intros Hp Hu. rewrite (candidates_spec n) by done.
  unfold qualifying. destruct Hp as ([Hlen _] & _ & _). rewrite Hlen.
  induction (seq 0 n) as [|v l IH]; [done|].
  simpl. rewrite filter_cons.
  unfold candidate_of at 1.
  destruct (Z.eqb_spec (entry g u v) (if neighbor then 1 else 0)) as [He|He].
  - rewrite filter_cons. simpl.
    destruct (decide (v = u)) as [->|Hne].
    + rewrite decide_False by naive_solver.
      rewrite decide_False by (unfold qualifies; naive_solver).
      exact IH.
    + pose proof (mutual_nonneg g u v).
      destruct (decide (mutual g u v ≠ 0)) as [Hm|Hm].
      * rewrite decide_True by (unfold qualifies; split_and!; [done..|lia]).
        rewrite fmap_cons. f_equal. exact IH.
      * rewrite decide_False by (unfold qualifies; lia).
        exact IH.
  - rewrite decide_False by (unfold qualifies; naive_solver). exact IH.
Qed.

(** *** The loop that writes a line *)

Lemma filter_none {A} (P : A → Prop) `{∀ x, Decision (P x)} l :
  (∀ x, x ∈ l → ¬ P x) → filter P l = [].
Proof.
  induction l as [|x l IH]; intros Hno; [done|].
  rewrite filter_cons, decide_False by (apply Hno; left).
  apply IH. intros y Hy. apply Hno. by right.
Qed.

Lemma write_names_sorted i l :
  StronglySorted rank_le l → (∀ p, p ∈ l → 0 ≤ p.1) →
  write_names i l
  = tab_separated i (take (predict_max - i) (filter (λ p, p.1 ≠ 0) l)).*2.
Proof.
  intros Hs. revert i. induction Hs as [|p l Hl IH Hp]; intros i Hpos.
  - rewrite filter_nil, take_nil. done.
  - cbn [write_names]. rewrite filter_cons.
    destruct (Z.eqb_spec p.1 0) as [Hz|Hz]; cbn [orb].
    + rewrite decide_False by naive_solver.
      rewrite filter_none; [by rewrite take_nil|].
      intros q Hq Hnz. rewrite Forall_forall in Hp.
      specialize (Hp q Hq). apply rank_le_alt in Hp.
      specialize (Hpos q (list_elem_of_further _ _ _ Hq)). lia.
    + rewrite decide_True by done.
      destruct (Nat.leb_spec predict_max i) as [Hi|Hi].
      * replace (predict_max - i)%nat with 0%nat by lia. done.
      * replace (predict_max - i)%nat with (S (predict_max - S i)) by lia.
        cbn [take fmap list_fmap tab_separated snd].
        rewrite IH by (intros q Hq; apply Hpos; by right).
        reflexivity.
Qed.

(** *** The line of a registered target *)

Lemma BuildStructures_inv tsv targets g :
  BuildStructures tsv targets = Returns g →
  ∃ tb, read_tsv tsv = Returns tb ∧ registry tb
        ∧ g = mkGlobals (name_to_int tb) (int_to_name tb) targets
                (build_graph tb)
        ∧ projected (length (int_to_name tb)) (build_graph tb).
Proof.
  unfold BuildStructures. intros Hb.
  destruct (read_tsv tsv) as [tb| | |] eqn:Htb; try discriminate.
  simpl in Hb. injection Hb as <-. exists tb.
  split; [done|]. split; [by eapply registry_read_tsv|].
  split; [done|apply projected_build_graph].
Qed.

Lemma qualifying_names n g i2n u neighbor :
  length g = n → length i2n = n → NoDup i2n → (u < n)%nat →
  NoDup (qualifying g i2n u neighbor).*2
  ∧ i2n !!! u ∉ (qualifying g i2n u neighbor).*2.
Proof.
  intros Hg Hi Hnd Hu. unfold qualifying. rewrite Hg.
  rewrite <- list_fmap_compose.
  assert (∀ v w, (v < n)%nat → (w < n)%nat → i2n !!! v = i2n !!! w → v = w)
    as Hinj.
  { intros v w Hv Hw Heq.
    apply (NoDup_lookup i2n v w (i2n !!! v)); [done| |].
    - apply list_lookup_lookup_total_lt. lia.
    - rewrite Heq. apply list_lookup_lookup_total_lt. lia. }
  split.
  - apply NoDup_fmap_2_strong; [|apply NoDup_filter, NoDup_seq].
    intros v w Hv Hw. simpl.
    apply list_elem_of_filter in Hv as [_ Hv]. apply elem_of_seq in Hv.
    apply list_elem_of_filter in Hw as [_ Hw]. apply elem_of_seq in Hw.
    apply Hinj; lia.
  - rewrite list_elem_of_fmap. intros (v & Heq & Hv). simpl in Heq.
    apply list_elem_of_filter in Hv as [(Hne & _) Hv].
    apply elem_of_seq in Hv. apply Hne. symmetry. apply Hinj; [lia..|done].
Qed.

(** For a registered target the names that the writing loop puts on its
    line are the first four of the ranking of the qualifying candidates:
    the vertices other than the target that are neighbours of the target
    (in prediction mode) or are not (in recommendation mode) and whose row
    has a positive dot product with the target's, ordered by decreasing
    product and, among equals, by ascending name.  The target itself is
    never among them. *)
Lemma ranked_line tb u neighbor :
  registry tb → (u < length (int_to_name tb))%nat →
  ∃ best : list (Z * string),
    best ≡ₚ qualifying (build_graph tb) (int_to_name tb) u neighbor
    ∧ StronglySorted ranks_before best
    ∧ write_names 0 (ranked (build_graph tb) (int_to_name tb) u neighbor)
      = tab_separated 0 (take 4 best).*2
    ∧ int_to_name tb !!! u ∉ best.*2.
Proof.
  intros Hreg Hun. set (n := length (int_to_name tb)) in *.
  pose proof (projected_build_graph tb) as Hp. fold n in Hp.
  assert (length (build_graph tb) = n) as Hlen by apply Hp.
  pose proof (registry_NoDup tb Hreg) as Hnd.
  destruct (qualifying_names n (build_graph tb) (int_to_name tb) u neighbor
              Hlen eq_refl Hnd Hun) as [Hndq Hnotin].
  set (cands := candidates (build_graph tb) (int_to_name tb) u neighbor).
  assert (StronglySorted rank_le (sort compare cands)) as Hsorted.
  { apply sort_StronglySorted; [apply compare_asym|].
    intros x y z. apply rank_le_trans. }
  assert (filter (λ p, p.1 ≠ 0) (sort compare cands)
          ≡ₚ qualifying (build_graph tb) (int_to_name tb) u neighbor)
    as Hperm.
  { rewrite sort_Permutation. unfold cands.
    by rewrite (candidates_positive n). }
  exists (filter (λ p, p.1 ≠ 0) (sort compare cands)).
  split; [done|]. split.
  { eapply StronglySorted_strict; [apply rank_le_strict| |].
    - by rewrite Hperm.
    - by apply StronglySorted_filter_keep. }
  split.
  { unfold ranked. fold cands.
    rewrite write_names_sorted; [done..|].
    intros p Hp'. apply (candidates_nonneg n (build_graph tb)
                           (int_to_name tb) u neighbor); [done..|].
    rewrite (sort_Permutation compare cands) in Hp'. exact Hp'. }
  rewrite Hperm. exact Hnotin.
Qed.

(** C7.  On the sample [billed_twice] the movie M bills A twice, and B.
    The pairing loops set [graph[0][0]], so in the dot products of
    [FindInteractions] A counts as an actor connected to both A and B: for
    the target B the line of predicted interactions names A, and for the
    target A it names B, each with the count 1.  The data has no third
    actor: the number of common neighbours of the pair is 0 and neither
    target has a nominee, so that both lines are to be empty. *)
Theorem self_loop_counts_as_shared_neighbour :
  main Samples.billed_twice ["A"; "B"]
  = Returns ([header; "B" +:+ String tab ""; "A" +:+ String tab ""],
             [header; ""; ""])
  ∧ BuildStructures Samples.billed_twice ["A"; "B"]
    = Returns (mkGlobals {["A" := 0%nat; "B" := 1%nat]} ["A"; "B"]
                 ["A"; "B"] [[1; 1]; [1; 0]])
  ∧ mutual_counts [[1; 1]; [1; 0]] [1; 0] !!! 0%nat = 1
  ∧ mutual_counts [[1; 1]; [1; 0]] [1; 1] !!! 1%nat = 1
  ∧ shared [[1; 1]; [1; 0]] 1 0 = 0
  ∧ shared [[1; 1]; [1; 0]] 0 1 = 0
  ∧ nominees [[1; 1]; [1; 0]] ["A"; "B"] 1 true = []
  ∧ nominees [[1; 1]; [1; 0]] ["A"; "B"] 0 true = [].
Proof. repeat split; vm_compute; reflexivity. Qed.

(** *** The matrix of both programs *)

(** On every dataset that the reading loop accepts the matrix is square over
    the registered actors, symmetric, and holds only 0 and 1; its diagonal is
    zero when no cast names an actor twice. *)
Theorem projected_matrix tsv tb :
  read_tsv tsv = Returns tb →
  projected (length (int_to_name tb)) (build_graph tb)
  ∧ ((∀ m cast, movie_to_actor tb !! m = Some cast → NoDup cast) →
     loop_free (length (int_to_name tb)) (build_graph tb)).
Proof.
  intros Htb. split; [apply projected_build_graph|].
  apply loop_free_build_graph. by eapply registry_read_tsv.
Qed.

(** C6.  On the sample [repeated], whose one movie lists the actor A twice,
    the matrix of both programs is symmetric and its only diagonal entry
    is 1: the pairing loops take the two positions of the cast for two
    actors. *)
Theorem repeated_cast_sets_diagonal :
  BuildStructures Samples.repeated []
  = Returns (mkGlobals {["A" := 0%nat]} ["A"] [] [[1]])
  ∧ Popularity.BuildStructures Samples.repeated
    = Returns (Popularity.mkGlobals {["A" := 0%nat]} ["A"] [[1]] [1])
  ∧ entry [[1]] 0 0 = 1.
Proof. repeat split; vm_compute; reflexivity. Qed.

End PredictorFacts.

(** ** popularityfinder *)

Module PopularityFacts.
Import Cxx Projection GraphSpec ProjectionFacts Popularity PredictorFacts.

(** *** Counting over a list of indices *)

Lemma count_mono {A} (P Q : A → Prop) `{∀ x, Decision (P x)}
    `{∀ x, Decision (Q x)} l :
  (∀ x, x ∈ l → P x → Q x) →
  (length (filter P l) ≤ length (filter Q l))%nat.
Proof.
  induction l as [|x l IH]; intros Himp; [done|].
  rewrite !filter_cons.
  assert (length (filter P l) ≤ length (filter Q l))%nat
    by (apply IH; intros; apply Himp; [by right|done]).
  destruct (decide (P x)) as [HP|HP]; destruct (decide (Q x)) as [HQ|HQ];
    simpl; try lia.
  exfalso. apply HQ, Himp; [left|done].
Qed.

Lemma count_ext {A} (P Q : A → Prop) `{∀ x, Decision (P x)}
    `{∀ x, Decision (Q x)} l :
  (∀ x, x ∈ l → P x ↔ Q x) → length (filter P l) = length (filter Q l).
Proof.
  intros Hiff. apply Nat.le_antisymm; apply count_mono; intros x Hx;
    by apply Hiff.
Qed.

Lemma count_without {A} (P Q : A → Prop) `{∀ x, Decision (P x)}
    `{∀ x, Decision (Q x)} `{EqDecision A} l i :
  NoDup l → (∀ x, x ∈ l → Q x ↔ P x ∧ x ≠ i) →
  length (filter P l)
  = (length (filter Q l) + if decide (i ∈ l ∧ P i) then 1 else 0)%nat.
Proof.
  induction l as [|x l IH]; intros Hnd Hiff.
  - rewrite decide_False; [done|]. intros [Hin _]. by apply elem_of_nil in Hin.
  - apply NoDup_cons in Hnd as [Hx Hnd].
    specialize (IH Hnd (λ y Hy, Hiff y (list_elem_of_further _ _ _ Hy))).
    pose proof (Hiff x (list_elem_of_here _ _)) as Hxi.
    rewrite !filter_cons.
    destruct (decide (x = i)) as [->|Hne].
    + assert (¬ Q i) as HQ by (intros HQ; apply Hxi in HQ as [_ ?]; done).
      rewrite (decide_False (P := Q i)) by done.
      rewrite (decide_False (P := i ∈ l ∧ P i)) in IH
        by (intros [? _]; done).
      destruct (decide (P i)) as [HP|HP].
      * rewrite decide_True by (split; [left|done]). simpl. lia.
      * rewrite decide_False by (intros [_ ?]; done). lia.
    + assert (Q x ↔ P x) as HQP.
      { rewrite Hxi. split; [by intros [? _]|done]. }
      assert ((i ∈ x :: l ∧ P i) ↔ (i ∈ l ∧ P i)) as Hin.
      { rewrite elem_of_cons. split; [|intros [? ?]; auto].
        intros [[->|?] ?]; done. }
      rewrite (decide_ext _ _ _ _ Hin).
      destruct (decide (P x)) as [HP|HP].
      * rewrite (decide_True (P := Q x)) by (by apply HQP). simpl. lia.
      * rewrite (decide_False (P := Q x)) by (by rewrite HQP). lia.
Qed.

(** *** The deletion of one vertex *)

Lemma decrement_lookup (b : nat → bool) js (c : list Z) :
  NoDup js →
  let c' := foldl (λ c j, if b j then c else <[j := c !!! j - 1]> c) c js in
  length c' = length c
  ∧ ∀ j, (j < length c)%nat →
         c' !!! j = if decide (j ∈ js ∧ b j = false) then c !!! j - 1
                    else c !!! j.
Proof.
  revert c. induction js as [|j0 js IH]; intros c Hnd.
  - cbn [foldl]. split; [done|]. intros j _.
    rewrite decide_False; [done|]. intros [Hin _]. by apply elem_of_nil in Hin.
  - cbn [foldl]. apply NoDup_cons in Hnd as [Hj0 Hnd].
    destruct (IH (if b j0 then c else <[j0 := c !!! j0 - 1]> c) Hnd)
      as [Hlen Hval].
    assert (length (if b j0 then c else <[j0 := c !!! j0 - 1]> c) = length c)
      as Hlen0 by (destruct (b j0); by rewrite ?length_insert).
    split; [by rewrite Hlen|].
    intros j Hj. rewrite Hval by (by rewrite Hlen0).
    destruct (decide (j = j0)) as [->|Hne].
    + rewrite (decide_False (P := j0 ∈ js ∧ _)) by naive_solver.
      destruct (b j0) eqn:Hb.
      * rewrite decide_False; [done|]. intros [_ ?]. done.
      * rewrite decide_True by (split; [left|done]).
        by rewrite list_lookup_total_insert_eq.
    + assert ((j ∈ j0 :: js ∧ b j = false) ↔ (j ∈ js ∧ b j = false)) as Hin.
      { rewrite elem_of_cons. naive_solver. }
      assert ((if b j0 then c else <[j0 := c !!! j0 - 1]> c) !!! j = c !!! j)
        as ->.
      { destruct (b j0); [done|]. by rewrite list_lookup_total_insert_ne. }
      destruct (decide (j ∈ js ∧ b j = false)).
      * rewrite decide_True; [done|]. by apply Hin.
      * rewrite decide_False; [done|]. by rewrite Hin.
Qed.

Lemma remove_vertex_lookup g i (c : list Z) :
  (i < length c)%nat →
  length (remove_vertex g i c) = length c
  ∧ ∀ j, (j < length c)%nat →
         remove_vertex g i c !!! j
         = if decide (j = i) then - Z.of_nat (length c)
           else if decide (entry g i j = 0) then c !!! j else c !!! j - 1.
Proof.
  intros Hi. unfold remove_vertex. cbv zeta.
  pose proof (decrement_lookup (λ j, entry g i j =? 0) (seq 0 (length c)) c
                (NoDup_seq _ _)) as Hdec.
  cbv beta zeta in Hdec. unfold entry in Hdec. destruct Hdec as [Hlen Hval].
  split; [by rewrite length_insert|].
  intros j Hj. destruct (decide (j = i)) as [->|Hne].
  - rewrite list_lookup_total_insert_eq; [done|]. by rewrite Hlen.
  - rewrite list_lookup_total_insert_ne by done.
    rewrite (Hval j Hj). fold (entry g i j).
    destruct (Z.eqb_spec (entry g i j) 0) as [He|He].
    + rewrite decide_False by (intros [_ ?]; done). by rewrite decide_True.
    + rewrite decide_True by (split; [apply elem_of_seq; lia|done]).
      by rewrite decide_False.
Qed.

Lemma alive_degree_without g (c c' : list Z) i j :
  length c' = length c → (i < length c)%nat →
  (∀ x, (x < length c)%nat → alive c' x ↔ alive c x ∧ x ≠ i) →
  alive c i →
  alive_degree g c j
  = alive_degree g c' j + (if decide (entry g j i = 0) then 0 else 1).
Proof.
  intros Hlen Hi Halive Hai. unfold alive_degree. rewrite Hlen.
  rewrite (count_without (λ x, alive c x ∧ entry g j x ≠ 0)
             (λ x, alive c' x ∧ entry g j x ≠ 0) (seq 0 (length c)) i).
  - destruct (decide (entry g j i = 0)) as [He|He].
    + rewrite decide_False by (intros [_ [_ ?]]; done). lia.
    + rewrite decide_True by (split; [apply elem_of_seq; lia|done]). lia.
  - apply NoDup_seq.
  - intros x Hx. apply elem_of_seq in Hx. rewrite Halive by lia. tauto.
Qed.

Lemma alive_count_without (c c' : list Z) i :
  length c' = length c → (i < length c)%nat →
  (∀ x, (x < length c)%nat → alive c' x ↔ alive c x ∧ x ≠ i) →
  alive c i →
  alive_count c = S (alive_count c').
Proof.
  intros Hlen Hi Halive Hai. unfold alive_count. rewrite Hlen.
  rewrite (count_without (alive c) (alive c') (seq 0 (length c)) i).
  - rewrite decide_True by (split; [apply elem_of_seq; lia|done]). lia.
  - apply NoDup_seq.
  - intros x Hx. apply elem_of_seq in Hx. apply Halive. lia.
Qed.

Lemma remove_vertex_step g k (c : list Z) i :
  (∀ a b, (a < length c)%nat → (b < length c)%nat →
          entry g a b = entry g b a) →
  counted g k c → (i < length c)%nat → alive c i → c !!! i < k →
  length (remove_vertex g i c) = length c
  ∧ counted g k (remove_vertex g i c)
  ∧ (∀ j, (j < length c)%nat →
          alive (remove_vertex g i c) j ↔ alive c j ∧ j ≠ i)
  ∧ alive_count c = S (alive_count (remove_vertex g i c)).
Proof.
  intros Hsym [Hdeg Hdead] Hi Hai Hlow.
  destruct (remove_vertex_lookup g i c Hi) as [Hlen Hval].
  set (c' := remove_vertex g i c) in *.
  assert (∀ j, (j < length c)%nat → alive c' j ↔ alive c j ∧ j ≠ i)
    as Halive.
  { intros j Hj. unfold alive at 1. rewrite Hlen, (Hval j Hj).
    destruct (decide (j = i)) as [->|Hne]; [split; [lia|tauto]|].
    destruct (decide (entry g i j = 0)) as [He|He]; [unfold alive; tauto|].
    split.
    - intros Hc. split; [unfold alive; lia|done].
    - intros [Haj _]. rewrite (Hdeg j Hj Haj).
      unfold alive_degree.
      rewrite (count_without (λ x, alive c x ∧ entry g j x ≠ 0)
                 (λ x, (alive c x ∧ entry g j x ≠ 0) ∧ x ≠ i)
                 (seq 0 (length c)) i); [|apply NoDup_seq|tauto].
      rewrite decide_True; [lia|].
      split; [apply elem_of_seq; lia|]. split; [done|].
      by rewrite (Hsym j i). }
  split; [done|]. split; [|split; [done|]].
  - split.
    + intros j Hj Haj. rewrite Hlen in Hj.
      apply Halive in Haj as [Haj Hne]; [|done].
      rewrite (Hval j Hj), decide_False by done.
      rewrite (Hdeg j Hj Haj).
      rewrite (alive_degree_without g c c' i j Hlen Hi Halive Hai).
      rewrite (Hsym j i) by done.
      destruct (decide (entry g i j = 0)); lia.
    + intros j Hj Hnj. rewrite Hlen in Hj. rewrite (Hval j Hj).
      destruct (decide (j = i)) as [->|Hne]; [unfold alive in Hai; lia|].
      assert (¬ alive c j) as Hnc.
      { intros Hc. apply Hnj, Halive; done. }
      specialize (Hdead j Hj Hnc).
      destruct (decide (entry g i j = 0)); lia.
  - by apply (alive_count_without c c' i).
Qed.

(** *** One round of the loop *)

Lemma prune_pass_steps g k (l : list nat) (c : list Z) b :
  (∀ a b, (a < length c)%nat → (b < length c)%nat →
          entry g a b = entry g b a) →
  counted g k c → (∀ i, i ∈ l → (i < length c)%nat) →
  let r := foldl (prune_vertex g k) (c, b) l in
  length r.1 = length c
  ∧ counted g k r.1
  ∧ (∀ j, (j < length c)%nat → alive r.1 j → alive c j)
  ∧ (if r.2
     then b = true ∨ (alive_count r.1 < alive_count c)%nat
     else b = false ∧ r.1 = c
          ∧ ∀ i, i ∈ l → alive c i → k ≤ c !!! i).
Proof.
  revert c b. induction l as [|i l IH]; intros c b Hsym Hcnt Hl.
  - cbn [foldl]. simpl. split; [done|]. split; [done|]. split; [done|].
    destruct b; [by left|]. split; [done|]. split; [done|].
    intros i Hi. by apply elem_of_nil in Hi.
  - cbn [foldl].
    assert (i < length c)%nat as Hi by (apply Hl; left).
    assert (prune_vertex g k (c, b) i
            = if (c !!! i <? k) && (- Z.of_nat (length c) <? c !!! i)
              then (remove_vertex g i c, true) else (c, b)) as ->
      by reflexivity.
    destruct ((c !!! i <? k) && (- Z.of_nat (length c) <? c !!! i)) eqn:Hrm.
    + apply andb_true_iff in Hrm as [Hlow Hai].
      apply Z.ltb_lt in Hlow, Hai.
      destruct (remove_vertex_step g k c i Hsym Hcnt Hi Hai Hlow)
        as (Hlen & Hcnt' & Halive & Hcount).
      destruct (IH (remove_vertex g i c) true) as (Hlen2 & Hcnt2 & Hsub & Hflag).
      { by rewrite Hlen. }
      { done. }
      { intros j Hj. rewrite Hlen. apply Hl. by right. }
      split; [by rewrite Hlen2|]. split; [done|]. split.
      * intros j Hj Hr. apply Hsub in Hr; [|by rewrite Hlen].
        by apply Halive in Hr as [? _].
      * destruct (foldl _ _ _).2 eqn:Hb; [|by destruct Hflag as [? _]].
        right.
        assert (alive_count (foldl (prune_vertex g k)
                               (remove_vertex g i c, true) l).1
                ≤ alive_count (remove_vertex g i c))%nat; [|lia].
        unfold alive_count. rewrite Hlen2.
        apply count_mono. intros j Hj. apply Hsub.
        apply elem_of_seq in Hj. lia.
    + destruct (IH c b Hsym Hcnt) as (Hlen2 & Hcnt2 & Hsub & Hflag).
      { intros j Hj. apply Hl. by right. }
      split; [done|]. split; [done|]. split; [done|].
      destruct (foldl _ _ _).2 eqn:Hb; [done|].
      destruct Hflag as (Hb0 & Hc & Hrest).
      split; [done|]. split; [done|].
      intros j Hj Haj. apply elem_of_cons in Hj as [->|Hj]; [|by apply Hrest].
      apply andb_false_iff in Hrm as [Hrm|Hrm].
      * by apply Z.ltb_ge in Hrm.
      * apply Z.ltb_ge in Hrm. unfold alive in Haj. lia.
Qed.

Lemma prune_pass_spec g k (c : list Z) :
  (∀ a b, (a < length c)%nat → (b < length c)%nat →
          entry g a b = entry g b a) →
  counted g k c →
  length (prune_pass g k c).1 = length c
  ∧ counted g k (prune_pass g k c).1
  ∧ (∀ j, (j < length c)%nat → alive (prune_pass g k c).1 j → alive c j)
  ∧ (if (prune_pass g k c).2
     then (alive_count (prune_pass g k c).1 < alive_count c)%nat
     else (prune_pass g k c).1 = c
          ∧ ∀ i, (i < length c)%nat → alive c i → k ≤ c !!! i).
Proof.
  intros Hsym Hcnt. unfold prune_pass.
  destruct (prune_pass_steps g k (seq 0 (length c)) c false Hsym Hcnt)
    as (Hlen & Hcnt' & Hsub & Hflag).
  { intros i Hi. apply elem_of_seq in Hi. lia. }
  split; [done|]. split; [done|]. split; [done|].
  destruct (foldl _ _ _).2.
  - by destruct Hflag.
  - destruct Hflag as (_ & Hc & Hall). split; [done|].
    intros i Hi. apply Hall. apply elem_of_seq. lia.
Qed.

(** *** The loop ends *)

Lemma prune_terminates g k fuel (c : list Z) :
  (∀ a b, (a < length c)%nat → (b < length c)%nat →
          entry g a b = entry g b a) →
  counted g k c → (alive_count c < fuel)%nat →
  ∃ c', prune fuel g k c = Returns c'
        ∧ length c' = length c
        ∧ counted g k c'
        ∧ (∀ i, (i < length c)%nat → alive c' i → k ≤ c' !!! i).
Proof.
  revert c. induction fuel as [|fuel IH]; intros c Hsym Hcnt Hfuel; [lia|].
  cbn [prune].
  destruct (prune_pass_spec g k c Hsym Hcnt) as (Hlen & Hcnt' & Hsub & Hflag).
  destruct (prune_pass g k c) as [c1 not_done]. simpl in *.
  destruct not_done.
  - destruct (IH c1) as (c' & Hrun & Hlen' & Hcnt'' & Hfin).
    { by rewrite Hlen. }
    { done. }
    { lia. }
    exists c'. split; [done|]. split; [by rewrite Hlen'|]. split; [done|].
    intros i Hi. apply Hfin. by rewrite Hlen.
  - destruct Hflag as [-> Hall]. exists c.
    split; [done|]. split; [done|]. split; [done|]. exact Hall.
Qed.

(** *** No member of a core is deleted *)

Lemma core_member_stays g k (T : gset nat) (c : list Z) i :
  length g = length c → core g k T → counted g k c →
  (∀ t, t ∈ T → alive c t) →
  (i < length c)%nat → alive c i → c !!! i < k → i ∉ T.
Proof.
  intros Hg Hcore [Hdeg _] Hsub Hi Hai Hlow HiT.
  destruct (Hcore i HiT) as [_ Hk].
  rewrite (Hdeg i Hi Hai) in Hlow.
  unfold degree_in in Hk. unfold alive_degree in Hlow. rewrite Hg in Hk.
  pose proof (count_mono (λ j, j ∈ T ∧ j ≠ i ∧ entry g i j ≠ 0)
                (λ j, alive c j ∧ entry g i j ≠ 0) (seq 0 (length c))) as Hm.
  cbv beta in Hm.
  assert (∀ x, x ∈ seq 0 (length c) →
            x ∈ T ∧ x ≠ i ∧ entry g i x ≠ 0 → alive c x ∧ entry g i x ≠ 0)
    as Himp.
  { intros j _ (HjT & _ & He). split; [by apply Hsub|done]. }
  specialize (Hm Himp). lia.
Qed.

Lemma prune_pass_keeps_core g k (T : gset nat) (l : list nat) (c : list Z) b :
  (∀ a b, (a < length c)%nat → (b < length c)%nat →
          entry g a b = entry g b a) →
  length g = length c → core g k T → counted g k c →
  (∀ i, i ∈ l → (i < length c)%nat) →
  (∀ t, t ∈ T → alive c t) →
  ∀ t, t ∈ T → alive (foldl (prune_vertex g k) (c, b) l).1 t.
Proof.
  revert c b. induction l as [|i l IH]; intros c b Hsym Hg Hcore Hcnt Hl Hsub;
    [done|].
  cbn [foldl].
  assert (i < length c)%nat as Hi by (apply Hl; left).
  assert (prune_vertex g k (c, b) i
          = if (c !!! i <? k) && (- Z.of_nat (length c) <? c !!! i)
            then (remove_vertex g i c, true) else (c, b)) as ->
    by reflexivity.
  destruct ((c !!! i <? k) && (- Z.of_nat (length c) <? c !!! i)) eqn:Hrm.
  - apply andb_true_iff in Hrm as [Hlow Hai].
    apply Z.ltb_lt in Hlow, Hai.
    destruct (remove_vertex_step g k c i Hsym Hcnt Hi Hai Hlow)
      as (Hlen & Hcnt' & Halive & _).
    apply IH; try done.
    + by rewrite Hlen.
    + by rewrite Hlen.
    + intros j Hj. rewrite Hlen. apply Hl. by right.
    + intros t Ht. apply Halive.
      * destruct (Hcore t Ht) as [Hlt _]. by rewrite <- Hg.
      * split; [by apply Hsub|]. intros ->.
        by apply (core_member_stays g k T c i).
  - apply IH; try done. intros j Hj. apply Hl. by right.
Qed.

Lemma prune_keeps_core g k (T : gset nat) fuel (c c' : list Z) :
  (∀ a b, (a < length c)%nat → (b < length c)%nat →
          entry g a b = entry g b a) →
  length g = length c → core g k T → counted g k c →
  (∀ t, t ∈ T → alive c t) →
  prune fuel g k c = Returns c' →
  ∀ t, t ∈ T → alive c' t.
Proof.
  revert c. induction fuel as [|fuel IH];
    intros c Hsym Hg Hcore Hcnt Hsub Hrun; [done|].
  cbn [prune] in Hrun.
  destruct (prune_pass_spec g k c Hsym Hcnt) as (Hlen & Hcnt' & _ & _).
  pose proof (prune_pass_keeps_core g k T (seq 0 (length c)) c false
                Hsym Hg Hcore Hcnt) as Hkeep.
  fold (prune_pass g k c) in Hkeep.
  destruct (prune_pass g k c) as [c1 not_done]. simpl in *.
  assert (∀ t, t ∈ T → alive c1 t) as Hsub1.
  { apply Hkeep; [|done]. intros i Hi. apply elem_of_seq in Hi. lia. }
  destruct not_done.
  - apply (IH c1); try done; by rewrite Hlen.
  - by injection Hrun as <-.
Qed.

(** *** The first counts *)

Lemma first_counts_spec n g :
  projected n g →
  length (first_counts g n) = n
  ∧ ∀ i, (i < n)%nat →
         first_counts g n !!! i
         = Z.of_nat (length (filter (λ j, entry g i j ≠ 0) (seq 0 n))).
Proof.
  intros ([Hlen Hrows] & _ & Hbin). unfold first_counts. rewrite Hlen.
  destruct n as [|n]; [split; [done|lia]|].
  destruct (accumulate_rows (λ i j, entry g i j) (seq 0 (S n)) (seq 0 (S n))
              (replicate (S n) 0)) as [Hl Hval].
  { done. }
  { apply NoDup_seq. }
  { intros d Hd. rewrite length_replicate. apply elem_of_seq in Hd. lia. }
  unfold entry in Hl, Hval.
  split; [by rewrite Hl, length_replicate|].
  intros i Hi. rewrite Hval.
  rewrite decide_True by (apply elem_of_seq; lia).
  rewrite lookup_total_replicate_2 by done. rewrite Z.add_0_l.
  apply sum_over_indicator. intros j Hj. apply elem_of_seq in Hj.
  fold (entry g i j).
  destruct (Hbin i j) as [-> | ->]; [done|lia|..]; by case_decide.
Qed.

Lemma first_counts_counted n g k :
  projected n g →
  counted g k (first_counts g n)
  ∧ ∀ i, (i < n)%nat → alive (first_counts g n) i.
Proof.
  intros Hp. destruct (first_counts_spec n g Hp) as [Hlen Hval].
  assert (∀ i, (i < n)%nat → alive (first_counts g n) i) as Hall.
  { intros i Hi. unfold alive. rewrite Hlen, (Hval i Hi). lia. }
  split; [|done]. split.
  - intros i Hi _. rewrite Hlen in Hi. rewrite (Hval i Hi).
    unfold alive_degree. rewrite Hlen. f_equal.
    apply count_ext. intros j Hj. apply elem_of_seq in Hj.
    split; [|by intros [_ ?]]. intros He. split; [apply Hall; lia|done].
  - intros i Hi Hdead. rewrite Hlen in Hi. destruct Hdead. by apply Hall.
Qed.

(** *** The names written *)

Lemma kept_spec k (c : list Z) (i2n : list string) :
  kept k c i2n
  = (i2n !!!.) <$> filter (λ i, k ≤ c !!! i) (seq 0 (length c)).
Proof.
  unfold kept. induction (seq 0 (length c)) as [|i l IH]; [done|].
  cbn [omap list_omap]. rewrite filter_cons.
  destruct (Z.leb_spec k (c !!! i)).
  - rewrite decide_True by done. rewrite fmap_cons. f_equal. exact IH.
  - rewrite decide_False by lia. exact IH.
Qed.

Lemma elem_of_survivors k (c : list Z) i :
  i ∈ survivors k c ↔ (i < length c)%nat ∧ k ≤ c !!! i.
Proof.
  unfold survivors. rewrite elem_of_list_to_set, list_elem_of_filter.
  rewrite elem_of_seq. split; [intros [? ?]|intros [? ?]]; split; done || lia.
Qed.

Lemma sorted_names l :
  StronglySorted String.le (sort String.ltb l) ∧ sort String.ltb l ≡ₚ l.
Proof.
  split; [|apply sort_Permutation].
  assert (StronglySorted (λ x y, String.ltb y x = false) (sort String.ltb l))
    as Hs.
  { apply sort_StronglySorted.
    - intros x y Hxy. apply ltb_false_le. apply ltb_true_not_le in Hxy.
      destruct (total String.le x y); done.
    - intros x y z. rewrite !ltb_false_le. intros ??. by etrans. }
  induction Hs as [|x l' Hl IH Hx]; constructor; [done|].
  eapply Forall_impl; [exact Hx|]. intros y. by rewrite ltb_false_le.
Qed.

(** *** The result of the decomposition *)

(** On a dataset in which no cast names an actor twice, the pruning loop
    ends within one round more than there are actors, the vertices it keeps
    form a set in which each has at least [k] neighbours, every such set is
    inside it, and the output is the header followed by the names of the
    kept vertices in lexicographic order. *)
Theorem popularity_core tsv tb k_arg k fuel :
  stoi k_arg = Returns k →
  read_tsv tsv = Returns tb →
  (∀ m cast, movie_to_actor tb !! m = Some cast → NoDup cast) →
  (length (int_to_name tb) < fuel)%nat →
  ∃ counts' names,
    prune fuel (build_graph tb) k
      (first_counts (build_graph tb) (length (int_to_name tb)))
    = Returns counts'
    ∧ core (build_graph tb) k (survivors k counts')
    ∧ (∀ T, core (build_graph tb) k T → T ⊆ survivors k counts')
    ∧ main fuel tsv k_arg = Returns (header :: names)
    ∧ names ≡ₚ (int_to_name tb !!!.) <$> elements (survivors k counts')
    ∧ StronglySorted String.le names.
Proof.
  intros Hk Htb Hnd Hfuel.
  set (g := build_graph tb). set (n := length (int_to_name tb)) in *.
  destruct (projected_matrix tsv tb Htb) as [Hp Hloop].
  specialize (Hloop Hnd). fold g n in Hp, Hloop.
  destruct (first_counts_spec n g Hp) as [Hlen0 _].
  destruct (first_counts_counted n g k Hp) as [Hcnt0 Hall0].
  assert (length g = n) as Hg by apply Hp.
  assert (∀ a b, (a < length (first_counts g n))%nat →
                 (b < length (first_counts g n))%nat →
                 entry g a b = entry g b a) as Hsym.
  { rewrite Hlen0. apply Hp. }
  destruct (prune_terminates g k fuel (first_counts g n) Hsym Hcnt0)
    as (c' & Hrun & Hlen & [Hdeg Hdead] & Hfin).
  { unfold alive_count. rewrite Hlen0.
    pose proof (length_filter (alive (first_counts g n)) (seq 0 n)) as Hle.
    rewrite length_seq in Hle. lia. }
  rewrite Hlen0 in Hlen, Hfin.
  assert (∀ i, i ∈ survivors k c' ↔ (i < n)%nat ∧ alive c' i) as Hsurv.
  { intros i. rewrite elem_of_survivors, Hlen. split; intros [Hi Hx].
    - split; [done|]. destruct (decide (alive c' i)) as [|Hno]; [done|].
      specialize (Hdead i). rewrite Hlen in Hdead. specialize (Hdead Hi Hno).
      lia.
    - split; [done|]. by apply Hfin. }
  exists c', (sort String.ltb (kept k c' (int_to_name tb))).
  split; [done|]. split; [|split; [|split; [|split]]].
  - intros i Hi. apply Hsurv in Hi as [Hi Hai]. split; [by rewrite Hg|].
    transitivity (c' !!! i); [by apply Hfin|].
    rewrite Hdeg by (by rewrite ?Hlen). unfold alive_degree, degree_in.
    rewrite Hlen, Hg. apply Nat2Z.inj_le. apply count_mono.
    intros j Hj [Haj He]. apply elem_of_seq in Hj.
    split; [apply Hsurv; split; [lia|done]|]. split; [|done].
    intros ->. by rewrite Hloop in He.
  - intros T Hcore i Hi. apply Hsurv.
    destruct (Hcore i Hi) as [Hlt _]. split; [by rewrite <- Hg|].
    apply (prune_keeps_core g k T fuel (first_counts g n) c'); try done.
    + by rewrite Hlen0.
    + intros t Ht. apply Hall0. destruct (Hcore t Ht) as [Hlt' _].
      by rewrite <- Hg.
  - unfold main, BuildStructures. rewrite Hk. simpl. rewrite Htb. simpl.
    fold g n. by rewrite Hrun.
  - destruct (sorted_names (kept k c' (int_to_name tb))) as [_ ->].
    rewrite kept_spec. apply fmap_Permutation.
    unfold survivors. rewrite elements_list_to_set; [done|].
    apply NoDup_filter, NoDup_seq.
  - apply sorted_names.
Qed.

(** The theorem on the sample [scenario] with the threshold 2. *)
Lemma popularity_core_witness :
  ∃ counts' names,
    prune 5 (build_graph Samples.scenario_tables) 2
      (first_counts (build_graph Samples.scenario_tables)
         (length (int_to_name Samples.scenario_tables)))
    = Returns counts'
    ∧ core (build_graph Samples.scenario_tables) 2 (survivors 2 counts')
    ∧ (∀ T, core (build_graph Samples.scenario_tables) 2 T →
            T ⊆ survivors 2 counts')
    ∧ main 5 Samples.scenario "2" = Returns (header :: names)
    ∧ names ≡ₚ (int_to_name Samples.scenario_tables !!!.)
                 <$> elements (survivors 2 counts')
    ∧ StronglySorted String.le names.
Proof.
  refine (popularity_core Samples.scenario Samples.scenario_tables "2" 2 5 _ _ _ _).
  - vm_compute. reflexivity.
  - vm_compute. reflexivity.
  - apply (bool_decide_unpack
             (map_Forall (λ _ cast, NoDup cast)
                (movie_to_actor Samples.scenario_tables))).
    vm_compute. exact I.
  - vm_compute. lia.
Defined.

(** C2.  On the sample [repeated] with the threshold 1 the loop deletes
    nothing and the output names A.  A is connected to no other actor: the
    count 1 that keeps it is the diagonal entry that the repeated record
    set, so the set written is not one in which every vertex has a neighbour
    among the others (the largest such set is empty). *)
Theorem repeated_cast_survives :
  main 2 Samples.repeated "1" = Returns [header; "A"]
  ∧ BuildStructures Samples.repeated
    = Returns (mkGlobals {["A" := 0%nat]} ["A"] [[1]] [1])
  ∧ prune 2 [[1]] 1 [1] = Returns [1]
  ∧ (∀ i, i ∈ survivors 1 [1] ↔ i = 0%nat)
  ∧ degree_in [[1]] (survivors 1 [1]) 0 = 0
  ∧ ¬ core [[1]] 1 (survivors 1 [1])
  ∧ core [[1]] 1 ∅.
Proof.
  split; [vm_compute; reflexivity|]. split; [vm_compute; reflexivity|].
  split; [vm_compute; reflexivity|].
  assert (∀ i, i ∈ survivors 1 [1] ↔ i = 0%nat) as Hs.
  { intros i. rewrite elem_of_survivors. simpl. split.
    - intros [? _]. lia.
    - intros ->. split; [lia|]. vm_compute. discriminate. }
  split; [done|].
  assert (degree_in [[1]] (survivors 1 [1]) 0 = 0) as Hd.
  { unfold degree_in. simpl. rewrite filter_cons.
    rewrite decide_False by (intros (_ & ? & _); done). done. }
  split; [done|]. split.
  - intros Hcore. destruct (Hcore 0%nat) as [_ Hk]; [by apply Hs|].
    rewrite Hd in Hk. lia.
  - intros i Hi. by apply elem_of_empty in Hi.
Qed.

End PopularityFacts.

(** * Further properties of the code

    What the three programs do beyond the statements above: the tables and
    the matrix that [BuildStructures] builds, the result of the pruning
    loop, the maps that [loadFromFile] leaves, and the search of
    [findPath]. *)

Module TableFacts.
Import Cxx Projection GraphSpec ProjectionFacts PredictorFacts PopularityFacts.

#[local] Arguments read_line : simpl never.

(** *** The registry of both programs *)

Lemma read_line_registers tb s tb' a :
  read_line tb s = Returns tb' → is_Some (name_to_int tb !! a) →
  is_Some (name_to_int tb' !! a).
Proof.
  intros Hr Ha.
  destruct (read_line_inv _ _ _ Hr) as (r0 & r1 & r2 & rest & Htok).
  rewrite (read_line_record _ _ _ _ _ _ Htok) in Hr. injection Hr as <-.
  simpl. destruct (name_to_int tb !! r0); [done|].
  rewrite lookup_insert_is_Some. destruct (decide (r0 = a)); auto.
Qed.

Lemma read_line_registers_first tb s tb' r0 rest :
  read_line tb s = Returns tb' → tokenize s = r0 :: rest →
  is_Some (name_to_int tb' !! r0).
Proof.
  intros Hr Htok.
  destruct (read_line_inv _ _ _ Hr) as (q0 & q1 & q2 & rest' & Htok').
  rewrite Htok in Htok'. injection Htok' as -> ->.
  rewrite (read_line_record _ _ _ _ _ _ Htok) in Hr. injection Hr as <-.
  simpl. destruct (name_to_int tb !! q0) eqn:H0; [by rewrite H0|].
  rewrite lookup_insert_eq. eauto.
Qed.

Lemma for_each_registers lines tb tb' a :
  for_each read_line lines tb = Returns tb' →
  is_Some (name_to_int tb !! a) → is_Some (name_to_int tb' !! a).
Proof.
  revert tb. induction lines as [|s lines IH]; intros tb Hr Ha.
  - simpl in Hr. by injection Hr as <-.
  - simpl in Hr. destruct (read_line tb s) as [tb1| | |] eqn:H1; try done.
    simpl in Hr. eapply IH; [done|]. by eapply read_line_registers.
Qed.

Lemma for_each_registers_all lines tb tb' s r0 rest :
  for_each read_line lines tb = Returns tb' →
  s ∈ lines → tokenize s = r0 :: rest →
  is_Some (name_to_int tb' !! r0).
Proof.
  revert tb. induction lines as [|s0 lines IH]; intros tb Hr Hs Htok.
  - by apply elem_of_nil in Hs.
  - simpl in Hr. destruct (read_line tb s0) as [tb1| | |] eqn:H1; try done.
    simpl in Hr. apply elem_of_cons in Hs as [->|Hs].
    + eapply for_each_registers; [done|].
      by eapply read_line_registers_first.
    + by eapply IH.
Qed.

Lemma BuildStructures_tables tsv g :
  Popularity.BuildStructures tsv = Returns g →
  ∃ tb, read_tsv tsv = Returns tb ∧ registry tb
        ∧ g = Popularity.mkGlobals (name_to_int tb) (int_to_name tb) (build_graph tb)
                (Popularity.first_counts (build_graph tb) (length (int_to_name tb)))
        ∧ projected (length (int_to_name tb)) (build_graph tb).
Proof.
  unfold Popularity.BuildStructures. intros Hb.
  destruct (read_tsv tsv) as [tb| | |] eqn:Htb; try done.
  simpl in Hb. injection Hb as <-. exists tb.
  split; [done|]. split; [by eapply registry_read_tsv|]. split; [done|].
  apply projected_build_graph.
Qed.

(** X1.  When the reading loop of [BuildStructures] accepts the data, the
    two registry containers are inverse to each other: [name_to_int] maps a
    name to [i] exactly when [int_to_name[i]] is that name.  So the ids are
    the indices 0 .. n-1 of [int_to_name], no name occurs twice in it, and
    the actor of every data line has an id. *)
Theorem registry_inverse tsv targets g :
  Predictor.BuildStructures tsv targets = Returns g →
  (∀ a i, Predictor.g_name_to_int g !! a = Some i
          ↔ Predictor.g_int_to_name g !! i = Some a)
  ∧ NoDup (Predictor.g_int_to_name g)
  ∧ (∀ a i, Predictor.g_name_to_int g !! a = Some i →
            (i < length (Predictor.g_int_to_name g))%nat)
  ∧ (∀ s r0 rest, s ∈ tsv → tokenize s = r0 :: rest →
                  is_Some (Predictor.g_name_to_int g !! r0))
  ∧ ∃ counts,
      Popularity.BuildStructures tsv
      = Returns (Popularity.mkGlobals (Predictor.g_name_to_int g)
                   (Predictor.g_int_to_name g) (Predictor.graph g) counts).
Proof.
  intros Hb.
  destruct (BuildStructures_inv _ _ _ Hb) as (tb & Htb & Hreg & -> & _).
  simpl. split; [apply Hreg|]. split; [by apply registry_NoDup|].
  split; [intros a i; by apply registry_id_lt|]. split.
  - intros s r0 rest Hs Htok. by eapply for_each_registers_all.
  - eexists. unfold Popularity.BuildStructures. rewrite Htb. reflexivity.
Qed.

Lemma registry_inverse_witness :
  (∀ a i, ({["A" := 0%nat; "B" := 1%nat; "C" := 2%nat; "D" := 3%nat]}
             : gmap string nat) !! a = Some i
          ↔ ["A"; "B"; "C"; "D"] !! i = Some a)
  ∧ NoDup ["A"; "B"; "C"; "D"].
Proof.
  destruct (registry_inverse Samples.scenario []
              (Predictor.mkGlobals
                 {["A" := 0%nat; "B" := 1%nat; "C" := 2%nat; "D" := 3%nat]}
                 ["A"; "B"; "C"; "D"] []
                 [[0; 1; 1; 1]; [1; 0; 1; 0]; [1; 1; 0; 0]; [1; 0; 0; 0]]))
    as (Hinv & Hnd & _).
  - vm_compute. reflexivity.
  - split; [exact Hinv|exact Hnd].
Defined.

(** *** The matrix *)

(** X2.  For every dataset that [BuildStructures] accepts, [graph] is an n
    by n matrix over the n registered actors, it is symmetric and each of its
    entries is 0 or 1. *)
Theorem graph_symmetric tsv targets g :
  Predictor.BuildStructures tsv targets = Returns g →
  let n := length (Predictor.g_int_to_name g) in
  length (Predictor.graph g) = n
  ∧ (∀ i, (i < n)%nat → length (Predictor.graph g !!! i) = n)
  ∧ (∀ i j, (i < n)%nat → (j < n)%nat →
            entry (Predictor.graph g) i j = entry (Predictor.graph g) j i)
  ∧ (∀ i j, (i < n)%nat → (j < n)%nat →
            entry (Predictor.graph g) i j = 0
            ∨ entry (Predictor.graph g) i j = 1).
Proof.
  intros Hb.
  destruct (BuildStructures_inv _ _ _ Hb) as (tb & _ & _ & -> & Hp).
  simpl. destruct Hp as ([Hlen Hrows] & Hsym & Hbin). by repeat split.
Qed.

Lemma graph_symmetric_witness :
  entry [[0; 1; 1; 1]; [1; 0; 1; 0]; [1; 1; 0; 0]; [1; 0; 0; 0]] 0 3
  = entry [[0; 1; 1; 1]; [1; 0; 1; 0]; [1; 1; 0; 0]; [1; 0; 0; 0]] 3 0.
Proof.
  destruct (graph_symmetric Samples.scenario []
              (Predictor.mkGlobals
                 {["A" := 0%nat; "B" := 1%nat; "C" := 2%nat; "D" := 3%nat]}
                 ["A"; "B"; "C"; "D"] []
                 [[0; 1; 1; 1]; [1; 0; 1; 0]; [1; 1; 0; 0]; [1; 0; 0; 0]]))
    as (_ & _ & Hsym & _).
  - vm_compute. reflexivity.
  - apply Hsym; simpl; lia.
Defined.

End TableFacts.

Module EdgeFacts.
Import Cxx Projection GraphSpec DataSpec.
Import ProjectionFacts PredictorFacts PopularityFacts TableFacts.

#[local] Arguments read_line : simpl never.

(** *** The casts after the reading loop *)

Lemma read_line_cast tb s tb' key :
  read_line tb s = Returns tb' →
  default [] (movie_to_actor tb' !! key)
  = default [] (movie_to_actor tb !! key) ++ cast_of key [s]
  ∧ (is_Some (movie_to_actor tb' !! key) →
     is_Some (movie_to_actor tb !! key) ∨ cast_of key [s] ≠ []).
Proof.
  intros Hr.
  destruct (read_line_inv _ _ _ Hr) as (r0 & r1 & r2 & rest & Htok).
  rewrite (read_line_record _ _ _ _ _ _ Htok) in Hr. injection Hr as <-.
  simpl. unfold cast_of, record_of. simpl. rewrite Htok.
  destruct (decide (r1 +:+ r2 = key)) as [<-|Hne].
  - rewrite lookup_insert_eq. simpl. split; [done|]. intros _. by right.
  - rewrite lookup_insert_ne by done. rewrite app_nil_r. split; [done|].
    intros ?. by left.
Qed.

Lemma cast_of_cons key s lines :
  cast_of key (s :: lines) = cast_of key [s] ++ cast_of key lines.
Proof.
  unfold cast_of. simpl. by destruct (record_of s) as [[a k]|]; [case_decide|].
Qed.

Lemma for_each_cast lines tb tb' key :
  for_each read_line lines tb = Returns tb' →
  default [] (movie_to_actor tb' !! key)
  = default [] (movie_to_actor tb !! key) ++ cast_of key lines
  ∧ (is_Some (movie_to_actor tb' !! key) →
     is_Some (movie_to_actor tb !! key) ∨ cast_of key lines ≠ []).
Proof.
  revert tb. induction lines as [|s lines IH]; intros tb Hr.
  - simpl in Hr. injection Hr as <-. rewrite app_nil_r. split; [done|].
    intros ?. by left.
  - simpl in Hr. destruct (read_line tb s) as [tb1| | |] eqn:H1; try done.
    simpl in Hr. destruct (IH _ Hr) as [Heq Hsome].
    destruct (read_line_cast _ _ _ key H1) as [Heq1 Hsome1].
    rewrite cast_of_cons. split.
    + by rewrite Heq, Heq1, app_assoc.
    + intros Hk. destruct (Hsome Hk) as [Hk1|Hne].
      * destruct (Hsome1 Hk1) as [?|Hne1]; [by left|right].
        intros Happ. by apply app_eq_nil in Happ as [? _].
      * right. intros Happ. by apply app_eq_nil in Happ as [_ ?].
Qed.

Lemma read_tsv_cast lines tb key cast :
  read_tsv lines = Returns tb →
  movie_to_actor tb !! key = Some cast →
  cast = cast_of key lines.
Proof.
  intros Hr Hk. destruct (for_each_cast _ _ _ key Hr) as [Heq _].
  rewrite Hk in Heq. simpl in Heq. by rewrite lookup_empty in Heq.
Qed.

Lemma read_tsv_cast_inv lines tb key :
  read_tsv lines = Returns tb → cast_of key lines ≠ [] →
  movie_to_actor tb !! key = Some (cast_of key lines).
Proof.
  intros Hr Hne. destruct (for_each_cast _ _ _ key Hr) as [Heq _].
  simpl in Heq. rewrite lookup_empty in Heq. simpl in Heq.
  destruct (movie_to_actor tb !! key) as [c|]; simpl in Heq; [by subst|].
  by destruct Hne.
Qed.

(** *** Which entries the pairing loops set *)

Lemma square_pair n a b g :
  square n g → square n (set_edge b a (set_edge a b g)).
Proof. intros. by do 2 apply square_set_edge. Qed.

Lemma entry_pair n a b g i j :
  square n g → (i < n)%nat → (j < n)%nat →
  entry (set_edge b a (set_edge a b g)) i j = 1
  ↔ entry g i j = 1 ∨ (i = a ∧ j = b) ∨ (i = b ∧ j = a).
Proof.
  intros Hsq Hi Hj.
  rewrite (entry_set_edge n b a) by (by apply square_set_edge).
  rewrite (entry_set_edge n a b) by done.
  repeat case_decide; destruct_and?; subst;
    (split; [intros; try tauto; auto|intros; destruct_or?; destruct_and?; subst; tauto || lia || auto]).
Qed.

Lemma square_connect_one n n2i x rest g :
  square n g → square n (connect_one n2i x rest g).
Proof.
  unfold connect_one. revert g.
  induction rest as [|y rest IH]; intros g Hg; simpl; [done|].
  apply IH. by apply square_pair.
Qed.

Lemma square_connect_cast n n2i cast g :
  square n g → square n (connect_cast n2i cast g).
Proof.
  revert g. induction cast as [|x rest IH]; intros g Hg; simpl; [done|].
  apply IH. by apply square_connect_one.
Qed.

Lemma entry_connect_one n n2i x rest g i j :
  square n g → (i < n)%nat → (j < n)%nat →
  entry (connect_one n2i x rest g) i j = 1
  ↔ entry g i j = 1
    ∨ ∃ y, y ∈ rest ∧ ((i = id_of n2i x ∧ j = id_of n2i y)
                       ∨ (i = id_of n2i y ∧ j = id_of n2i x)).
Proof.
  intros Hsq Hi Hj. unfold connect_one. revert g Hsq.
  induction rest as [|y rest IH]; intros g Hsq; simpl.
  - split; [by left|]. intros [?|(y & Hy & _)]; [done|].
    by apply elem_of_nil in Hy.
  - rewrite IH by (by apply square_pair).
    rewrite (entry_pair n) by done. split.
    + intros [[?|Hp]|(z & Hz & Hc)]; [by left|right..].
      * exists y. split; [left|tauto].
      * exists z. split; [by right|done].
    + intros [?|(z & Hz & Hc)]; [by left; left|].
      apply elem_of_cons in Hz as [->|Hz]; [left; right; tauto|].
      right. by exists z.
Qed.

Lemma entry_connect_cast n n2i cast g i j :
  square n g → (i < n)%nat → (j < n)%nat →
  entry (connect_cast n2i cast g) i j = 1
  ↔ entry g i j = 1
    ∨ ∃ p q x y, p ≠ q ∧ cast !! p = Some x ∧ cast !! q = Some y
                 ∧ i = id_of n2i x ∧ j = id_of n2i y.
Proof.
  intros Hsq Hi Hj. revert g Hsq.
  induction cast as [|x0 rest IH]; intros g Hsq; simpl.
  - split; [by left|]. intros [?|(p & q & x & y & _ & Hp & _)]; done.
  - rewrite IH by (by apply square_connect_one).
    rewrite (entry_connect_one n) by done. split.
    + intros [[?|(y & Hy & Hc)]|(p & q & x & y & Hpq & Hp & Hq & -> & ->)].
      * by left.
      * right. apply list_elem_of_lookup in Hy as [q Hq].
        destruct Hc as [[-> ->]|[-> ->]].
        -- exists 0%nat, (S q), x0, y. done.
        -- exists (S q), 0%nat, y, x0. done.
      * right. exists (S p), (S q), x, y. split; [lia|done].
    + intros [?|(p & q & x & y & Hpq & Hp & Hq & -> & ->)]; [by left; left|].
      destruct p as [|p]; destruct q as [|q]; simpl in *; [done|..].
      * injection Hp as <-. left. right. exists y.
        split; [by eapply list_elem_of_lookup_2|by left].
      * injection Hq as <-. left. right. exists x.
        split; [by eapply list_elem_of_lookup_2|by right].
      * right. exists p, q, x, y. split; [lia|done].
Qed.

Lemma entry_build_graph tb i j :
  (i < length (int_to_name tb))%nat → (j < length (int_to_name tb))%nat →
  entry (build_graph tb) i j = 1
  ↔ ∃ m cast p q x y,
      movie_to_actor tb !! m = Some cast ∧ p ≠ q
      ∧ cast !! p = Some x ∧ cast !! q = Some y
      ∧ i = id_of (name_to_int tb) x ∧ j = id_of (name_to_int tb) y.
Proof.
  intros Hi Hj. unfold build_graph.
  set (n := length (int_to_name tb)) in *.
  apply (map_fold_weak_ind
    (λ g (mp : gmap string (list string)),
       square n g
       ∧ (entry g i j = 1
          ↔ ∃ m cast p q x y,
              mp !! m = Some cast ∧ p ≠ q
              ∧ cast !! p = Some x ∧ cast !! q = Some y
              ∧ i = id_of (name_to_int tb) x
              ∧ j = id_of (name_to_int tb) y))).
  - split; [apply square_zeros|]. rewrite entry_zeros by done. split; [done|].
    intros (m & cast & p & q & x & y & Hm & _). by rewrite lookup_empty in Hm.
  - intros m cast mp g Hfresh [Hsq IH].
    split; [by apply square_connect_cast|].
    rewrite (entry_connect_cast n) by done. rewrite IH. split.
    + intros [(m' & c' & p & q & x & y & Hm & Hrest)|
              (p & q & x & y & Hrest)].
      * exists m', c', p, q, x, y. split; [|done].
        rewrite lookup_insert_ne; [done|]. intros ->. congruence.
      * exists m, cast, p, q, x, y. by rewrite lookup_insert_eq.
    + intros (m' & c' & p & q & x & y & Hm & Hrest).
      apply lookup_insert_Some in Hm as [[<- <-]|[_ Hm]].
      * right. by exists p, q, x, y.
      * left. by exists m', c', p, q, x, y.
Qed.

Lemma co_star_registered tsv tb a b :
  read_tsv tsv = Returns tb → co_star tsv a b →
  is_Some (name_to_int tb !! a) ∧ is_Some (name_to_int tb !! b).
Proof.
  intros Htb (key & p & q & _ & Hp & Hq).
  pose proof (registry_read_tsv _ _ Htb) as [_ Hcast].
  assert (movie_to_actor tb !! key = Some (cast_of key tsv)) as Hk.
  { apply read_tsv_cast_inv; [done|]. intros Hnil. by rewrite Hnil in Hp. }
  split; eapply Hcast; try done; by eapply list_elem_of_lookup_2.
Qed.

Lemma build_graph_co_star tsv tb a b i j :
  read_tsv tsv = Returns tb →
  name_to_int tb !! a = Some i → name_to_int tb !! b = Some j →
  entry (build_graph tb) i j = 1 ↔ co_star tsv a b.
Proof.
  intros Htb Ha Hbj.
  pose proof (registry_read_tsv _ _ Htb) as Hreg.
  assert (i < length (int_to_name tb))%nat as Hi by (by eapply registry_id_lt).
  assert (j < length (int_to_name tb))%nat as Hj by (by eapply registry_id_lt).
  rewrite entry_build_graph by done. split.
  - intros (m & cast & p & q & x & y & Hm & Hpq & Hx & Hy & -> & ->).
    destruct Hreg as [Hinv Hcast].
    assert (∀ z u, z ∈ cast → name_to_int tb !! u
              = Some (id_of (name_to_int tb) z) → u = z) as Hsame.
    { intros z u Hz Hu. destruct (Hcast m cast z Hm Hz) as [k Hk].
      unfold id_of in Hu. rewrite Hk in Hu. simpl in Hu.
      apply Hinv in Hu, Hk. congruence. }
    apply Hsame in Ha; [|by eapply list_elem_of_lookup_2].
    apply Hsame in Hbj; [|by eapply list_elem_of_lookup_2]. subst.
    exists m, p, q. rewrite <- (read_tsv_cast tsv tb m cast) by done. done.
  - intros (key & p & q & Hpq & Hx & Hy).
    exists key, (cast_of key tsv), p, q, a, b.
    split.
    { apply read_tsv_cast_inv; [done|]. intros Hnil.
      by rewrite Hnil in Hx. }
    unfold id_of. by rewrite Ha, Hbj.
Qed.

(** X3.  The entry of [graph] for two registered actors is 1 exactly when
    the cast of some movie names the one and the other at two different
    positions, that is when two different data lines with the same movie key
    carry the two names; otherwise it is 0.  In particular the diagonal
    entry of an actor is 1 exactly when one cast names that actor twice. *)
Theorem graph_entry_co_star tsv targets g a b i j :
  Predictor.BuildStructures tsv targets = Returns g →
  Predictor.g_name_to_int g !! a = Some i →
  Predictor.g_name_to_int g !! b = Some j →
  (entry (Predictor.graph g) i j = 1 ↔ co_star tsv a b)
  ∧ (entry (Predictor.graph g) i j = 0 ↔ ¬ co_star tsv a b).
Proof.
  intros Hb Ha Hbj.
  destruct (BuildStructures_inv _ _ _ Hb) as (tb & Htb & Hreg & -> & Hp).
  simpl in *.
  assert (i < length (int_to_name tb))%nat as Hi by (by eapply registry_id_lt).
  assert (j < length (int_to_name tb))%nat as Hj by (by eapply registry_id_lt).
  pose proof (build_graph_co_star tsv tb a b i j Htb Ha Hbj) as Hone.
  split; [done|]. rewrite <- Hone.
  destruct Hp as (_ & _ & Hbin). destruct (Hbin i j Hi Hj) as [-> | ->]; lia.
Qed.

Lemma graph_entry_co_star_witness :
  entry [[0; 1; 1; 1]; [1; 0; 1; 0]; [1; 1; 0; 0]; [1; 0; 0; 0]] 1 3 = 0
  ↔ ¬ co_star Samples.scenario "B" "D".
Proof.
  destruct (graph_entry_co_star Samples.scenario []
              (Predictor.mkGlobals
                 {["A" := 0%nat; "B" := 1%nat; "C" := 2%nat; "D" := 3%nat]}
                 ["A"; "B"; "C"; "D"] []
                 [[0; 1; 1; 1]; [1; 0; 1; 0]; [1; 1; 0; 0]; [1; 0; 0; 0]])
              "B" "D" 1%nat 3%nat) as [_ Hzero].
  - vm_compute. reflexivity.
  - vm_compute. reflexivity.
  - vm_compute. reflexivity.
  - exact Hzero.
Defined.

(** X4.  After [BuildStructures] of popularityfinder, [counts[i]] is the
    number of distinct actors that share a cast with actor [i] (the actor
    itself is among them when one cast names it twice). *)
Theorem counts_co_stars tsv g a i :
  Popularity.BuildStructures tsv = Returns g →
  Popularity.g_name_to_int g !! a = Some i →
  ∃ l : list string,
    NoDup l ∧ (∀ b, b ∈ l ↔ co_star tsv a b)
    ∧ Popularity.counts g !!! i = Z.of_nat (length l).
Proof.
  intros Hb Ha.
  destruct (BuildStructures_tables _ _ Hb) as (tb & Htb & Hreg & -> & Hp).
  simpl in *. set (n := length (int_to_name tb)) in *.
  set (gr := build_graph tb) in *.
  assert (i < n)%nat as Hi by (by eapply registry_id_lt).
  destruct (first_counts_spec n gr Hp) as [_ Hdeg].
  pose proof (registry_NoDup tb Hreg) as Hnd.
  exists ((int_to_name tb !!!.)
            <$> filter (λ j, entry gr i j ≠ 0) (seq 0 n)).
  split; [|split].
  - apply NoDup_fmap_2_strong; [|apply NoDup_filter, NoDup_seq].
    intros x y Hx Hy Heq.
    apply list_elem_of_filter in Hx as [_ Hx], Hy as [_ Hy].
    apply elem_of_seq in Hx, Hy.
    destruct (lookup_lt_is_Some_2 (int_to_name tb) x) as [nx Hnx]; [lia|].
    destruct (lookup_lt_is_Some_2 (int_to_name tb) y) as [ny Hny]; [lia|].
    rewrite (list_lookup_total_correct _ _ _ Hnx) in Heq.
    rewrite (list_lookup_total_correct _ _ _ Hny) in Heq. subst ny.
    by eapply NoDup_lookup.
  - intros b. rewrite list_elem_of_fmap. split.
    + intros (j & -> & Hj). apply list_elem_of_filter in Hj as [He Hj].
      apply elem_of_seq in Hj.
      destruct (lookup_lt_is_Some_2 (int_to_name tb) j) as [nj Hnj]; [lia|].
      rewrite (list_lookup_total_correct _ _ _ Hnj).
      apply (build_graph_co_star tsv tb a nj i j); [done..| |].
      * by apply Hreg.
      * destruct Hp as (_ & _ & Hbin).
        destruct (Hbin i j) as [?|?]; [done|lia|done|done].
    + intros Hco.
      destruct (co_star_registered _ _ _ _ Htb Hco) as [_ [j Hj]].
      exists j. split.
      * apply Hreg in Hj. by rewrite (list_lookup_total_correct _ _ _ Hj).
      * apply list_elem_of_filter. split.
        -- apply (build_graph_co_star tsv tb a b i j) in Hco; [|done..].
           fold gr in Hco. lia.
        -- apply elem_of_seq. pose proof (registry_id_lt _ _ _ Hreg Hj). lia.
  - rewrite length_fmap. by apply Hdeg.
Qed.

Lemma counts_co_stars_witness :
  ∃ l : list string,
    NoDup l ∧ (∀ b, b ∈ l ↔ co_star Samples.scenario "A" b)
    ∧ [3; 2; 2; 1] !!! 0%nat = Z.of_nat (length l).
Proof.
  refine (counts_co_stars Samples.scenario
            (Popularity.mkGlobals
               {["A" := 0%nat; "B" := 1%nat; "C" := 2%nat; "D" := 3%nat]}
               ["A"; "B"; "C"; "D"]
               [[0; 1; 1; 1]; [1; 0; 1; 0]; [1; 1; 0; 0]; [1; 0; 0; 0]]
               [3; 2; 2; 1]) "A" 0%nat _ _).
  - vm_compute. reflexivity.
  - vm_compute. reflexivity.
Defined.

End EdgeFacts.

Module PruneFacts.
Import Cxx Projection Popularity GraphSpec PruneSpec.
Import ProjectionFacts PredictorFacts PopularityFacts TableFacts.

Lemma closed_member_stays g k (T : gset nat) (c : list Z) i :
  length g = length c → closed g k T → counted g k c →
  (∀ t, t ∈ T → alive c t) →
  (i < length c)%nat → alive c i → c !!! i < k → i ∉ T.
Proof.
  intros Hg Hcl [Hdeg _] Hsub Hi Hai Hlow HiT.
  destruct (Hcl i HiT) as [_ Hk].
  rewrite (Hdeg i Hi Hai) in Hlow.
  unfold degree_within in Hk. unfold alive_degree in Hlow. rewrite Hg in Hk.
  pose proof (count_mono (λ j, j ∈ T ∧ entry g i j ≠ 0)
                (λ j, alive c j ∧ entry g i j ≠ 0) (seq 0 (length c))) as Hm.
  cbv beta in Hm.
  assert (∀ x, x ∈ seq 0 (length c) →
            x ∈ T ∧ entry g i x ≠ 0 → alive c x ∧ entry g i x ≠ 0)
    as Himp.
  { intros j _ (HjT & He). split; [by apply Hsub|done]. }
  specialize (Hm Himp). lia.
Qed.

Lemma prune_pass_keeps_closed g k (T : gset nat) (l : list nat) (c : list Z)
    b :
  (∀ a b, (a < length c)%nat → (b < length c)%nat →
          entry g a b = entry g b a) →
  length g = length c → closed g k T → counted g k c →
  (∀ i, i ∈ l → (i < length c)%nat) →
  (∀ t, t ∈ T → alive c t) →
  ∀ t, t ∈ T → alive (foldl (prune_vertex g k) (c, b) l).1 t.
Proof.
  revert c b. induction l as [|i l IH]; intros c b Hsym Hg Hcl Hcnt Hl Hsub;
    [done|].
  cbn [foldl].
  assert (i < length c)%nat as Hi by (apply Hl; left).
  assert (prune_vertex g k (c, b) i
          = if (c !!! i <? k) && (- Z.of_nat (length c) <? c !!! i)
            then (remove_vertex g i c, true) else (c, b)) as ->
    by reflexivity.
  destruct ((c !!! i <? k) && (- Z.of_nat (length c) <? c !!! i)) eqn:Hrm.
  - apply andb_true_iff in Hrm as [Hlow Hai].
    apply Z.ltb_lt in Hlow, Hai.
    destruct (remove_vertex_step g k c i Hsym Hcnt Hi Hai Hlow)
      as (Hlen & Hcnt' & Halive & _).
    apply IH; try done.
    + by rewrite Hlen.
    + by rewrite Hlen.
    + intros j Hj. rewrite Hlen. apply Hl. by right.
    + intros t Ht. apply Halive.
      * destruct (Hcl t Ht) as [Hlt _]. by rewrite <- Hg.
      * split; [by apply Hsub|]. intros ->.
        by apply (closed_member_stays g k T c i).
  - apply IH; try done. intros j Hj. apply Hl. by right.
Qed.

Lemma prune_keeps_closed g k (T : gset nat) fuel (c c' : list Z) :
  (∀ a b, (a < length c)%nat → (b < length c)%nat →
          entry g a b = entry g b a) →
  length g = length c → closed g k T → counted g k c →
  (∀ t, t ∈ T → alive c t) →
  prune fuel g k c = Returns c' →
  ∀ t, t ∈ T → alive c' t.
Proof.
  revert c. induction fuel as [|fuel IH];
    intros c Hsym Hg Hcl Hcnt Hsub Hrun; [done|].
  cbn [prune] in Hrun.
  destruct (prune_pass_spec g k c Hsym Hcnt) as (Hlen & Hcnt' & _ & _).
  pose proof (prune_pass_keeps_closed g k T (seq 0 (length c)) c false
                Hsym Hg Hcl Hcnt) as Hkeep.
  fold (prune_pass g k c) in Hkeep.
  destruct (prune_pass g k c) as [c1 not_done]. simpl in *.
  assert (∀ t, t ∈ T → alive c1 t) as Hsub1.
  { apply Hkeep; [|done]. intros i Hi. apply elem_of_seq in Hi. lia. }
  destruct not_done.
  - apply (IH c1); try done; by rewrite Hlen.
  - by injection Hrun as <-.
Qed.

Lemma prune_more_fuel fuel fuel' g k c c' :
  prune fuel g k c = Returns c' → (fuel ≤ fuel')%nat →
  prune fuel' g k c = Returns c'.
Proof.
  revert fuel' c. induction fuel as [|fuel IH]; intros fuel' c Hrun Hle;
    [done|].
  destruct fuel' as [|fuel']; [lia|]. cbn [prune] in *.
  destruct (prune_pass g k c) as [c1 [|]]; [|done].
  apply IH; [done|lia].
Qed.

(** The run of the loop from the first counts of a matrix that the pairing
    loops built. *)
Lemma prune_result n g k fuel :
  projected n g → (n < fuel)%nat →
  ∃ c', prune fuel g k (first_counts g n) = Returns c'
        ∧ length c' = n
        ∧ (∀ i, i ∈ survivors k c' ↔ (i < n)%nat ∧ alive c' i)
        ∧ closed g k (survivors k c')
        ∧ (∀ T, closed g k T → T ⊆ survivors k c').
Proof.
  intros Hp Hfuel.
  destruct (first_counts_spec n g Hp) as [Hlen0 _].
  destruct (first_counts_counted n g k Hp) as [Hcnt0 Hall0].
  assert (length g = n) as Hg by apply Hp.
  assert (∀ a b, (a < length (first_counts g n))%nat →
                 (b < length (first_counts g n))%nat →
                 entry g a b = entry g b a) as Hsym.
  { rewrite Hlen0. apply Hp. }
  destruct (prune_terminates g k fuel (first_counts g n) Hsym Hcnt0)
    as (c' & Hrun & Hlen & [Hdeg Hdead] & Hfin).
  { unfold alive_count. rewrite Hlen0.
    pose proof (length_filter (alive (first_counts g n)) (seq 0 n)) as Hle.
    rewrite length_seq in Hle. lia. }
  rewrite Hlen0 in Hlen, Hfin.
  assert (∀ i, i ∈ survivors k c' ↔ (i < n)%nat ∧ alive c' i) as Hsurv.
  { intros i. rewrite elem_of_survivors, Hlen. split; intros [Hi Hx].
    - split; [done|]. destruct (decide (alive c' i)) as [|Hno]; [done|].
      specialize (Hdead i). rewrite Hlen in Hdead. specialize (Hdead Hi Hno).
      lia.
    - split; [done|]. by apply Hfin. }
  exists c'. split; [done|]. split; [done|]. split; [done|]. split.
  - intros i Hi. apply Hsurv in Hi as [Hi Hai]. split; [by rewrite Hg|].
    transitivity (c' !!! i); [by apply Hfin|].
    rewrite Hdeg by (by rewrite ?Hlen). unfold alive_degree, degree_within.
    rewrite Hlen, Hg. apply Nat2Z.inj_le. apply count_mono.
    intros j Hj [Haj He]. apply elem_of_seq in Hj.
    split; [apply Hsurv; split; [lia|done]|done].
  - intros T Hcl i Hi. apply Hsurv.
    destruct (Hcl i Hi) as [Hlt _]. split; [by rewrite <- Hg|].
    apply (prune_keeps_closed g k T fuel (first_counts g n) c'); try done.
    + by rewrite Hlen0.
    + intros t Ht. apply Hall0. destruct (Hcl t Ht) as [Hlt' _].
      by rewrite <- Hg.
Qed.

Lemma main_unfold fuel tsv k_arg k g :
  stoi k_arg = Returns k → BuildStructures tsv = Returns g →
  main fuel tsv k_arg
  = counts' ← prune fuel (graph g) k (counts g);
    Returns (header :: sort String.ltb (kept k counts' (g_int_to_name g))).
Proof. intros Hk Hb. unfold main. by rewrite Hk, Hb. Qed.

Lemma names_of_survivors k (c : list Z) (i2n : list string) :
  sort String.ltb (kept k c i2n)
  ≡ₚ (i2n !!!.) <$> elements (survivors k c).
Proof.
  destruct (sorted_names (kept k c i2n)) as [_ ->].
  rewrite kept_spec. apply fmap_Permutation.
  unfold survivors. rewrite elements_list_to_set; [done|].
  apply NoDup_filter, NoDup_seq.
Qed.

(** X5.  On every dataset the pruning loop ends within one round more than
    there are actors.  The vertices whose names are written form the largest
    set in which each member's row has at least [k] non-zero entries in the
    columns of the set (the member's own diagonal entry counts): the set is
    closed in this sense and contains every closed set.  The names are
    written in lexicographic order after the header. *)
Theorem prune_greatest_closed tsv g k_arg k fuel :
  stoi k_arg = Returns k →
  BuildStructures tsv = Returns g →
  (length (g_int_to_name g) < fuel)%nat →
  ∃ (S : gset nat) names,
    main fuel tsv k_arg = Returns (header :: names)
    ∧ closed (graph g) k S
    ∧ (∀ T, closed (graph g) k T → T ⊆ S)
    ∧ names ≡ₚ (g_int_to_name g !!!.) <$> elements S
    ∧ StronglySorted String.le names.
Proof.
  intros Hk Hb Hfuel. rewrite (main_unfold fuel tsv k_arg k g Hk Hb).
  destruct (BuildStructures_tables _ _ Hb) as (tb & _ & _ & -> & Hp).
  simpl in *.
  destruct (prune_result _ _ k fuel Hp Hfuel)
    as (c' & Hrun & _ & _ & Hcl & Hmax).
  rewrite Hrun. simpl.
  exists (survivors k c'), (sort String.ltb (kept k c' (int_to_name tb))).
  split; [done|]. split; [done|]. split; [done|].
  split; [apply names_of_survivors|apply sorted_names].
Qed.

Lemma prune_greatest_closed_witness :
  ∃ (S : gset nat) names,
    main 5 Samples.scenario "2" = Returns (header :: names)
    ∧ closed [[0; 1; 1; 1]; [1; 0; 1; 0]; [1; 1; 0; 0]; [1; 0; 0; 0]] 2 S
    ∧ (∀ T, closed [[0; 1; 1; 1]; [1; 0; 1; 0]; [1; 1; 0; 0]; [1; 0; 0; 0]]
              2 T → T ⊆ S)
    ∧ names ≡ₚ (["A"; "B"; "C"; "D"] !!!.) <$> elements S
    ∧ StronglySorted String.le names.
Proof.
  refine (prune_greatest_closed Samples.scenario
            (mkGlobals
               {["A" := 0%nat; "B" := 1%nat; "C" := 2%nat; "D" := 3%nat]}
               ["A"; "B"; "C"; "D"]
               [[0; 1; 1; 1]; [1; 0; 1; 0]; [1; 1; 0; 0]; [1; 0; 0; 0]]
               [3; 2; 2; 1]) "2" 2 5 _ _ _).
  - vm_compute. reflexivity.
  - vm_compute. reflexivity.
  - vm_compute. lia.
Defined.

Lemma prune_pass_idle g k (l : list nat) (c : list Z) :
  (∀ i, i ∈ l → k ≤ c !!! i) →
  foldl (prune_vertex g k) (c, false) l = (c, false).
Proof.
  induction l as [|i l IH]; intros Hall; [done|]. cbn [foldl].
  assert (prune_vertex g k (c, false) i
          = if (c !!! i <? k) && (- Z.of_nat (length c) <? c !!! i)
            then (remove_vertex g i c, true) else (c, false)) as ->
    by reflexivity.
  assert ((c !!! i <? k) = false) as ->.
  { apply Z.ltb_ge. apply Hall. left. }
  simpl. apply IH. intros j Hj. apply Hall. by right.
Qed.

Lemma lookup_total_seq (l : list string) :
  (l !!!.) <$> seq 0 (length l) = l.
Proof.
  apply list_eq. intros i. rewrite list_lookup_fmap.
  destruct (decide (i < length l)%nat) as [Hi|Hi].
  - rewrite lookup_seq_lt by done. simpl.
    destruct (lookup_lt_is_Some_2 l i Hi) as [x Hx].
    by rewrite (list_lookup_total_correct _ _ _ Hx).
  - rewrite lookup_seq_ge by lia. simpl. symmetry.
    apply lookup_ge_None. lia.
Qed.

Lemma filter_all {A} (P : A → Prop) `{∀ x, Decision (P x)} (l : list A) :
  (∀ x, x ∈ l → P x) → filter P l = l.
Proof.
  induction l as [|x l IH]; intros Hall; [done|].
  rewrite filter_cons, decide_True by (apply Hall; left).
  f_equal. apply IH. intros y Hy. apply Hall. by right.
Qed.

Lemma degree_within_le g (S : gset nat) i :
  degree_within g S i ≤ Z.of_nat (length g).
Proof.
  unfold degree_within. apply Nat2Z.inj_le.
  etrans; [apply length_filter|]. by rewrite length_seq.
Qed.

Lemma closed_weaken g k k' (S : gset nat) :
  k ≤ k' → closed g k' S → closed g k S.
Proof.
  intros Hk Hcl i Hi. destruct (Hcl i Hi) as [Hlt Hdeg]. split; [done|lia].
Qed.

(** X6.  With a threshold of zero or less nothing is pruned: the first
    round of the loop already finds no vertex to delete, and the output is
    the header followed by the names of all registered actors in
    lexicographic order. *)
Theorem nonpositive_threshold_keeps_all tsv g k_arg k fuel :
  stoi k_arg = Returns k → k ≤ 0 →
  BuildStructures tsv = Returns g →
  prune (S fuel) (graph g) k (counts g) = Returns (counts g)
  ∧ main (S fuel) tsv k_arg
    = Returns (header :: sort String.ltb (g_int_to_name g)).
Proof.
  intros Hk Hle Hb. rewrite (main_unfold _ tsv k_arg k g Hk Hb).
  destruct (BuildStructures_tables _ _ Hb) as (tb & _ & _ & -> & Hp).
  cbn [graph counts g_int_to_name].
  set (n := length (int_to_name tb)). set (gr := build_graph tb).
  destruct (first_counts_spec n gr Hp) as [Hlen Hdeg].
  assert (∀ i, (i < n)%nat → k ≤ first_counts gr n !!! i) as Hall.
  { intros i Hi. rewrite Hdeg by done. lia. }
  assert (prune (S fuel) gr k (first_counts gr n)
          = Returns (first_counts gr n)) as Hrun.
  { cbn [prune]. unfold prune_pass. rewrite prune_pass_idle; [done|].
    intros i Hi. apply elem_of_seq in Hi. apply Hall. lia. }
  split; [done|]. rewrite Hrun. simpl. do 3 f_equal.
  rewrite kept_spec, Hlen, filter_all.
  - apply lookup_total_seq.
  - intros i Hi. apply elem_of_seq in Hi. apply Hall. lia.
Qed.

Lemma nonpositive_threshold_witness :
  prune 1 [[0; 1; 1; 1]; [1; 0; 1; 0]; [1; 1; 0; 0]; [1; 0; 0; 0]] 0
    [3; 2; 2; 1] = Returns [3; 2; 2; 1]
  ∧ main 1 Samples.scenario "0"
    = Returns (header :: sort String.ltb ["A"; "B"; "C"; "D"]).
Proof.
  refine (nonpositive_threshold_keeps_all Samples.scenario
            (mkGlobals
               {["A" := 0%nat; "B" := 1%nat; "C" := 2%nat; "D" := 3%nat]}
               ["A"; "B"; "C"; "D"]
               [[0; 1; 1; 1]; [1; 0; 1; 0]; [1; 1; 0; 0]; [1; 0; 0; 0]]
               [3; 2; 2; 1]) "0" 0 0 _ _ _).
  - vm_compute. reflexivity.
  - lia.
  - vm_compute. reflexivity.
Defined.

(** X7.  With a threshold above the number of registered actors every
    vertex is pruned and the output is the header alone. *)
Theorem threshold_above_size_keeps_none tsv g k_arg k fuel :
  stoi k_arg = Returns k →
  BuildStructures tsv = Returns g →
  Z.of_nat (length (g_int_to_name g)) < k →
  (length (g_int_to_name g) < fuel)%nat →
  main fuel tsv k_arg = Returns [header].
Proof.
  intros Hk Hb Hbig Hfuel. rewrite (main_unfold fuel tsv k_arg k g Hk Hb).
  destruct (BuildStructures_tables _ _ Hb) as (tb & _ & _ & -> & Hp).
  simpl in *.
  destruct (prune_result _ _ k fuel Hp Hfuel)
    as (c' & Hrun & _ & _ & Hcl & _).
  rewrite Hrun. simpl. do 2 f_equal.
  rewrite kept_spec, filter_none; [done|].
  intros i Hi Hkeep. apply elem_of_seq in Hi.
  destruct (Hcl i) as [_ Hdeg].
  { apply elem_of_survivors. split; [lia|done]. }
  pose proof (degree_within_le (build_graph tb) (survivors k c') i) as Hle.
  assert (length (build_graph tb) = length (int_to_name tb)) by apply Hp.
  lia.
Qed.

Lemma threshold_above_size_witness :
  main 5 Samples.scenario "5" = Returns [header].
Proof.
  refine (threshold_above_size_keeps_none Samples.scenario
            (mkGlobals
               {["A" := 0%nat; "B" := 1%nat; "C" := 2%nat; "D" := 3%nat]}
               ["A"; "B"; "C"; "D"]
               [[0; 1; 1; 1]; [1; 0; 1; 0]; [1; 1; 0; 0]; [1; 0; 0; 0]]
               [3; 2; 2; 1]) "5" 5 5 _ _ _ _).
  - vm_compute. reflexivity.
  - vm_compute. reflexivity.
  - vm_compute. reflexivity.
  - vm_compute. lia.
Defined.

Lemma main_names fuel tsv g k_arg k names :
  stoi k_arg = Returns k → BuildStructures tsv = Returns g →
  main fuel tsv k_arg = Returns (header :: names) →
  ∃ c', prune (fuel + S (length (g_int_to_name g))) (graph g) k (counts g)
        = Returns c'
        ∧ ∀ a, a ∈ names
               ↔ ∃ i, i ∈ survivors k c' ∧ a = g_int_to_name g !!! i.
Proof.
  intros Hk Hb Hmain. rewrite (main_unfold fuel tsv k_arg k g Hk Hb) in Hmain.
  destruct (prune fuel (graph g) k (counts g)) as [c'| | |] eqn:Hrun;
    try done.
  simpl in Hmain. injection Hmain as <-. exists c'. split.
  - eapply prune_more_fuel; [done|lia].
  - intros a. rewrite names_of_survivors, list_elem_of_fmap.
    split; intros (i & Hi & Ha); exists i; set_solver.
Qed.

(** X8.  Raising the threshold never adds a name: every actor written for
    the threshold [k'] is written for each smaller threshold [k] too. *)
Theorem larger_threshold_keeps_fewer tsv k_arg k_arg' k k' fuel names names' :
  stoi k_arg = Returns k → stoi k_arg' = Returns k' → k ≤ k' →
  main fuel tsv k_arg = Returns (header :: names) →
  main fuel tsv k_arg' = Returns (header :: names') →
  names' ⊆ names.
Proof.
  intros Hk Hk' Hle Hm Hm' a Ha.
  assert (∃ g, BuildStructures tsv = Returns g) as [g Hb].
  { unfold main in Hm. rewrite Hk in Hm. simpl in Hm.
    destruct (BuildStructures tsv) as [g| | |]; try done. by exists g. }
  destruct (main_names _ _ _ _ _ _ Hk Hb Hm) as (c & Hrun & Hn).
  destruct (main_names _ _ _ _ _ _ Hk' Hb Hm') as (c' & Hrun' & Hn').
  destruct (BuildStructures_tables _ _ Hb) as (tb & _ & _ & Hg & Hp).
  subst g. simpl in *.
  set (fuel' := (fuel + S (length (int_to_name tb)))%nat) in *.
  assert (length (int_to_name tb) < fuel')%nat as Hfuel by (unfold fuel'; lia).
  destruct (prune_result _ _ k fuel' Hp Hfuel)
    as (c1 & Hrun1 & _ & _ & _ & Hmax).
  destruct (prune_result _ _ k' fuel' Hp Hfuel)
    as (c2 & Hrun2 & _ & _ & Hcl & _).
  rewrite Hrun in Hrun1. injection Hrun1 as <-.
  rewrite Hrun' in Hrun2. injection Hrun2 as <-.
  destruct (proj1 (Hn' a) Ha) as (i & Hi & Hi').
  apply Hn. exists i. split; [|done].
  apply (Hmax (survivors k' c')); [|done]. by eapply closed_weaken.
Qed.

Lemma larger_threshold_witness :
  Forall (λ a, a ∈ ["A"; "B"; "C"; "D"]) ["A"; "B"; "C"].
Proof.
  apply Forall_forall.
  refine (larger_threshold_keeps_fewer Samples.scenario "1" "2" 1 2 5
            ["A"; "B"; "C"; "D"] ["A"; "B"; "C"] _ _ _ _ _).
  - vm_compute. reflexivity.
  - vm_compute. reflexivity.
  - lia.
  - vm_compute. reflexivity.
  - vm_compute. reflexivity.
Defined.

End PruneFacts.

Module RankingFacts.
Import Cxx Projection Predictor GraphSpec.
Import ProjectionFacts PredictorFacts TableFacts.

(** X9.  [compare] is a strict total order on the pairs of a count and a
    name: no pair is before itself, two pairs are never each before the
    other, the relation is transitive, and of two different pairs one is
    before the other.  So the sorted vector is determined by the set of its
    entries, whatever algorithm [sort] runs. *)
Theorem compare_strict_total_order :
  (∀ x, compare x x = false)
  ∧ (∀ x y, compare x y = true → compare y x = false)
  ∧ (∀ x y z, compare x y = true → compare y z = true → compare x z = true)
  ∧ (∀ x y, compare x y = false → compare y x = false → x = y).
Proof.
  split; [|split; [|split]].
  - intros x. destruct (compare x x) eqn:Hc; [|done].
    by rewrite (compare_asym _ _ Hc) in Hc.
  - apply compare_asym.
  - intros x y z Hxy Hyz. destruct (compare x z) eqn:Hxz; [done|].
    pose proof (compare_asym _ _ Hyz) as Hzy.
    assert (rank_le y x) as Hyx by (by eapply rank_le_trans).
    unfold rank_le in Hyx. congruence.
  - intros [x1 x2] [y1 y2] Hxy Hyx.
    apply (rank_le_alt (y1, y2) (x1, x2)) in Hxy.
    apply (rank_le_alt (x1, x2) (y1, y2)) in Hyx. simpl in *.
    destruct Hxy as [?|[-> Hle1]]; destruct Hyx as [?|[? Hle2]]; try lia.
    f_equal. by apply (anti_symm String.le).
Qed.

Lemma interactions_known neighbor gr i2n (n2i : gmap string nat) targets :
  (∀ a, a ∈ targets → ∃ u, n2i !! a = Some u ∧ (u < length gr)%nat) →
  interactions neighbor gr i2n n2i targets
  = Returns ((λ a, write_names 0 (ranked gr i2n (id_of n2i a) neighbor))
               <$> targets, n2i).
Proof.
  induction targets as [|a rest IH]; intros Hall; [done|].
  destruct (Hall a) as (u & Hu & Hlt); [left|].
  cbn [interactions].
  rewrite (interactions_of_known neighbor gr i2n n2i a u Hu Hlt). simpl.
  rewrite IH by (intros b Hb; apply Hall; by right). simpl.
  unfold id_of. by rewrite Hu.
Qed.

(** X10.  When every target name is registered, each of the two calls of
    [FindInteractions] writes the header and then exactly one line per
    target, in the order of the targets file; the line of a target depends
    on that target alone, and neither call changes the file-level
    variables. *)
Theorem one_line_per_target tsv targets g :
  BuildStructures tsv targets = Returns g →
  (∀ a, a ∈ targets → is_Some (g_name_to_int g !! a)) →
  ∃ interact collab,
    main tsv targets = Returns (header :: interact, header :: collab)
    ∧ FindInteractions true g = Returns (header :: interact, g)
    ∧ FindInteractions false g = Returns (header :: collab, g)
    ∧ length interact = length targets
    ∧ length collab = length targets
    ∧ ∀ p a, targets !! p = Some a →
        ∃ u, g_name_to_int g !! a = Some u
             ∧ interact !! p
               = Some (write_names 0
                         (ranked (graph g) (g_int_to_name g) u true))
             ∧ collab !! p
               = Some (write_names 0
                         (ranked (graph g) (g_int_to_name g) u false)).
Proof.
  intros Hb Hknown.
  destruct (BuildStructures_inv _ _ _ Hb) as (tb & Htb & Hreg & Hg & Hp).
  assert (∀ a, a ∈ targets →
            ∃ u, name_to_int tb !! a = Some u
                 ∧ (u < length (build_graph tb))%nat) as Hall.
  { intros a Ha. destruct (Hknown a Ha) as [u Hu]. subst g. simpl in Hu.
    exists u. split; [done|].
    destruct Hp as ([-> _] & _). by eapply registry_id_lt. }
  assert (∀ neighbor,
            FindInteractions neighbor g
            = Returns (header ::
                         ((λ a, write_names 0
                                  (ranked (build_graph tb) (int_to_name tb)
                                     (id_of (name_to_int tb) a) neighbor))
                            <$> targets), g)) as Hfind.
  { intros neighbor. subst g. unfold FindInteractions. simpl.
    by rewrite interactions_known. }
  eexists _, _. split; [|split; [apply Hfind|split; [apply Hfind|]]].
  - unfold main. rewrite Hb. simpl. rewrite (Hfind true). simpl.
    by rewrite (Hfind false).
  - rewrite !length_fmap. split; [done|]. split; [done|].
    intros p a Hpa.
    destruct (Hall a) as (u & Hu & _); [by eapply list_elem_of_lookup_2|].
    exists u. subst g. simpl. split; [done|].
    rewrite !list_lookup_fmap, Hpa. simpl. unfold id_of. by rewrite Hu.
Qed.

Lemma one_line_per_target_witness :
  ∃ interact collab,
    main Samples.scenario ["A"; "D"]
    = Returns (header :: interact, header :: collab)
    ∧ length interact = 2%nat ∧ length collab = 2%nat.
Proof.
  destruct (one_line_per_target Samples.scenario ["A"; "D"]
              (mkGlobals
                 {["A" := 0%nat; "B" := 1%nat; "C" := 2%nat; "D" := 3%nat]}
                 ["A"; "B"; "C"; "D"] ["A"; "D"]
                 [[0; 1; 1; 1]; [1; 0; 1; 0]; [1; 1; 0; 0]; [1; 0; 0; 0]]))
    as (interact & collab & Hmain & _ & _ & Hl1 & Hl2 & _).
  - vm_compute. reflexivity.
  - intros a Ha. apply elem_of_cons in Ha as [->|Ha]; [by eexists|].
    apply elem_of_cons in Ha as [->|Ha]; [by eexists|].
    by apply elem_of_nil in Ha.
  - exists interact, collab. split; [exact Hmain|]. split; [exact Hl1|exact Hl2].
Defined.

(** *** Shared neighbours on a matrix with a zero diagonal *)

Lemma filter_agree {A} (P Q : A → Prop) `{∀ x, Decision (P x)}
    `{∀ x, Decision (Q x)} (l : list A) :
  (∀ x, x ∈ l → P x ↔ Q x) → filter P l = filter Q l.
Proof.
  induction l as [|x l IH]; intros Hext; [done|].
  rewrite !filter_cons. rewrite IH by (intros y Hy; apply Hext; by right).
  apply decide_ext. apply Hext. left.
Qed.

Lemma mutual_shared n g u v :
  length g = n → loop_free n g → (u < n)%nat → (v < n)%nat →
  mutual g u v = shared g u v.
Proof.
  intros Hlen Hloop Hu Hv. unfold mutual, shared. do 2 f_equal.
  apply filter_agree. intros k _. split; [|tauto].
  intros [Huk Hvk]. split; [|split; [|done]].
  - intros ->. rewrite (Hloop u Hu) in Huk. discriminate.
  - intros ->. rewrite (Hloop v Hv) in Hvk. discriminate.
Qed.

Lemma qualifying_nominees n g i2n u neighbor :
  length g = n → loop_free n g → (u < n)%nat →
  qualifying g i2n u neighbor = nominees g i2n u neighbor.
Proof.
  intros Hlen Hloop Hu. unfold qualifying, nominees. rewrite Hlen.
  rewrite (filter_agree (qualifies g u neighbor) (nominee g u neighbor)).
  - apply list_fmap_ext. intros i v Hv.
    apply list_elem_of_lookup_2, list_elem_of_filter in Hv as [_ Hv].
    apply elem_of_seq in Hv.
    by rewrite (mutual_shared n) by (done || lia).
  - intros v Hv. apply elem_of_seq in Hv. unfold qualifies, nominee.
    by rewrite (mutual_shared n) by (done || lia).
Qed.

(** *** Targets in any order, registered or not *)

Lemma interactions_lines neighbor gr i2n (n2i0 n2i : gmap string nat)
    targets :
  (0 < length gr)%nat → n2i0 ⊆ n2i →
  (∀ a u, n2i !! a = Some u → (u < length gr)%nat) →
  ∃ lines n2i',
    interactions neighbor gr i2n n2i targets = Returns (lines, n2i')
    ∧ n2i0 ⊆ n2i'
    ∧ (∀ a u, n2i' !! a = Some u → (u < length gr)%nat)
    ∧ length lines = length targets
    ∧ ∀ p a u, targets !! p = Some a → n2i0 !! a = Some u →
        lines !! p = Some (write_names 0 (ranked gr i2n u neighbor)).
Proof.
  intros Hpos. revert n2i.
  induction targets as [|a rest IH]; intros n2i Hsub Hlt.
  - exists [], n2i. by repeat split.
  - cbn [interactions].
    assert (∃ u0 n2i1,
              interactions_of neighbor gr i2n n2i a
              = Returns (write_names 0 (ranked gr i2n u0 neighbor), n2i1)
              ∧ n2i0 ⊆ n2i1
              ∧ (∀ b u, n2i1 !! b = Some u → (u < length gr)%nat)
              ∧ (∀ u, n2i0 !! a = Some u → u0 = u))
      as (u0 & n2i1 & Hline & Hsub1 & Hlt1 & Hu0).
    { destruct (n2i !! a) as [u|] eqn:Ha.
      - exists u, n2i. split; [|split; [done|split; [done|]]].
        + apply interactions_of_known; [done|by eapply Hlt].
        + intros u' Hu'. apply (lookup_weaken _ _ _ _ Hu') in Hsub.
          congruence.
      - exists 0%nat, (<[a := 0%nat]> n2i).
        split; [|split; [|split]].
        + rewrite interactions_of_unknown by done.
          by rewrite (proj2 (Nat.ltb_lt _ _) Hpos).
        + etrans; [exact Hsub|]. by apply insert_subseteq.
        + intros b u. destruct (decide (b = a)) as [->|Hne].
          * rewrite lookup_insert_eq. by intros [= <-].
          * rewrite lookup_insert_ne by done. apply Hlt.
        + intros u' Hu'. apply (lookup_weaken _ _ _ _ Hu') in Hsub.
          congruence. }
    rewrite Hline. cbn [mbind outcome_bind].
    destruct (IH n2i1 Hsub1 Hlt1) as (lines & n2i' & Hrun & Hsub' & Hlt' & Hlen
                                      & Hlines).
    rewrite Hrun. cbn [mbind outcome_bind].
    exists (write_names 0 (ranked gr i2n u0 neighbor) :: lines), n2i'.
    split; [done|]. split; [done|]. split; [done|].
    split; [by rewrite !length_cons, Hlen|].
    intros [|p] b u Hp Hb.
    + injection Hp as <-. simpl. by rewrite (Hu0 u Hb).
    + simpl. by eapply Hlines.
Qed.

Lemma read_tsv_nonempty tsv tb :
  read_tsv tsv = Returns tb → tsv ≠ [] →
  (0 < length (int_to_name tb))%nat.
Proof.
  intros Hr Hne. destruct tsv as [|s rest]; [done|].
  pose proof Hr as Hr'. unfold read_tsv in Hr'. cbn [for_each] in Hr'.
  apply PathfinderFacts.bind_Returns in Hr' as (tb1 & H1 & _).
  destruct (read_line_inv _ _ _ H1) as (r0 & r1 & r2 & more & Htok).
  destruct (for_each_registers_all (s :: rest) no_tables tb s r0
              (r1 :: r2 :: more) Hr) as [u Hu]; [left|done|].
  pose proof (registry_id_lt tb r0 u (registry_read_tsv _ _ Hr) Hu). lia.
Qed.

(** The ranking as a whole.  When no cast of the data names an actor
    twice, the two output files hold the header and one line per target,
    and the line of every target that is an actor of the data, wherever it
    stands among the targets and whether or not the names before it are
    known, lists the first four of its nominees: the actors other than the
    target that are connected to it (predicted interactions) or are not
    (recommended collaborations) and have at least one common neighbour
    with it, a third actor connected to both, ordered by decreasing number
    of common neighbours and, among equals, by ascending name.  The target
    is never on its own line. *)
Theorem ranking_by_third_parties tsv tb targets :
  read_tsv tsv = Returns tb →
  tsv ≠ [] →
  (∀ m cast, movie_to_actor tb !! m = Some cast → NoDup cast) →
  ∃ interact collab,
    main tsv targets = Returns (header :: interact, header :: collab)
    ∧ length interact = length targets
    ∧ length collab = length targets
    ∧ ∀ p a u neighbor,
        targets !! p = Some a → int_to_name tb !! u = Some a →
        ∃ best : list (Z * string),
          best ≡ₚ nominees (build_graph tb) (int_to_name tb) u neighbor
          ∧ StronglySorted ranks_before best
          ∧ (if neighbor : bool then interact else collab) !! p
            = Some (tab_separated 0 (take 4 best).*2)
          ∧ a ∉ best.*2.
Proof.
  intros Htb Hne Hnd.
  pose proof (registry_read_tsv _ _ Htb) as Hreg.
  pose proof (projected_build_graph tb) as Hp.
  pose proof (loop_free_build_graph tb Hreg Hnd) as Hloop.
  set (n := length (int_to_name tb)) in *.
  set (gr := build_graph tb) in *.
  assert (length gr = n) as Hlen by apply Hp.
  assert (0 < length gr)%nat as Hpos.
  { rewrite Hlen. by eapply read_tsv_nonempty. }
  destruct (interactions_lines true gr (int_to_name tb) (name_to_int tb)
              (name_to_int tb) targets Hpos) as
    (interact & n2i1 & Hrun1 & Hsub1 & Hlt1 & Hlen1 & Hlines1); [done| |].
  { intros a u Hu. rewrite Hlen. by eapply registry_id_lt. }
  destruct (interactions_lines false gr (int_to_name tb) (name_to_int tb)
              n2i1 targets Hpos Hsub1 Hlt1) as
    (collab & n2i2 & Hrun2 & _ & _ & Hlen2 & Hlines2).
  exists interact, collab. split; [|split; [done|split; [done|]]].
  - unfold main, BuildStructures. rewrite Htb. cbn [mbind outcome_bind].
    unfold FindInteractions.
    cbn [graph g_int_to_name g_name_to_int actors].
    fold gr. rewrite Hrun1. cbn [mbind outcome_bind].
    cbn [graph g_int_to_name g_name_to_int actors].
    rewrite Hrun2. done.
  - intros p a u neighbor Hp' Hu.
    assert (name_to_int tb !! a = Some u) as Hid by (by apply Hreg).
    assert (u < n)%nat as Hun by (by eapply registry_id_lt).
    destruct (ranked_line tb u neighbor Hreg Hun)
      as (best & Hperm & Hsorted & Hline & Hnotin).
    exists best. fold gr in Hperm, Hline.
    rewrite <- (qualifying_nominees n) by done.
    split; [done|]. split; [done|]. split.
    + rewrite <- Hline. destruct neighbor.
      * by eapply Hlines1.
      * by eapply Hlines2.
    + by rewrite <- (list_lookup_total_correct _ _ _ Hu).
Qed.

(** The theorem on the sample [scenario] for the targets X, which no record
    has, A and D; the line is the one recommended for D. *)
Lemma ranking_by_third_parties_witness :
  ∃ interact collab,
    main Samples.scenario ["X"; "A"; "D"]
    = Returns (header :: interact, header :: collab)
    ∧ length interact = 3%nat
    ∧ ∃ best : list (Z * string),
        best ≡ₚ nominees (build_graph Samples.scenario_tables)
                  (int_to_name Samples.scenario_tables) 3 false
        ∧ StronglySorted ranks_before best
        ∧ collab !! 2%nat = Some (tab_separated 0 (take 4 best).*2)
        ∧ "D" ∉ best.*2.
Proof.
  destruct (ranking_by_third_parties Samples.scenario Samples.scenario_tables
              ["X"; "A"; "D"])
    as (interact & collab & Hmain & Hl1 & _ & Hlines).
  - vm_compute. reflexivity.
  - discriminate.
  - apply (bool_decide_unpack
             (map_Forall (λ _ cast, NoDup cast)
                (movie_to_actor Samples.scenario_tables))).
    vm_compute. exact I.
  - exists interact, collab. split; [exact Hmain|]. split; [exact Hl1|].
    exact (Hlines 2%nat "D" 3%nat false eq_refl eq_refl).
Defined.

End RankingFacts.

Module LoadFacts.
Import Cxx ActorGraph PathSpec LoadSpec PathfinderFacts.

#[local] Arguments load_line : simpl never.
#[local] Arguments movies_of : simpl never.
#[local] Arguments players_of : simpl never.
#[local] Arguments years_of : simpl never.

Lemma parsed_Some line a m y :
  parsed line = Some (a, m, y) →
  ∃ r1 r2, tokenize line = [a; r1; r2] ∧ m = r1 +:+ "#@" +:+ r2
           ∧ stoi r2 = Returns y.
Proof.
  unfold parsed. intros Hp.
  destruct (tokenize line) as [|r0 [|r1 [|r2 [|??]]]]; try done.
  destruct (stoi r2) as [y'| | |] eqn:Hy; try done.
  injection Hp as -> <- ->. by exists r1, r2.
Qed.

Lemma parsed_None_load_line w st line :
  parsed line = None →
  load_line w st line = Returns (inl st)
  ∨ ∃ r0 r1 r2 what, tokenize line = [r0; r1; r2]
      ∧ stoi r2 = Throws what ∧ load_line w st line = Throws what.
Proof.
  unfold parsed. intros Hp.
  destruct (decide (length (tokenize line) = 3%nat)) as [Hlen|Hlen];
    [|left; by apply load_line_malformed].
  destruct (tokenize line) as [|r0 [|r1 [|r2 [|??]]]] eqn:Htok; try done.
  right. exists r0, r1, r2.
  destruct (stoi r2) as [y'|what| |] eqn:Hy; try done.
  - exists what. split; [done|]. split; [done|].
    unfold load_line. destruct st as [am mm]. rewrite Htok, Hy. done.
  - unfold stoi in Hy.
    destruct (skip_space r2) as [|c r]; simpl in Hy.
    + done.
    + unfold in_range in Hy.
      repeat (match type of Hy with
              | context [if ?b then _ else _] => destruct b
              | context [match ?x with _ => _ end] => destruct x
              end; try done).
  - unfold stoi in Hy.
    destruct (skip_space r2) as [|c r]; simpl in Hy.
    + done.
    + unfold in_range in Hy.
      repeat (match type of Hy with
              | context [if ?b then _ else _] => destruct b
              | context [match ?x with _ => _ end] => destruct x
              end; try done).
Qed.

Lemma movies_of_cons a s lines :
  movies_of a (s :: lines) = movies_of a [s] ++ movies_of a lines.
Proof.
  unfold movies_of. cbn [omap list_omap].
  by destruct (parsed s) as [[[??]?]|]; [case_decide|].
Qed.

Lemma players_of_cons m s lines :
  players_of m (s :: lines) = players_of m [s] ++ players_of m lines.
Proof.
  unfold players_of. cbn [omap list_omap].
  by destruct (parsed s) as [[[??]?]|]; [case_decide|].
Qed.

Lemma years_of_cons m s lines :
  years_of m (s :: lines) = years_of m [s] ++ years_of m lines.
Proof.
  unfold years_of. cbn [omap list_omap].
  by destruct (parsed s) as [[[??]?]|]; [case_decide|].
Qed.

Lemma movies_of_single a s :
  movies_of a [s]
  = match parsed s with
    | Some (a0, m, _) => if decide (a0 = a) then [m] else []
    | None => []
    end.
Proof.
  unfold movies_of. cbn [omap list_omap].
  by destruct (parsed s) as [[[??]?]|]; [case_decide|].
Qed.

Lemma players_of_single m s :
  players_of m [s]
  = match parsed s with
    | Some (a, m0, _) => if decide (m0 = m) then [a] else []
    | None => []
    end.
Proof.
  unfold players_of. cbn [omap list_omap].
  by destruct (parsed s) as [[[??]?]|]; [case_decide|].
Qed.

Lemma years_of_single m s :
  years_of m [s]
  = match parsed s with
    | Some (_, m0, y) => if decide (m0 = m) then [y] else []
    | None => []
    end.
Proof.
  unfold years_of. cbn [omap list_omap].
  by destruct (parsed s) as [[[??]?]|]; [case_decide|].
Qed.

(** The two maps after the reading loop, from any maps before it. *)
Lemma load_lines_tables w lines am mm :
  (∀ line, line ∈ lines → is_Some (parsed line)) →
  ∃ am' mm',
    load_lines w lines (am, mm) = Returns (inr (am', mm'))
    ∧ (∀ a, am' !! a
            = match am !! a with
              | Some l => Some (l ++ movies_of a lines)
              | None => if decide (movies_of a lines = []) then None
                        else Some (movies_of a lines)
              end)
    ∧ (∀ m, mm' !! m
            = match mm !! m with
              | Some (wt, c) => Some (wt, c ++ players_of m lines)
              | None => (λ y, (weight_of w y, players_of m lines))
                          <$> head (years_of m lines)
              end).
Proof.
  revert am mm. induction lines as [|s lines IH]; intros am mm Hall.
  - exists am, mm. split; [done|]. split.
    + intros a. destruct (am !! a); [by rewrite app_nil_r|done].
    + intros m. destruct (mm !! m) as [[wt c]|]; [by rewrite app_nil_r|done].
  - destruct (Hall s) as [[[a0 m0] y0] Hp]; [left|].
    destruct (parsed_Some _ _ _ _ Hp) as (r1 & r2 & Htok & -> & Hy).
    cbn [load_lines].
    rewrite (load_line_record w am mm s a0 r1 r2 y0 Htok Hy). simpl.
    set (key := r1 +:+ "#@" +:+ r2) in *.
    edestruct IH as (am' & mm' & Hrun & Ham & Hmm);
      [intros line Hl; apply Hall; by right|].
    exists am', mm'. split; [exact Hrun|]. split.
    + intros a. rewrite Ham, (movies_of_cons a s), movies_of_single, Hp.
      destruct (decide (a0 = a)) as [->|Hne].
      * rewrite lookup_insert_eq. simpl.
        destruct (am !! a); simpl; [by rewrite <- app_assoc|done].
      * rewrite lookup_insert_ne by done. done.
    + intros m. rewrite Hmm, (players_of_cons m s), (years_of_cons m s).
      rewrite players_of_single, years_of_single, Hp.
      destruct (decide (key = m)) as [<-|Hne].
      * rewrite lookup_insert_eq. simpl.
        destruct (mm !! key) as [[wt c]|]; simpl; [by rewrite <- app_assoc|].
        done.
      * rewrite lookup_insert_ne by done. done.
Qed.

Lemma load_lines_parsed w lines st st' :
  load_lines w lines st = Returns (inr st') →
  ∀ line, line ∈ lines → is_Some (parsed line).
Proof.
  revert st. induction lines as [|s lines IH]; intros st Hrun line Hl.
  - by apply elem_of_nil in Hl.
  - cbn [load_lines] in Hrun.
    destruct (parsed s) as [p|] eqn:Hp.
    + apply elem_of_cons in Hl as [->|Hl]; [by rewrite Hp|].
      destruct (load_line w st s) as [[?|st1]| | |]; try done.
      by eapply IH.
    + destruct (parsed_None_load_line w st s Hp)
        as [Hl1|(r0 & r1 & r2 & what & _ & _ & Hl1)];
        by rewrite Hl1 in Hrun.
Qed.

Lemma loadFromFile_true lines w g :
  loadFromFile empty lines w = Returns (true, g) →
  ∀ line, line ∈ lines → is_Some (parsed line).
Proof.
  unfold loadFromFile. intros Hl.
  destruct (load_lines w lines (actor_map empty, movie_map empty))
    as [[[am mm]|[am mm]]| | |] eqn:Hrun; try done.
  by eapply load_lines_parsed.
Qed.

Lemma loadFromFile_parsed lines w :
  (∀ line, line ∈ lines → is_Some (parsed line)) →
  ∃ g, loadFromFile empty lines w = Returns (true, g)
       ∧ (∀ a, actor_map g !! a
               = if decide (movies_of a lines = []) then None
                 else Some (movies_of a lines))
       ∧ (∀ m, movie_map g !! m
               = (λ y, (weight_of w y, players_of m lines))
                   <$> head (years_of m lines))
       ∧ (∀ a, vertices g !! a
               = if decide (movies_of a lines = []) then None
                 else Some (new_Vertex a)).
Proof.
  intros Hall.
  destruct (load_lines_tables w lines ∅ ∅ Hall) as (am & mm & Hrun & Ham & Hmm).
  unfold loadFromFile. simpl. rewrite Hrun. simpl.
  eexists. split; [done|]. simpl. split; [|split].
  - intros a. by rewrite Ham, lookup_empty.
  - intros m. by rewrite Hmm, lookup_empty.
  - intros a. rewrite (right_id_L ∅ (∪)), map_lookup_imap, Ham, lookup_empty.
    by destruct (decide (movies_of a lines = [])).
Qed.

(** X11.  When every line of the data file has exactly three fields and a
    year that [stoi] reads, [loadFromFile] returns true and leaves: under
    each actor the keys of that actor's records in file order, under each
    movie key the weight computed from the year of its first record and the
    actors of its records in file order, and one fresh vertex per actor.
    Conversely it returns true only for such files. *)
Theorem loadFromFile_tables lines w :
  ((∀ line, line ∈ lines → is_Some (parsed line))
   ↔ ∃ g, loadFromFile empty lines w = Returns (true, g))
  ∧ ∀ g, loadFromFile empty lines w = Returns (true, g) →
      (∀ a, actor_map g !! a
            = if decide (movies_of a lines = []) then None
              else Some (movies_of a lines))
      ∧ (∀ m, movie_map g !! m
              = (λ y, (weight_of w y, players_of m lines))
                  <$> head (years_of m lines))
      ∧ (∀ a, vertices g !! a
              = if decide (movies_of a lines = []) then None
                else Some (new_Vertex a)).
Proof.
  split.
  - split.
    + intros Hall. destruct (loadFromFile_parsed lines w Hall) as (g & Hg & _).
      by exists g.
    + intros [g Hg]. by eapply loadFromFile_true.
  - intros g Hg.
    destruct (loadFromFile_parsed lines w (loadFromFile_true _ _ _ Hg))
      as (g' & Hg' & Htab).
    rewrite Hg in Hg'. by injection Hg' as <-.
Qed.

Lemma loadFromFile_tables_witness :
  actor_map (Samples.loaded Samples.detour true) !! "B"
  = Some ["M1#@2009"; "M2#@2018"; "M3#@2018"]
  ∧ movie_map (Samples.loaded Samples.detour true) !! "M1#@2009"
    = Some (10, ["S"; "A"; "B"; "C"]).
Proof.
  destruct (proj2 (loadFromFile_tables Samples.detour true)
              (Samples.loaded Samples.detour true)) as (Ham & Hmm & _).
  - vm_compute. reflexivity.
  - split.
    + rewrite (Ham "B"). vm_compute. reflexivity.
    + rewrite (Hmm "M1#@2009"). vm_compute. reflexivity.
Defined.

(** X12.  A line with three fields whose third field [stoi] cannot read
    does not make [loadFromFile] return false: the exception of [stoi]
    leaves [loadFromFile], and [main], which has no handler, ends with it
    instead of the exit status -1. *)
Theorem unparsable_year_throws w pre bad post r0 r1 r2 what :
  (∀ line, line ∈ pre → is_Some (parsed line)) →
  tokenize bad = [r0; r1; r2] → stoi r2 = Throws what →
  loadFromFile empty (pre ++ bad :: post) w = Throws what
  ∧ ∀ fuel pairs, main fuel (pre ++ bad :: post) w pairs = Throws what.
Proof.
  intros Hpre Htok Hy.
  assert (loadFromFile empty (pre ++ bad :: post) w = Throws what) as Hload.
  { unfold loadFromFile. rewrite load_lines_app.
    destruct (load_lines_tables w pre ∅ ∅ Hpre) as (am & mm & Hrun & _).
    change (actor_map empty, movie_map empty)
      with ((∅, ∅) : gmap string (list string) * gmap string (Z * list string)).
    rewrite Hrun. cbn [mbind outcome_bind load_lines].
    assert (load_line w (am, mm) bad = Throws what) as ->; [|done].
    unfold load_line. by rewrite Htok, Hy. }
  split; [done|]. intros fuel pairs. unfold main. by rewrite Hload.
Qed.

Lemma unparsable_year_witness :
  loadFromFile empty
    ([Samples.row "S" "M1" "2000"] ++ Samples.row "A" "M1" "MM" :: []) true
  = Throws "stoi: invalid_argument"
  ∧ ∀ fuel pairs,
      main fuel
        ([Samples.row "S" "M1" "2000"] ++ Samples.row "A" "M1" "MM" :: [])
        true pairs
      = Throws "stoi: invalid_argument".
Proof.
  refine (unparsable_year_throws true [Samples.row "S" "M1" "2000"]
            (Samples.row "A" "M1" "MM") [] "A" "M1" "MM"
            "stoi: invalid_argument" _ _ _).
  - intros line Hl. apply list_elem_of_singleton in Hl as ->.
    vm_compute. eauto.
  - vm_compute. reflexivity.
  - vm_compute. reflexivity.
Defined.

Lemma elem_of_years_of m y lines :
  y ∈ years_of m lines ↔ ∃ line a, line ∈ lines ∧ parsed line = Some (a, m, y).
Proof.
  unfold years_of. rewrite list_elem_of_omap. split.
  - intros (line & Hl & Hp).
    destruct (parsed line) as [[[a m0] y0]|] eqn:Hq; [|done].
    case_decide; [|done]. injection Hp as ->. subst. by exists line, a.
  - intros (line & a & Hl & Hp). exists line. split; [done|].
    rewrite Hp. by rewrite decide_True.
Qed.

(** X13.  Without weighted edges every movie has the weight 1.  With
    weighted edges the weight of a movie is computed from the year of the
    first record filed under its key; when that year is at most 2018 (and
    not so small that the subtraction leaves the range of [int]) the weight
    is 2019 minus the year, hence at least 1. *)
Theorem movie_weights lines w g m wt cast :
  loadFromFile empty lines w = Returns (true, g) →
  movie_map g !! m = Some (wt, cast) →
  ∃ line a y,
    line ∈ lines ∧ parsed line = Some (a, m, y)
    ∧ head (years_of m lines) = Some y
    ∧ wt = (if w then wrap (wrap (2018 - y) + 1) else 1)
    ∧ (w = true → 2018 - INT_MAX < y → y ≤ 2018 → wt = 2019 - y ∧ 1 ≤ wt).
Proof.
  intros Hg Hm.
  destruct (loadFromFile_parsed lines w (loadFromFile_true _ _ _ Hg))
    as (g' & Hg' & _ & Hmm & _).
  rewrite Hg in Hg'. injection Hg' as <-.
  rewrite Hmm in Hm.
  destruct (head (years_of m lines)) as [y|] eqn:Hy; [|done].
  simpl in Hm. injection Hm as <- <-.
  assert (y ∈ years_of m lines) as Hin.
  { destruct (years_of m lines); [done|]. injection Hy as ->. left. }
  apply elem_of_years_of in Hin as (line & a & Hl & Hp).
  exists line, a, y. split; [done|]. split; [done|]. split; [done|].
  split; [done|]. intros -> Hlo Hhi. unfold weight_of, wrap, INT_MAX in *.
  assert (2018 - y = (2018 - y + 2 ^ 31) `mod` 2 ^ 32 - 2 ^ 31) as <-.
  { rewrite Z.mod_small; lia. }
  rewrite Z.mod_small; lia.
Qed.

Lemma movie_weights_witness :
  ∃ line a y,
    line ∈ Samples.detour ∧ parsed line = Some (a, "M1#@2009", y)
    ∧ head (years_of "M1#@2009" Samples.detour) = Some y
    ∧ 10 = (if true then wrap (wrap (2018 - y) + 1) else 1)
    ∧ (true = true → 2018 - INT_MAX < y → y ≤ 2018 → 10 = 2019 - y ∧ 1 ≤ 10).
Proof.
  refine (movie_weights Samples.detour true
            (Samples.loaded Samples.detour true) "M1#@2009" 10
            ["S"; "A"; "B"; "C"] _ _).
  - vm_compute. reflexivity.
  - vm_compute. reflexivity.
Defined.

End LoadFacts.

(** ** The queue keeps its elements *)

Module HeapFacts.
Import Cxx.

Section Heap.
Context {A : Type} `{Inhabited A} (comp : A → A → bool).

Lemma half_le (n : nat) : (2 * (n / 2) ≤ n)%nat.
Proof. apply Nat.Div0.mul_div_le. Qed.

Lemma half_even (n : nat) :
  Nat.even n = true → (2 ≤ n)%nat → (2 * ((n - 2) / 2 + 1) - 1 = n - 1)%nat.
Proof.
  intros He Hn. apply Nat.even_spec in He as [k ->].
  replace (2 * k - 2)%nat with ((k - 1) * 2)%nat by lia.
  rewrite Nat.div_mul by done. lia.
Qed.

(** Moving the hole from [i] to [j]. *)
Lemma move_hole (c : list A) i j v :
  i ≠ j → (i < length c)%nat → (j < length c)%nat →
  <[j := v]> (<[i := c !!! j]> c) ≡ₚ <[i := v]> c.
Proof.
  intros Hne Hi Hj.
  destruct (lookup_lt_is_Some_2 c j Hj) as [cj Hcj].
  rewrite (list_lookup_total_correct _ _ _ Hcj).
  rewrite <- (list_insert_insert_eq c i cj v).
  apply Permutation_insert_swap.
  - apply list_lookup_insert_eq. done.
  - rewrite list_lookup_insert_ne by done. done.
Qed.

Lemma push_heap_loop_length fuel (c : list A) hole top value :
  length (push_heap_loop comp fuel c hole top value) = length c.
Proof.
  revert c hole. induction fuel as [|fuel IH]; intros c hole; cbn [push_heap_loop]; cbv zeta.
  - by rewrite length_insert.
  - destruct ((top <? hole)%nat && comp (c !!! ((hole - 1) / 2)%nat) value).
    + by rewrite IH, length_insert.
    + by rewrite length_insert.
Qed.

Lemma push_heap_loop_frame fuel (c : list A) hole top value k :
  (hole < k)%nat →
  push_heap_loop comp fuel c hole top value !! k = c !! k.
Proof.
  revert c hole. induction fuel as [|fuel IH]; intros c hole Hk; cbn [push_heap_loop]; cbv zeta.
  - rewrite list_lookup_insert_ne; [done|lia].
  - destruct ((top <? hole)%nat && comp (c !!! ((hole - 1) / 2)%nat) value).
    + rewrite IH.
      * rewrite list_lookup_insert_ne; [done|lia].
      * pose proof (half_le (hole - 1)). lia.
    + rewrite list_lookup_insert_ne; [done|lia].
Qed.

Lemma push_heap_loop_Permutation fuel (c : list A) hole top value :
  (hole < length c)%nat →
  push_heap_loop comp fuel c hole top value ≡ₚ <[hole := value]> c.
Proof.
  revert c hole. induction fuel as [|fuel IH]; intros c hole Hh;
    cbn [push_heap_loop]; cbv zeta; [done|].
  destruct ((top <? hole)%nat && comp (c !!! ((hole - 1) / 2)%nat) value)
    eqn:Hc; [|done].
  apply andb_true_iff in Hc as [Hlt _]. apply Nat.ltb_lt in Hlt.
  pose proof (half_le (hole - 1)) as Hhalf.
  rewrite IH by (rewrite length_insert; lia).
  apply move_hole; lia.
Qed.

Lemma push_Permutation (c : list A) x : push comp c x ≡ₚ x :: c.
Proof.
  unfold push. rewrite push_heap_loop_Permutation by (rewrite length_app; simpl; lia).
  rewrite insert_app_r_alt by done. rewrite Nat.sub_diag. simpl.
  by rewrite Permutation_app_comm.
Qed.

Lemma adjust_down_spec fuel (c : list A) len hole :
  (len ≤ length c)%nat → (hole < len)%nat →
  ∃ c1 hole1,
    adjust_down comp fuel c len hole hole = (c1, hole1, hole1)
    ∧ (hole1 < len)%nat ∧ length c1 = length c
    ∧ (∀ k, (len ≤ k)%nat → c1 !! k = c !! k)
    ∧ ∀ v, <[hole1 := v]> c1 ≡ₚ <[hole := v]> c.
Proof.
  revert c hole. induction fuel as [|fuel IH]; intros c hole Hlen Hh;
    cbn [adjust_down]; cbv zeta.
  - by exists c, hole.
  - destruct (hole <? (len - 1) / 2)%nat eqn:Hlt; [|by exists c, hole].
    apply Nat.ltb_lt in Hlt. pose proof (half_le (len - 1)) as Hhalf.
    set (child2 := if comp (c !!! (2 * (hole + 1))%nat)
                        (c !!! (2 * (hole + 1) - 1)%nat)
                   then (2 * (hole + 1) - 1)%nat else (2 * (hole + 1))%nat).
    assert (hole < child2 ∧ child2 < len)%nat as [Hc1 Hc2].
    { unfold child2. destruct (comp _ _); lia. }
    destruct (IH (<[hole := c !!! child2]> c) child2)
      as (c1 & hole1 & Hrun & Hh1 & Hlen1 & Hframe & Hperm).
    { by rewrite length_insert. }
    { done. }
    exists c1, hole1. split; [exact Hrun|]. split; [done|].
    split; [by rewrite Hlen1, length_insert|]. split.
    + intros k Hk. rewrite Hframe by done.
      rewrite list_lookup_insert_ne; [done|lia].
    + intros v. rewrite Hperm. apply move_hole; lia.
Qed.

Lemma adjust_heap_spec (c : list A) len value :
  (1 ≤ len)%nat → (len ≤ length c)%nat →
  length (adjust_heap comp c len value) = length c
  ∧ (∀ k, (len ≤ k)%nat → adjust_heap comp c len value !! k = c !! k)
  ∧ adjust_heap comp c len value ≡ₚ <[0%nat := value]> c.
Proof.
  intros Hlen1 Hlen. unfold adjust_heap.
  destruct (adjust_down_spec len c len 0%nat)
    as (c1 & hole1 & -> & Hh1 & Hl1 & Hframe & Hperm); [done|lia|].
  destruct (Nat.even len && (hole1 =? (len - 2) / 2)%nat) eqn:Hc.
  - apply andb_true_iff in Hc as [He Heq]. apply Nat.eqb_eq in Heq.
    assert (2 ≤ len)%nat as Hlen2.
    { destruct len as [|[|?]]; [lia|done|lia]. }
    pose proof (half_even len He Hlen2) as Hlast. rewrite <- Heq in Hlast.
    pose proof (half_le (len - 2)) as Hhalf.
    rewrite Hlast.
    split; [by rewrite push_heap_loop_length, length_insert|]. split.
    + intros k Hk. rewrite push_heap_loop_frame by lia.
      rewrite list_lookup_insert_ne by lia. by apply Hframe.
    + rewrite push_heap_loop_Permutation by (rewrite length_insert; lia).
      rewrite <- Hperm. apply move_hole; lia.
  - split; [by rewrite push_heap_loop_length|]. split.
    + intros k Hk. rewrite push_heap_loop_frame by lia. by apply Hframe.
    + rewrite push_heap_loop_Permutation by lia. apply Hperm.
Qed.

Lemma pop_Permutation (c : list A) : pop comp c ≡ₚ tail c.
Proof.
  unfold pop. destruct (1 <? length c)%nat eqn:Hn.
  - apply Nat.ltb_lt in Hn.
    set (n := length c) in *.
    destruct (lookup_lt_is_Some_2 c 0%nat) as [c0 Hc0]; [lia|].
    destruct (lookup_lt_is_Some_2 c (n - 1)%nat) as [cl Hcl]; [lia|].
    rewrite (list_lookup_total_correct _ _ _ Hc0).
    rewrite (list_lookup_total_correct _ _ _ Hcl).
    destruct (adjust_heap_spec (<[(n - 1)%nat := c0]> c) (n - 1) cl)
      as (Hlen & Hframe & Hperm); [lia|rewrite length_insert; lia|].
    set (r := adjust_heap comp (<[(n - 1)%nat := c0]> c) (n - 1) cl) in *.
    rewrite length_insert in Hlen.
    assert (r !! (n - 1)%nat = Some c0) as Hlast.
    { rewrite Hframe by lia. apply list_lookup_insert_eq. lia. }
    assert (r ≡ₚ c) as Hrc.
    { rewrite Hperm. apply Permutation_insert_swap; done. }
    assert (r = take (n - 1) r ++ [c0]) as Hsplit.
    { rewrite <- (take_drop (n - 1) r) at 1. f_equal.
      apply list_eq. intros [|i].
      - rewrite lookup_drop, Nat.add_0_r. done.
      - rewrite lookup_drop. simpl. apply lookup_ge_None. fold n in Hlen. lia. }
    destruct c as [|x c']; [done|]. simpl in Hc0. injection Hc0 as ->.
    simpl. apply (Permutation_cons_inv (a := c0)).
    rewrite <- Hrc. rewrite Hsplit at 2.
    by rewrite Permutation_app_comm.
  - apply Nat.ltb_ge in Hn. destruct c as [|x [|y c']]; simpl in *; [done..|lia].
Qed.

Lemma elem_of_push (c : list A) x y : y ∈ push comp c x ↔ y = x ∨ y ∈ c.
Proof. rewrite push_Permutation. apply elem_of_cons. Qed.

Lemma length_push (c : list A) x : length (push comp c x) = S (length c).
Proof. by rewrite push_Permutation. Qed.

Lemma elem_of_pop (c : list A) y : y ∈ pop comp c ↔ y ∈ tail c.
Proof. by rewrite pop_Permutation. Qed.

Lemma length_pop (c : list A) : length (pop comp c) = pred (length c).
Proof. rewrite pop_Permutation. by destruct c. Qed.

End Heap.

End HeapFacts.

(** ** The search of [findPath] on a loaded graph *)

Module SearchFacts.
Import Cxx ActorGraph PathSpec LoadSpec SearchSpec.
Import PathfinderFacts LoadFacts HeapFacts.

Lemma wrap_small z : INT_MIN ≤ z ≤ INT_MAX → wrap z = z.
Proof.
  unfold wrap, INT_MIN, INT_MAX. intros Hz. rewrite Z.mod_small; lia.
Qed.

(** *** Counting and summing over the vertices *)

Lemma done_count_insert_same (vs : gmap string Vertex) k v v' :
  vs !! k = Some v → done v' = done v →
  done_count (<[k := v']> vs) = done_count vs.
Proof.
  intros Hk Hd. unfold done_count. destruct (done v) eqn:Hv.
  - rewrite map_filter_insert_True by done.
    apply map_size_insert_Some. exists v.
    by apply map_lookup_filter_Some.
  - rewrite map_filter_insert_not'; [done|simpl; congruence|].
    intros y Hy. rewrite Hk in Hy. injection Hy as <-. simpl. congruence.
Qed.

Lemma done_count_insert_done (vs : gmap string Vertex) k v v' :
  vs !! k = Some v → done v = false → done v' = true →
  done_count (<[k := v']> vs) = S (done_count vs).
Proof.
  intros Hk Hv Hd. unfold done_count.
  rewrite map_filter_insert_True by done.
  apply map_size_insert_None. apply map_lookup_filter_None. right.
  intros y Hy. rewrite Hk in Hy. injection Hy as <-. simpl. congruence.
Qed.

Lemma done_count_le (vs : gmap string Vertex) :
  (done_count vs ≤ size vs)%nat.
Proof. apply map_subseteq_size, map_filter_subseteq. Qed.

Lemma dist_sum_fresh (vs : gmap string Vertex) k v :
  vs !! k = None → dist_sum (<[k := v]> vs) = dist v + dist_sum vs.
Proof.
  intros Hk. unfold dist_sum.
  rewrite map_fold_insert_L; [done| |done]. intros. lia.
Qed.

Lemma dist_sum_insert (vs : gmap string Vertex) k v v' :
  vs !! k = Some v →
  dist_sum (<[k := v']> vs) = dist_sum vs - dist v + dist v'.
Proof.
  intros Hk.
  rewrite <- (insert_delete_id vs k v Hk) at 2.
  rewrite <- (insert_delete_eq vs k v').
  rewrite !dist_sum_fresh by apply lookup_delete_eq. lia.
Qed.

Lemma dist_sum_nonneg (vs : gmap string Vertex) :
  (∀ k v, vs !! k = Some v → 0 ≤ dist v) → 0 ≤ dist_sum vs.
Proof.
  induction vs as [|k v vs Hk IH] using map_ind; intros Hall.
  - done.
  - rewrite dist_sum_fresh by done.
    assert (0 ≤ dist v) by (apply (Hall k); apply lookup_insert_eq).
    assert (0 ≤ dist_sum vs); [|lia].
    apply IH. intros j u Hj. apply (Hall j).
    rewrite lookup_insert_ne; [done|]. intros ->. congruence.
Qed.

Lemma size_same_dom (vs vs' : gmap string Vertex) :
  dom vs = dom vs' → size vs = size vs'.
Proof. intros Hd. by rewrite <- !size_dom, Hd. Qed.

(** *** One relaxation *)

Lemma relax_self (vs : gmap string Vertex) q w vw movie wt :
  vs !! w = Some vw → name vw = w →
  relax w movie wt (vs, q) w = Returns (vs, q).
Proof.
  intros Hw Hn. unfold relax. rewrite Hw, Hn.
  by rewrite (proj2 (String.eqb_eq w w)).
Qed.

Lemma relax_other (vs : gmap string Vertex) q w vw movie wt adj a :
  vs !! w = Some vw → name vw = w → vs !! adj = Some a → adj ≠ w →
  INT_MIN ≤ dist vw + wt ≤ INT_MAX →
  relax w movie wt (vs, q) adj
  = if dist vw + wt <? dist a
    then
      let vs' := <[adj := mkVertex (dist vw + wt) (done a) w movie (name a)]>
                   vs in
      Returns (vs', push (comp_now vs') q adj)
    else Returns (vs, q).
Proof.
  intros Hw Hn Ha Hne Hr. unfold relax. rewrite Hw, Hn, Ha.
  rewrite (proj2 (String.eqb_neq adj w)) by done.
  by rewrite wrap_small.
Qed.

Lemma searching_seen_ext g W start end_name cur (Seen Seen' : string → Prop)
    st :
  (∀ b, Seen' b → Seen b) →
  searching g W start end_name cur Seen st →
  searching g W start end_name cur Seen' st.
Proof. intros Himp [???????? Hseen]. split; auto. Qed.

Lemma searching_seen_add g W start end_name cur (Seen : string → Prop) st b
    vb :
  s_vertices st !! b = Some vb → dist vb ≠ INT_MAX →
  searching g W start end_name cur Seen st →
  searching g W start end_name cur (λ x, Seen x ∨ x = b) st.
Proof.
  intros Hb Hfin [???????? Hseen]. split; auto.
  intros x [Hx| ->]; [auto|]. by exists vb.
Qed.

Lemma plays_in_true g a m movies wt cast :
  actor_map g !! a = Some movies → m ∈ movies →
  movie_map g !! m = Some (wt, cast) → a ∈ cast →
  plays_in g a m = true.
Proof.
  intros Ha Hm Hmm Hc. unfold plays_in. rewrite Ha, Hmm. simpl.
  apply andb_true_iff. split; by apply bool_decide_eq_true.
Qed.

Lemma relax_searching g W start end_name w (Seen : string → Prop)
    am mm vs q movies movie wt cast adj :
  consistent g W →
  searching g W start end_name (Some w) Seen (mkSearch am mm vs q) →
  actor_map g !! w = Some movies → movie ∈ movies →
  movie_map g !! movie = Some (wt, cast) → adj ∈ cast →
  ∃ vs' q',
    relax w movie wt (vs, q) adj = Returns (vs', q')
    ∧ searching g W start end_name (Some w) (λ b, Seen b ∨ b = adj)
        (mkSearch am mm vs' q')
    ∧ measure (mkSearch am mm vs' q') ≤ measure (mkSearch am mm vs q).
Proof.
  intros (Hc1 & Hc2 & Hcdom & Hcnamed & Hcempty & HW & Hsize) Hs Hw Hmovie
    Hmm Hadj.
  pose proof Hs as [Ham' Hmm' Hch Hpq Hdone Hopen Hclosed Hcur Hseen].
  pose proof Hch as [Hdom Hname Hstart Hdist Hprev Hroot].
  cbn [s_actor_map s_movie_map s_vertices pq] in *.
  destruct (Hcur w eq_refl) as (vw & Hvw & Hwdone & Hwbound).
  pose proof (Hname _ _ Hvw) as Hwname.
  destruct (Hdone _ _ Hvw Hwdone) as [Hwfin Hwend].
  destruct (Hdist _ _ Hvw) as [?|Hwrange]; [done|].
  destruct (decide (adj = w)) as [->|Hne].
  { exists vs, q. split; [by eapply relax_self|]. split; [|lia].
    by eapply searching_seen_add. }
  destruct (Hc2 _ _ _ _ Hmm Hadj) as (Hwt & movies' & Hadjm & Hmovie').
  destruct (Hc1 _ _ _ Hw Hmovie) as (wt' & cast' & Hmm2 & Hwcast).
  rewrite Hmm in Hmm2. injection Hmm2 as <- <-.
  assert (is_Some (vs !! adj)) as [a Ha].
  { apply elem_of_dom. rewrite Hdom, Hcdom. apply elem_of_dom. eauto. }
  pose proof (done_count_le vs) as Hdc.
  pose proof (size_same_dom _ _ Hdom) as Hsz.
  assert (W * Z.of_nat (done_count vs) < INT_MAX) as Hbound by nia.
  assert (0 ≤ dist vw + wt ≤ W * Z.of_nat (done_count vs)) as Hnew by lia.
  rewrite (relax_other vs q w vw movie wt adj a Hvw Hwname Ha Hne)
    by (unfold INT_MIN, INT_MAX in *; lia).
  destruct (dist vw + wt <? dist a) eqn:Hlt.
  2:{ apply Z.ltb_ge in Hlt. exists vs, q. split; [done|]. split; [|lia].
      eapply searching_seen_add; [exact Ha|lia|done]. }
  apply Z.ltb_lt in Hlt. cbv zeta.
  set (a' := mkVertex (dist vw + wt) (done a) w movie (name a)).
  set (vs' := <[adj := a']> vs).
  exists vs', (push (comp_now vs') q adj). split; [done|].
  assert (adj ≠ start) as Hns.
  { intros ->. destruct Hstart as (v0 & Hv0 & Hd0 & _).
    rewrite Ha in Hv0. injection Hv0 as ->. lia. }
  assert (w ≠ "") as Hwne.
  { intros ->. assert (is_Some (vertices g !! "")) as [? Hx]; [|congruence].
    apply elem_of_dom. rewrite <- Hdom. apply elem_of_dom. eauto. }
  assert (done_count vs' = done_count vs) as Hdc'
    by (by eapply done_count_insert_same).
  assert (∀ b vb, vs !! b = Some vb → dist vb ≠ INT_MAX →
            ∃ vb', vs' !! b = Some vb' ∧ dist vb' ≠ INT_MAX) as Hmono.
  { intros b vb Hb Hfin. unfold vs'. destruct (decide (b = adj)) as [->|Hb'].
    - exists a'. rewrite lookup_insert_eq. split; [done|]. simpl. lia.
    - exists vb. by rewrite lookup_insert_ne. }
  assert (∀ k v, vs' !! k = Some v →
            (k = adj ∧ v = a') ∨ (k ≠ adj ∧ vs !! k = Some v)) as Hcases.
  { intros k v Hk. unfold vs' in Hk.
    apply lookup_insert_Some in Hk as [[<- <-]|[? ?]]; auto. }
  split; [split|]; cbn [s_actor_map s_movie_map s_vertices pq];
    [done|done|..].
  - (* chained *)
    split.
    + unfold vs'. rewrite dom_insert_lookup_L; [done|eauto].
    + intros k v Hk. destruct (Hcases _ _ Hk) as [[-> ->]|[_ Hk']];
        [by apply (Hname adj a)|by apply Hname].
    + destruct Hstart as (v0 & Hv0 & Hd0 & Hp0). exists v0.
      unfold vs'. by rewrite lookup_insert_ne.
    + intros k v Hk. rewrite Hdc'.
      destruct (Hcases _ _ Hk) as [[-> ->]|[_ Hk']]; [right; simpl; lia|].
      by eapply Hdist.
    + intros k v Hk Hpne.
      destruct (Hcases _ _ Hk) as [[-> ->]|[Hkne Hk']]; simpl.
      * split; [lia|]. split; [by eapply plays_in_true|].
        split; [by eapply plays_in_true|].
        exists vw. unfold vs'. rewrite lookup_insert_ne by done.
        split; [done|lia].
      * destruct (Hprev _ _ Hk' Hpne) as (Hfin & Hp1 & Hp2 & p & Hp & Hpd).
        split; [done|]. split; [done|]. split; [done|].
        destruct (decide (prev_actor v = adj)) as [Heq|Hneq].
        -- exists a'. unfold vs'. rewrite Heq, lookup_insert_eq.
           split; [done|]. rewrite Heq, Ha in Hp. injection Hp as <-.
           simpl. lia.
        -- exists p. unfold vs'. by rewrite lookup_insert_ne.
    + intros k v Hk Hroot'.
      destruct (Hcases _ _ Hk) as [[-> ->]|[_ Hk']]; [done|].
      by eapply Hroot.
  - (* pq *)
    intros k Hk. apply elem_of_push in Hk as [->|Hk].
    + exists a'. unfold vs'. rewrite lookup_insert_eq. split; [done|].
      simpl. lia.
    + destruct (Hpq k Hk) as (v & Hv & Hfin). by eapply Hmono.
  - (* done *)
    intros k v Hk Hd. destruct (Hcases _ _ Hk) as [[-> ->]|[_ Hk']].
    + simpl in *. split; [lia|]. by apply (Hdone adj a).
    + by eapply Hdone.
  - (* open *)
    intros k v Hk Hfin. cbn [pq]. rewrite elem_of_push.
    destruct (Hcases _ _ Hk) as [[-> ->]|[_ Hk']]; [auto|].
    destruct (Hopen _ _ Hk' Hfin); auto.
  - (* closed *)
    intros k v Hk Hd Hcurne b Hb.
    assert (∃ v0, vs !! k = Some v0 ∧ done v0 = true) as (v0 & Hk0 & Hd0).
    { destruct (Hcases _ _ Hk) as [[-> ->]|[_ Hk']]; eauto. }
    destruct (Hclosed _ _ Hk0 Hd0 Hcurne b Hb) as (vb & Hvb & Hfin).
    by eapply Hmono.
  - (* cur *)
    intros w' Hw'. injection Hw' as <-. exists vw. rewrite Hdc'.
    unfold vs'. by rewrite lookup_insert_ne.
  - (* seen *)
    intros b [Hb| ->].
    + destruct (Hseen b Hb) as (vb & Hvb & Hfin). by eapply Hmono.
    + exists a'. unfold vs'. rewrite lookup_insert_eq. split; [done|].
      simpl. lia.
  - (* measure *)
    unfold measure. cbn [pq s_vertices]. rewrite length_push.
    unfold vs'. rewrite (dist_sum_insert vs adj a a' Ha). simpl. lia.
Qed.

(** *** The two loops over the movies and their casts *)

Lemma for_each_prefix {A S} (body : S → A → outcome S)
    (I : list A → S → Prop) (M : S → Z) (ok : A → Prop) l pre s :
  (∀ pre x s, I pre s → ok x →
     ∃ s', body s x = Returns s' ∧ I (pre ++ [x]) s' ∧ M s' ≤ M s) →
  (∀ x, x ∈ l → ok x) → I pre s →
  ∃ s', for_each body l s = Returns s' ∧ I (pre ++ l) s' ∧ M s' ≤ M s.
Proof.
  intros Hstep. revert pre s.
  induction l as [|x l IH]; intros pre s Hok Hpre.
  - exists s. rewrite app_nil_r. split; [done|]. split; [done|lia].
  - destruct (Hstep pre x s Hpre) as (s1 & Hb & H1 & Hm1); [apply Hok; left|].
    destruct (IH (pre ++ [x]) s1) as (s2 & Hrun & H2 & Hm2);
      [intros y Hy; apply Hok; by right|done|].
    exists s2. cbn [for_each]. rewrite Hb. simpl.
    split; [done|]. rewrite <- app_assoc in H2. split; [done|lia].
Qed.

Lemma explore_movie_searching g W start end_name w (Seen : string → Prop)
    st movies movie :
  consistent g W →
  searching g W start end_name (Some w) Seen st →
  actor_map g !! w = Some movies → movie ∈ movies →
  ∃ st',
    explore_movie w st movie = Returns st'
    ∧ searching g W start end_name (Some w)
        (λ b, Seen b ∨ ∃ wt cast, movie_map g !! movie = Some (wt, cast)
                                  ∧ b ∈ cast) st'
    ∧ measure st' ≤ measure st.
Proof.
  intros Hc Hs Hw Hmovie. destruct st as [am mm vs q].
  pose proof (se_am _ _ _ _ _ _ _ Hs) as Ham.
  pose proof (se_mm _ _ _ _ _ _ _ Hs) as Hmm.
  cbn [s_actor_map s_movie_map] in Ham, Hmm. subst am mm.
  destruct Hc as (Hc1 & Hc').
  destruct (Hc1 _ _ _ Hw Hmovie) as (wt & cast & Hmm & Hwcast).
  pose proof (conj Hc1 Hc' : consistent g W) as Hc.
  unfold explore_movie. cbn [s_movie_map s_vertices pq].
  unfold subscript. rewrite Hmm. cbn [fst snd]. rewrite Hmm. cbn [fst snd].
  destruct (for_each_prefix (relax w movie wt)
              (λ pre s, searching g W start end_name (Some w)
                          (λ b, Seen b ∨ b ∈ pre)
                          (mkSearch (actor_map g) (movie_map g) s.1 s.2))
              (λ s, measure (mkSearch (actor_map g) (movie_map g) s.1 s.2))
              (λ x, x ∈ cast) cast [] (vs, q))
    as ([vs' q'] & Hrun & Hs' & Hm').
  - intros pre x [vs1 q1] Hs1 Hx. cbn [fst snd] in *.
    destruct (relax_searching g W start end_name w _ _ _ vs1 q1 movies movie
                wt cast x Hc Hs1 Hw Hmovie Hmm Hx)
      as (vs2 & q2 & Hr & Hs2 & Hm2).
    exists (vs2, q2). split; [done|]. split; [|done]. cbn [fst snd].
    eapply searching_seen_ext; [|exact Hs2]. intros b [?|Hb]; [auto|].
    apply elem_of_app in Hb as [?|Hb]; [auto|].
    apply list_elem_of_singleton in Hb. auto.
  - done.
  - cbn [fst snd]. eapply searching_seen_ext; [|exact Hs].
    intros b [?|Hb]; [done|]. by apply elem_of_nil in Hb.
  - rewrite Hrun. cbn [mbind outcome_bind]. eexists. split; [done|].
    cbn [fst snd] in *. split; [|done].
    eapply searching_seen_ext; [|exact Hs']. intros b [?|(wt' & cast' & Hb & ?)].
    + by left.
    + right. by injection Hb as <- <-.
Qed.

Lemma explore_all_searching g W start end_name w st movies :
  consistent g W →
  searching g W start end_name (Some w) (λ _, False) st →
  actor_map g !! w = Some movies →
  ∃ st',
    for_each (explore_movie w) movies st = Returns st'
    ∧ searching g W start end_name (Some w) (adjacent g w) st'
    ∧ measure st' ≤ measure st.
Proof.
  intros Hc Hs Hw.
  destruct (for_each_prefix (explore_movie w)
              (λ pre st, searching g W start end_name (Some w)
                           (λ b, ∃ m wt cast, m ∈ pre
                              ∧ movie_map g !! m = Some (wt, cast)
                              ∧ b ∈ cast) st)
              measure (λ m, m ∈ movies) movies [] st)
    as (st' & Hrun & Hs' & Hm').
  - intros pre m st1 Hs1 Hm.
    destruct (explore_movie_searching g W start end_name w _ st1 movies m
                Hc Hs1 Hw Hm) as (st2 & Hr & Hs2 & Hm2).
    exists st2. split; [done|]. split; [|done].
    eapply searching_seen_ext; [|exact Hs2].
    intros b (m' & wt & cast & Hin & Hmm & Hb).
    apply elem_of_app in Hin as [Hin|Hin].
    + left. by exists m', wt, cast.
    + apply list_elem_of_singleton in Hin as ->. right. by exists wt, cast.
  - done.
  - eapply searching_seen_ext; [|exact Hs].
    intros b (m & _ & _ & Hin & _). by apply elem_of_nil in Hin.
  - exists st'. split; [done|]. split; [|done].
    eapply searching_seen_ext; [|exact Hs'].
    intros b (m & movies' & wt & cast & Hw' & Hin & Hmm & Hb).
    rewrite Hw in Hw'. injection Hw' as <-. by exists m, wt, cast.
Qed.

(** *** One round of the search loop *)

Lemma chained_dist_nonneg g W start vs k v :
  chained g W start vs → vs !! k = Some v → 0 ≤ dist v.
Proof.
  intros Hch Hk. destruct (ch_dist _ _ _ _ Hch k v Hk) as [->|?]; [done|lia].
Qed.

Lemma measure_nonneg g W start end_name cur Seen st :
  searching g W start end_name cur Seen st →
  Z.of_nat (length (pq st)) ≤ measure st.
Proof.
  intros Hs. unfold measure.
  assert (0 ≤ dist_sum (s_vertices st)); [|lia].
  apply dist_sum_nonneg. intros k v Hk.
  eapply chained_dist_nonneg; [|done]. by eapply se_chained.
Qed.

Lemma searching_pop g W start end_name am mm vs top rest w comp :
  searching g W start end_name None (λ _, False)
    (mkSearch am mm vs (top :: rest)) →
  vs !! top = Some w → done w = true →
  searching g W start end_name None (λ _, False)
    (mkSearch am mm vs (pop comp (top :: rest))).
Proof.
  intros [Ham Hmm Hch Hpq Hdone Hopen Hclosed Hcur Hseen] Hw Hd.
  cbn [s_actor_map s_movie_map s_vertices pq] in *.
  split; cbn [s_actor_map s_movie_map s_vertices pq]; try done.
  - intros k Hk. apply elem_of_pop in Hk. apply Hpq. by right.
  - intros k v Hk Hfin. destruct (Hopen k v Hk Hfin) as [?|Hin]; [auto|].
    apply elem_of_cons in Hin as [->|Hin].
    + left. congruence.
    + right. by apply elem_of_pop.
Qed.

Lemma searching_mark g W start end_name am mm vs top rest w comp :
  consistent g W →
  searching g W start end_name None (λ _, False)
    (mkSearch am mm vs (top :: rest)) →
  vs !! top = Some w → done w = false → top ≠ end_name →
  let w' := mkVertex (dist w) true (prev_actor w) (prev_movie w) (name w) in
  let st2 := mkSearch am mm (<[top := w']> vs) (pop comp (top :: rest)) in
  searching g W start end_name (Some top) (λ _, False) st2
  ∧ measure st2 = measure (mkSearch am mm vs (top :: rest)) - 1.
Proof.
  intros (_ & _ & _ & _ & _ & HW & _)
    [Ham Hmm Hch Hpq Hdone Hopen Hclosed Hcur Hseen] Hw Hd Hend w' st2.
  pose proof Hch as [Hdom Hname Hstart Hdist Hprev Hroot].
  cbn [s_actor_map s_movie_map s_vertices pq] in *.
  destruct (Hpq top) as (w0 & Hw0 & Hwfin); [left|].
  rewrite Hw in Hw0. injection Hw0 as <-.
  set (vs' := <[top := w']> vs).
  assert (done_count vs' = S (done_count vs)) as Hdc
    by (by eapply done_count_insert_done).
  assert (∀ k v, vs' !! k = Some v →
            ∃ v0, vs !! k = Some v0 ∧ dist v = dist v0
                  ∧ prev_actor v = prev_actor v0
                  ∧ prev_movie v = prev_movie v0 ∧ name v = name v0
                  ∧ (done v = true → k = top ∨ done v0 = true)) as Hold.
  { intros k v Hk. unfold vs' in Hk.
    apply lookup_insert_Some in Hk as [[<- <-]|[? ?]].
    - exists w. simpl. repeat split; auto.
    - exists v. repeat split; auto. }
  assert (∀ k v0, vs !! k = Some v0 →
            ∃ v, vs' !! k = Some v ∧ dist v = dist v0) as Hnew.
  { intros k v0 Hk. unfold vs'. destruct (decide (k = top)) as [->|Hne].
    - exists w'. rewrite lookup_insert_eq. split; [done|]. simpl. congruence.
    - exists v0. by rewrite lookup_insert_ne. }
  unfold st2. split; [split|]; cbn [s_actor_map s_movie_map s_vertices pq];
    fold vs'; [done|done|..].
  - split.
    + unfold vs'. rewrite dom_insert_lookup_L; [done|eauto].
    + intros k v Hk. destruct (Hold k v Hk) as (v0 & Hk0 & _ & _ & _ & -> & _).
      by eapply Hname.
    + destruct Hstart as (v0 & Hv0 & Hd0 & Hp0).
      unfold vs'. destruct (decide (start = top)) as [->|Hne].
      * rewrite Hw in Hv0. injection Hv0 as <-. exists w'.
        by rewrite lookup_insert_eq.
      * exists v0. by rewrite lookup_insert_ne.
    + intros k v Hk. destruct (Hold k v Hk) as (v0 & Hk0 & -> & _).
      rewrite Hdc. destruct (Hdist k v0 Hk0) as [?|?]; [by left|right; nia].
    + intros k v Hk Hpne.
      destruct (Hold k v Hk) as (v0 & Hk0 & -> & Hp1 & Hp2 & _).
      rewrite Hp1, Hp2 in *.
      destruct (Hprev k v0 Hk0 Hpne) as (Hfin & Hpl1 & Hpl2 & p & Hp & Hpd).
      split; [done|]. split; [done|]. split; [done|].
      destruct (Hnew _ _ Hp) as (p' & Hp' & Hpd'). exists p'.
      split; [done|lia].
    + intros k v Hk Hr.
      destruct (Hold k v Hk) as (v0 & Hk0 & -> & Hp1 & _).
      rewrite Hp1 in Hr. by eapply Hroot.
  - intros k Hk. apply elem_of_pop in Hk.
    destruct (Hpq k) as (v0 & Hk0 & Hfin); [by right|].
    destruct (Hnew _ _ Hk0) as (v & Hv & Hdv). exists v.
    split; [done|congruence].
  - intros k v Hk Hdn.
    destruct (Hold k v Hk) as (v0 & Hk0 & Hdv & _ & _ & _ & Hcase).
    rewrite Hdv. destruct (Hcase Hdn) as [->|Hd0].
    + rewrite Hw in Hk0. injection Hk0 as <-. done.
    + by eapply Hdone.
  - intros k v Hk Hfin.
    destruct (Hold k v Hk) as (v0 & Hk0 & Hdv & _).
    destruct (decide (k = top)) as [->|Hne].
    + left. unfold vs' in Hk. rewrite lookup_insert_eq in Hk.
      by injection Hk as <-.
    + unfold vs' in Hk. rewrite lookup_insert_ne in Hk by done.
      rewrite Hk in Hk0. injection Hk0 as <-.
      destruct (Hopen k v Hk Hfin) as [?|Hin]; [auto|].
      apply elem_of_cons in Hin as [?|Hin]; [done|].
      right. by apply elem_of_pop.
  - intros k v Hk Hdn Hcurne b Hb.
    destruct (Hold k v Hk) as (v0 & Hk0 & _ & _ & _ & _ & Hcase).
    destruct (Hcase Hdn) as [->|Hd0]; [done|].
    destruct (Hclosed k v0 Hk0 Hd0) with (b := b) as (vb & Hvb & Hfin);
      [done|done|].
    destruct (Hnew _ _ Hvb) as (vb' & Hvb' & Hdb). exists vb'.
    split; [done|congruence].
  - intros ? [= <-]. exists w'.
    split; [apply lookup_insert_eq|]. split; [done|]. rewrite Hdc. simpl.
    destruct (Hdist top w Hw) as [?|?]; [done|nia].
  - done.
  - unfold measure. cbn [s_vertices pq]. rewrite length_pop.
    unfold vs'. rewrite (dist_sum_insert vs top w w' Hw). simpl length.
    simpl dist. lia.
Qed.

Lemma searching_close g W start end_name w st :
  searching g W start end_name (Some w) (adjacent g w) st →
  searching g W start end_name None (λ _, False) st.
Proof.
  intros [Ham Hmm Hch Hpq Hdone Hopen Hclosed Hcur Hseen].
  split; try done.
  intros k v Hk Hdn _ b Hb. destruct (decide (k = w)) as [->|Hne].
  - by apply Hseen.
  - eapply Hclosed; try done. congruence.
Qed.

(** *** The search loop *)

Lemma search_loop_searching g W start end_name fuel st working :
  consistent g W →
  searching g W start end_name None (λ _, False) st →
  (∃ v, s_vertices st !! working = Some v ∧ dist v ≠ INT_MAX) →
  (Z.to_nat (measure st) < fuel)%nat →
  ∃ st' working',
    search_loop fuel end_name st working = Returns (st', working')
    ∧ s_actor_map st' = actor_map g ∧ s_movie_map st' = movie_map g
    ∧ chained g W start (s_vertices st')
    ∧ (∃ v, s_vertices st' !! working' = Some v ∧ dist v ≠ INT_MAX)
    ∧ (working' = end_name
       ∨ (pq st' = []
          ∧ searching g W start end_name None (λ _, False) st')).
Proof.
  intros Hc. revert st working.
  induction fuel as [|fuel IH]; intros st working Hs Hwork Hfuel; [lia|].
  pose proof (measure_nonneg _ _ _ _ _ _ _ Hs) as Hmpos.
  pose proof (se_am _ _ _ _ _ _ _ Hs) as Ham.
  pose proof (se_mm _ _ _ _ _ _ _ Hs) as Hmm.
  pose proof (se_chained _ _ _ _ _ _ _ Hs) as Hch.
  destruct st as [am mm vs q].
  cbn [s_actor_map s_movie_map s_vertices pq] in *. subst am mm.
  destruct q as [|top rest].
  { exists (mkSearch (actor_map g) (movie_map g) vs []), working.
    split; [done|]. split; [done|]. split; [done|]. split; [done|].
    split; [done|]. right. by split. }
  destruct (se_pq _ _ _ _ _ _ _ Hs top) as (w & Hw & Hwfin); [left|].
  cbn [s_vertices] in Hw.
  pose proof (ch_name _ _ _ _ Hch _ _ Hw) as Hwname.
  cbn [search_loop pq s_vertices s_actor_map s_movie_map]. rewrite Hw.
  destruct (String.eqb (name w) end_name) eqn:Hend.
  { apply String.eqb_eq in Hend. eexists _, top. split; [done|].
    cbn [s_actor_map s_movie_map s_vertices pq].
    split; [done|]. split; [done|]. split; [done|].
    split; [eauto|]. left. congruence. }
  apply String.eqb_neq in Hend.
  cbn [length] in Hmpos.
  destruct (done w) eqn:Hd.
  { apply IH.
    - by eapply searching_pop.
    - eauto.
    - unfold measure in *. cbn [pq s_vertices] in *. rewrite length_pop.
      cbn [length] in *. lia. }
  cbv zeta.
  assert (is_Some (actor_map g !! top)) as [movies Hmovies].
  { destruct Hc as (_ & _ & Hcdom & _). apply elem_of_dom.
    rewrite <- Hcdom, <- (ch_dom _ _ _ _ Hch). apply elem_of_dom. eauto. }
  unfold subscript. rewrite Hwname, Hmovies. cbn [fst snd].
  destruct (searching_mark g W start end_name (actor_map g) (movie_map g)
              vs top rest w (comp_now vs) Hc Hs Hw Hd) as [Hs2 Hm2];
    [congruence|].
  cbv zeta in Hs2, Hm2. rewrite Hwname in Hs2, Hm2.
  destruct (explore_all_searching g W start end_name top _ movies Hc Hs2
              Hmovies) as (st3 & Hrun & Hs3 & Hm3).
  rewrite Hrun. cbn [mbind outcome_bind].
  apply IH.
  - by eapply searching_close.
  - destruct (se_cur _ _ _ _ _ _ _ Hs3 top eq_refl) as (v & Hv & Hvd & _).
    exists v. split; [done|]. by eapply (se_done _ _ _ _ _ _ _ Hs3).
  - pose proof (measure_nonneg _ _ _ _ _ _ _ Hs3). lia.
Qed.

(** *** Walking the predecessors back *)

Lemma connects_snoc g s hops mid m a :
  connects g s hops mid = true →
  plays_in g mid m = true → plays_in g a m = true →
  connects g s (hops ++ [(m, a)]) a = true.
Proof.
  revert s. induction hops as [|[m0 a0] hops IH]; intros s Hc Hp1 Hp2.
  - simpl in Hc. apply bool_decide_eq_true in Hc as ->. simpl.
    rewrite Hp1, Hp2. simpl. by apply bool_decide_eq_true.
  - simpl in *. apply andb_true_iff in Hc as [Hc1 Hc2].
    rewrite Hc1. simpl. by apply IH.
Qed.

Lemma stack_of_snoc hops m a :
  stack_of (hops ++ [(m, a)]) = stack_of hops ++ [m; a].
Proof.
  induction hops as [|[m0 a0] hops IH]; [done|]. simpl. by rewrite IH.
Qed.

Lemma write_path_stack start hops :
  write_path (start :: stack_of hops) = line_of start hops.
Proof.
  revert start. induction hops as [|[m a] hops IH]; intros start; [done|].
  cbn [stack_of line_of]. rewrite <- IH. done.
Qed.

Lemma unwind_chained g W start vs fuel k v stack :
  consistent g W → chained g W start vs →
  vs !! k = Some v → dist v ≠ INT_MAX →
  (Z.to_nat (dist v) < fuel)%nat →
  ∃ hops,
    connects g start hops k = true
    ∧ unwind fuel vs k stack = Returns (start :: stack_of hops ++ stack).
Proof.
  intros Hc Hch. revert k v stack.
  induction fuel as [|fuel IH]; intros k v stack Hk Hfin Hfuel; [lia|].
  pose proof (ch_name _ _ _ _ Hch _ _ Hk) as Hname.
  cbn [unwind]. rewrite Hk.
  destruct (String.eqb (prev_actor v) "") eqn:Hp.
  - apply String.eqb_eq in Hp.
    destruct (ch_root _ _ _ _ Hch _ _ Hk Hp) as [->|?]; [|done].
    exists []. split; [by apply bool_decide_eq_true|]. by rewrite Hname.
  - apply String.eqb_neq in Hp.
    destruct (ch_prev _ _ _ _ Hch _ _ Hk Hp)
      as (_ & Hp1 & Hp2 & p & Hpk & Hpd).
    pose proof (chained_dist_nonneg _ _ _ _ _ _ Hch Hpk) as Hp0.
    pose proof (chained_dist_nonneg _ _ _ _ _ _ Hch Hk) as Hv0.
    assert (dist p ≠ INT_MAX) as Hpfin.
    { destruct (ch_dist _ _ _ _ Hch _ _ Hk) as [?|Hr]; [done|].
      destruct Hc as (_ & _ & _ & _ & _ & HW & Hsize).
      pose proof (done_count_le vs).
      pose proof (size_same_dom _ _ (ch_dom _ _ _ _ Hch)). nia. }
    destruct (IH (prev_actor v) p (prev_movie v :: name v :: stack) Hpk Hpfin)
      as (hops & Hconn & Hrun); [lia|].
    exists (hops ++ [(prev_movie v, k)]). split.
    + by apply (connects_snoc g start hops (prev_actor v)).
    + rewrite Hrun, stack_of_snoc, <- app_assoc, Hname. done.
Qed.

(** *** [findPath] as a whole *)

Lemma push_nil {A} `{Inhabited A} (comp : A → A → bool) x :
  push comp [] x = [x].
Proof. reflexivity. Qed.

Lemma findPath_start fuel g start_name end_name v0 :
  named g → vertices g !! start_name = Some v0 →
  findPath fuel g start_name end_name
  = '(st, working) ←
      search_loop fuel end_name
        (mkSearch (actor_map g) (movie_map g)
           (<[start_name := mkVertex 0 false "" "" start_name]>
              (reset <$> vertices g)) [start_name]) start_name;
    stack ← unwind fuel (s_vertices st) working [];
    Returns (write_path stack,
             mkGraph (s_actor_map st) (s_movie_map st) (s_vertices st)).
Proof.
  intros Hn Hv. unfold findPath. rewrite lookup_fmap, Hv. cbn [fmap option_fmap option_map].
  cbn [reset done prev_actor prev_movie name]. rewrite (Hn _ _ Hv).
  by rewrite push_nil.
Qed.

Lemma searching_initial g W start_name end_name v0 :
  consistent g W → vertices g !! start_name = Some v0 →
  searching g W start_name end_name None (λ _, False)
    (mkSearch (actor_map g) (movie_map g)
       (<[start_name := mkVertex 0 false "" "" start_name]>
          (reset <$> vertices g)) [start_name]).
Proof.
  intros (_ & _ & _ & Hnamed & _ & HW & _) Hv.
  set (vs := <[start_name := mkVertex 0 false "" "" start_name]>
               (reset <$> vertices g)).
  assert (∀ k v, vs !! k = Some v →
            name v = k ∧ done v = false ∧ prev_actor v = ""
            ∧ (k = start_name ∧ dist v = 0
               ∨ k ≠ start_name ∧ dist v = INT_MAX)) as Hall.
  { intros k v Hk. unfold vs in Hk.
    apply lookup_insert_Some in Hk as [[<- <-]|[Hne Hk]];
      [simpl; repeat split; auto|].
    rewrite lookup_fmap in Hk.
    destruct (vertices g !! k) as [u|] eqn:Hu; [|done].
    injection Hk as <-. simpl. rewrite (Hnamed _ _ Hu).
    repeat split; auto. }
  assert (vs !! start_name = Some (mkVertex 0 false "" "" start_name))
    as Hs by apply lookup_insert_eq.
  split; cbn [s_actor_map s_movie_map s_vertices pq]; fold vs; try done.
  - split.
    + unfold vs. rewrite dom_insert_lookup_L, dom_fmap_L; [done|].
      rewrite lookup_fmap, Hv. eauto.
    + intros k v Hk. by destruct (Hall k v Hk).
    + eexists. split; [exact Hs|done].
    + intros k v Hk.
      destruct (Hall k v Hk) as (_ & _ & _ & [[_ ->]|[_ ->]]); [right|by left].
      lia.
    + intros k v Hk Hp. by destruct (Hall k v Hk) as (_ & _ & ? & _).
    + intros k v Hk _.
      destruct (Hall k v Hk) as (_ & _ & _ & [[? _]|[_ ?]]); auto.
  - intros k Hk. apply list_elem_of_singleton in Hk as ->.
    eexists. split; [exact Hs|done].
  - intros k v Hk Hd. destruct (Hall k v Hk) as (_ & ? & _). congruence.
  - intros k v Hk Hfin. right.
    destruct (Hall k v Hk) as (_ & _ & _ & [[-> _]|[_ ?]]); [left|done].
  - intros k v Hk Hd. destruct (Hall k v Hk) as (_ & ? & _). congruence.
Qed.

Lemma plays_in_adjacent g a b m :
  plays_in g a m = true → plays_in g b m = true → adjacent g a b.
Proof.
  unfold plays_in. intros Ha Hb.
  apply andb_true_iff in Ha as [Ha _]. apply andb_true_iff in Hb as [_ Hb].
  apply bool_decide_eq_true in Ha, Hb.
  destruct (actor_map g !! a) as [movies|] eqn:Ham;
    [|by apply elem_of_nil in Ha].
  destruct (movie_map g !! m) as [[wt cast]|] eqn:Hmm;
    [|by apply elem_of_nil in Hb].
  by exists m, movies, wt, cast.
Qed.

Lemma exhausted_reach g W start end_name st hs k v b :
  searching g W start end_name None (λ _, False) st → pq st = [] →
  s_vertices st !! k = Some v → dist v ≠ INT_MAX →
  connects g k hs b = true → b ≠ end_name.
Proof.
  intros Hs Hq. revert k v. induction hs as [|[m a] hs IH]; intros k v Hk Hfin Hc.
  - simpl in Hc. apply bool_decide_eq_true in Hc as <-.
    destruct (se_open _ _ _ _ _ _ _ Hs k v Hk Hfin) as [Hd|Hin].
    + by eapply (se_done _ _ _ _ _ _ _ Hs).
    + rewrite Hq in Hin. by apply elem_of_nil in Hin.
  - simpl in Hc. apply andb_true_iff in Hc as [Hc Hrest].
    apply andb_true_iff in Hc as [Hp1 Hp2].
    destruct (se_open _ _ _ _ _ _ _ Hs k v Hk Hfin) as [Hd|Hin].
    + destruct (se_closed _ _ _ _ _ _ _ Hs k v Hk Hd) with (b := a)
        as (va & Hva & Hafin); [done|by eapply plays_in_adjacent|].
      by eapply IH.
    + rewrite Hq in Hin. by apply elem_of_nil in Hin.
Qed.

Lemma connects_same_maps g g' s hs e :
  actor_map g' = actor_map g → movie_map g' = movie_map g →
  connects g' s hs e = connects g s hs e.
Proof.
  intros Ha Hm. revert s. induction hs as [|[m a] hs IH]; intros s; [done|].
  simpl. unfold plays_in. by rewrite IH, Ha, Hm.
Qed.

Lemma consistent_same_maps g g' W :
  actor_map g' = actor_map g → movie_map g' = movie_map g →
  dom (vertices g') = dom (vertices g) → named g' →
  consistent g W → consistent g' W.
Proof.
  intros Ha Hm Hd Hn (H1 & H2 & H3 & H4 & H5 & H6 & H7).
  unfold consistent. rewrite Ha, Hm, Hd.
  split; [done|]. split; [done|]. split; [done|]. split; [done|].
  split; [|split; [done|]].
  - apply not_elem_of_dom. rewrite Hd. by apply not_elem_of_dom.
  - by rewrite (size_same_dom _ _ Hd).
Qed.

(** What [findPath] does on a consistent graph for a registered start. *)
Lemma findPath_path g W start_name end_name :
  consistent g W → is_Some (vertices g !! start_name) →
  ∃ fuel0 hops last g',
    (∀ fuel, (fuel0 ≤ fuel)%nat →
       findPath fuel g start_name end_name
       = Returns (line_of start_name hops, g'))
    ∧ connects g start_name hops last = true
    ∧ (last = end_name ∨ ∀ hs, connects g start_name hs end_name = false)
    ∧ actor_map g' = actor_map g ∧ movie_map g' = movie_map g
    ∧ dom (vertices g') = dom (vertices g)
    ∧ consistent g' W.
Proof.
  intros Hc [v0 Hv0].
  pose proof Hc as (_ & _ & _ & Hnamed & _).
  pose proof (searching_initial g W start_name end_name v0 Hc Hv0) as Hs0.
  set (st0 := mkSearch (actor_map g) (movie_map g)
                (<[start_name := mkVertex 0 false "" "" start_name]>
                   (reset <$> vertices g)) [start_name]) in *.
  set (fuel0 := S (Z.to_nat (measure st0) + Z.to_nat INT_MAX)).
  assert (∃ v, s_vertices st0 !! start_name = Some v ∧ dist v ≠ INT_MAX)
    as Hwork.
  { destruct (ch_start _ _ _ _ (se_chained _ _ _ _ _ _ _ Hs0))
      as (v & Hv & Hd & _). exists v. split; [done|]. by rewrite Hd. }
  destruct (search_loop_searching g W start_name end_name fuel0 st0
              start_name Hc Hs0 Hwork)
    as (st' & working & Hrun & Ham & Hmm & Hch & (vw & Hvw & Hwfin) & Hexit);
    [unfold fuel0; lia|].
  assert (Z.to_nat (dist vw) < fuel0)%nat as Hfw.
  { destruct (ch_dist _ _ _ _ Hch _ _ Hvw) as [?|Hr]; [done|].
    destruct Hc as (_ & _ & _ & _ & _ & HW & Hsize).
    pose proof (done_count_le (s_vertices st')).
    pose proof (size_same_dom _ _ (ch_dom _ _ _ _ Hch)).
    unfold fuel0. nia. }
  destruct (unwind_chained g W start_name (s_vertices st') fuel0 working vw []
              Hc Hch Hvw Hwfin Hfw) as (hops & Hconn & Hunw).
  exists fuel0, hops, working,
    (mkGraph (s_actor_map st') (s_movie_map st') (s_vertices st')).
  split; [|split; [done|split; [|split; [done|split; [done|split]]]]].
  - intros fuel Hfuel. rewrite (findPath_start fuel g _ _ v0 Hnamed Hv0).
    fold st0.
    rewrite (search_loop_more_fuel fuel0 fuel _ _ _ _ Hrun Hfuel).
    cbn [mbind outcome_bind].
    rewrite (unwind_more_fuel fuel0 fuel _ _ _ _ Hunw Hfuel).
    cbn [mbind outcome_bind]. rewrite app_nil_r.
    by rewrite write_path_stack.
  - destruct Hexit as [?|[Hq Hs']]; [by left|right].
    intros hs. destruct (connects g start_name hs end_name) eqn:Hcn; [|done].
    destruct (ch_start _ _ _ _ Hch) as (v & Hv & Hd & _).
    exfalso. eapply (exhausted_reach g W start_name end_name st' hs
                       start_name v end_name); try done. by rewrite Hd.
  - apply (ch_dom _ _ _ _ Hch).
  - apply (consistent_same_maps g); try done.
    + apply (ch_dom _ _ _ _ Hch).
    + intros k v. apply (ch_name _ _ _ _ Hch).
Qed.

End SearchFacts.

(** ** pathfinder on well-formed data *)

Module PathFacts.
Import Cxx ActorGraph PathSpec LoadSpec SearchSpec.
Import PathfinderFacts LoadFacts HeapFacts SearchFacts.

#[local] Arguments load_line : simpl never.

Lemma elem_of_movies_of a m lines :
  m ∈ movies_of a lines ↔ ∃ line y, line ∈ lines ∧ parsed line = Some (a, m, y).
Proof.
  unfold movies_of. rewrite list_elem_of_omap. split.
  - intros (line & Hl & Hp).
    destruct (parsed line) as [[[a0 m0] y0]|] eqn:Hq; [|done].
    case_decide; [|done]. injection Hp as ->. subst. by exists line, y0.
  - intros (line & y & Hl & Hp). exists line. split; [done|].
    rewrite Hp. by rewrite decide_True.
Qed.

Lemma elem_of_players_of a m lines :
  a ∈ players_of m lines ↔ ∃ line y, line ∈ lines ∧ parsed line = Some (a, m, y).
Proof.
  unfold players_of. rewrite list_elem_of_omap. split.
  - intros (line & Hl & Hp).
    destruct (parsed line) as [[[a0 m0] y0]|] eqn:Hq; [|done].
    case_decide; [|done]. injection Hp as ->. subst. by exists line, y0.
  - intros (line & y & Hl & Hp). exists line. split; [done|].
    rewrite Hp. by rewrite decide_True.
Qed.

Lemma head_years_of m y lines :
  head (years_of m lines) = Some y →
  ∃ line a, line ∈ lines ∧ parsed line = Some (a, m, y).
Proof.
  intros Hy. apply elem_of_years_of.
  destruct (years_of m lines); [done|]. injection Hy as ->. left.
Qed.

Lemma years_of_head m y lines :
  y ∈ years_of m lines → is_Some (head (years_of m lines)).
Proof. intros Hy. destruct (years_of m lines); [by apply elem_of_nil in Hy|eauto]. Qed.

Lemma load_lines_size w lines am mm am' mm' :
  load_lines w lines (am, mm) = Returns (inr (am', mm')) →
  (size am' ≤ size am + length lines)%nat.
Proof.
  revert am mm. induction lines as [|s lines IH]; intros am mm Hrun.
  - cbn [load_lines] in Hrun. injection Hrun as <- <-. simpl. lia.
  - destruct (load_lines_parsed _ _ _ _ Hrun s) as [[[a0 m0] y0] Hp]; [left|].
    destruct (parsed_Some _ _ _ _ Hp) as (r1 & r2 & Htok & -> & Hy).
    cbn [load_lines] in Hrun.
    rewrite (load_line_record w am mm s a0 r1 r2 y0 Htok Hy) in Hrun.
    cbn [mbind outcome_bind] in Hrun. apply IH in Hrun.
    rewrite map_size_insert in Hrun. cbn [length].
    destruct (am !! a0); simpl in Hrun; lia.
Qed.

Lemma loaded_size lines w g :
  loadFromFile empty lines w = Returns (true, g) →
  (size (vertices g) ≤ length lines)%nat.
Proof.
  unfold loadFromFile. intros Hl.
  destruct (load_lines w lines (actor_map empty, movie_map empty))
    as [[[am mm]|[am mm]]| | |] eqn:Hrun; try done.
  cbn [mbind outcome_bind] in Hl. injection Hl as <-. cbn [vertices].
  apply load_lines_size in Hrun. cbn [empty actor_map] in Hrun.
  rewrite map_size_empty in Hrun.
  cbn [empty vertices]. rewrite (right_id_L ∅ (∪)).
  rewrite <- size_dom, dom_imap_L with (X := dom am), size_dom; [lia|].
  intros a. rewrite elem_of_dom. split.
  - intros [x Hx]. by exists x.
  - intros (x & Hx & _). by exists x.
Qed.

(** A graph loaded from records without empty actor names and with weights
    between 1 and [W] is consistent. *)
Lemma loaded_consistent lines w W g :
  loadFromFile empty lines w = Returns (true, g) →
  (∀ line a m y, line ∈ lines → parsed line = Some (a, m, y) →
     a ≠ "" ∧ 1 ≤ weight_of w y ≤ W) →
  0 ≤ W → W * Z.of_nat (length lines) < INT_MAX →
  consistent g W.
Proof.
  intros Hg Hrec HW Hsize.
  destruct (loadFromFile_parsed lines w (loadFromFile_true _ _ _ Hg))
    as (g' & Hg' & Ham & Hmm & Hvs).
  rewrite Hg in Hg'. injection Hg' as <-.
  assert (∀ a movies, actor_map g !! a = Some movies →
            movies = movies_of a lines) as Ham'.
  { intros a movies Ha. rewrite Ham in Ha. case_decide; congruence. }
  assert (∀ a m, m ∈ movies_of a lines →
            actor_map g !! a = Some (movies_of a lines)) as Ham2.
  { intros a m Hm. rewrite Ham. rewrite decide_False; [done|].
    intros Hnil. rewrite Hnil in Hm. by apply elem_of_nil in Hm. }
  split; [|split; [|split; [|split; [|split; [|split]]]]].
  - intros a movies m Ha Hm. rewrite (Ham' _ _ Ha) in Hm.
    apply elem_of_movies_of in Hm as (line & y & Hl & Hp).
    rewrite Hmm.
    destruct (years_of_head m y lines) as [y0 Hy0].
    { apply elem_of_years_of. by exists line, a. }
    rewrite Hy0. simpl. eexists _, _. split; [done|].
    apply elem_of_players_of. by exists line, y.
  - intros m wt cast a Hm Ha. rewrite Hmm in Hm.
    destruct (head (years_of m lines)) as [y0|] eqn:Hy0; [|done].
    simpl in Hm. injection Hm as <- <-.
    destruct (head_years_of _ _ _ Hy0) as (line0 & a0 & Hl0 & Hp0).
    split; [by eapply Hrec|].
    apply elem_of_players_of in Ha as (line & y & Hl & Hp).
    exists (movies_of a lines).
    assert (m ∈ movies_of a lines) as Hin
      by (apply elem_of_movies_of; by exists line, y).
    split; [by eapply Ham2|done].
  - apply set_eq. intros a. rewrite !elem_of_dom, Ham, Hvs.
    case_decide; split; intros [? ?]; try done; eauto.
  - intros k v Hk. rewrite Hvs in Hk. case_decide; [done|].
    by injection Hk as <-.
  - rewrite Hvs. rewrite decide_True; [done|].
    destruct (movies_of "" lines) as [|m l] eqn:Hm; [done|].
    assert (m ∈ movies_of "" lines) as Hin by (rewrite Hm; left).
    apply elem_of_movies_of in Hin as (line & y & Hl & Hp).
    by destruct (Hrec _ _ _ _ Hl Hp).
  - done.
  - pose proof (loaded_size _ _ _ Hg). nia.
Qed.

Lemma findPath_same_graph fuel g g' start_name end_name :
  actor_map g' = actor_map g → movie_map g' = movie_map g →
  dom (vertices g') = dom (vertices g) → named g → named g' →
  findPath fuel g' start_name end_name = findPath fuel g start_name end_name.
Proof.
  intros Ha Hm Hd Hn Hn'. unfold findPath. rewrite Ha, Hm.
  assert (reset <$> vertices g' = reset <$> vertices g) as ->; [|done].
  apply map_eq. intros k. rewrite !lookup_fmap.
  destruct (vertices g' !! k) as [v'|] eqn:Hv'.
  - assert (is_Some (vertices g !! k)) as [v Hv].
    { apply elem_of_dom. rewrite <- Hd. apply elem_of_dom. eauto. }
    rewrite Hv. simpl. unfold reset.
    by rewrite (Hn _ _ Hv), (Hn' _ _ Hv').
  - assert (vertices g !! k = None) as ->; [|done].
    apply not_elem_of_dom. rewrite <- Hd. by apply not_elem_of_dom.
Qed.

Lemma registered_weight_bound lines w W g s :
  loadFromFile empty lines w = Returns (true, g) →
  (∀ line a m y, line ∈ lines → parsed line = Some (a, m, y) →
     a ≠ "" ∧ 1 ≤ weight_of w y ≤ W) →
  is_Some (vertices g !! s) → 0 ≤ W.
Proof.
  intros Hg Hrec [v Hv].
  destruct (loadFromFile_parsed lines w (loadFromFile_true _ _ _ Hg))
    as (g' & Hg' & _ & _ & Hvs).
  rewrite Hg in Hg'. injection Hg' as <-. rewrite Hvs in Hv.
  destruct (movies_of s lines) as [|m l] eqn:Hm; [done|].
  assert (m ∈ movies_of s lines) as Hin by (rewrite Hm; left).
  apply elem_of_movies_of in Hin as (line & y & Hl & Hp).
  destruct (Hrec _ _ _ _ Hl Hp) as [_ ?]. lia.
Qed.

(** X14.  On a graph loaded from records without empty actor names, with
    weights between 1 and [W] and [W] times the number of lines below
    [INT_MAX] (so that no distance overflows), and for a registered start,
    [findPath] terminates and writes a genuine path: the line is that of a
    chain of hops from the start in which each hop goes through a movie
    that both of its actors play in.  The chain ends at the end actor
    whenever any chain from the start to the end actor exists, and the two
    maps of the graph are left as they were. *)
Theorem findPath_connects data w W g start_name end_name :
  loadFromFile empty data w = Returns (true, g) →
  (∀ line a m y, line ∈ data → parsed line = Some (a, m, y) →
     a ≠ "" ∧ 1 ≤ weight_of w y ≤ W) →
  W * Z.of_nat (length data) < INT_MAX →
  is_Some (vertices g !! start_name) →
  ∃ fuel0 hops last g',
    (∀ fuel, (fuel0 ≤ fuel)%nat →
       findPath fuel g start_name end_name
       = Returns (line_of start_name hops, g'))
    ∧ connects g start_name hops last = true
    ∧ (last = end_name ∨ ∀ hs, connects g start_name hs end_name = false)
    ∧ actor_map g' = actor_map g ∧ movie_map g' = movie_map g
    ∧ dom (vertices g') = dom (vertices g).
Proof.
  intros Hg Hrec Hsize Hs.
  pose proof (registered_weight_bound _ _ _ _ _ Hg Hrec Hs) as HW.
  pose proof (loaded_consistent _ _ _ _ Hg Hrec HW Hsize) as Hc.
  destruct (findPath_path g W start_name end_name Hc Hs)
    as (fuel0 & hops & last & g' & Hrun & Hconn & Hlast & Ha & Hm & Hd & _).
  by exists fuel0, hops, last, g'.
Qed.

Lemma findPath_connects_witness :
  ∃ fuel0 hops last g',
    (∀ fuel, (fuel0 ≤ fuel)%nat →
       findPath fuel (Samples.loaded Samples.apart false) "S" "A"
       = Returns (line_of "S" hops, g'))
    ∧ connects (Samples.loaded Samples.apart false) "S" hops last = true
    ∧ (last = "A"
       ∨ ∀ hs, connects (Samples.loaded Samples.apart false) "S" hs "A"
               = false)
    ∧ actor_map g' = actor_map (Samples.loaded Samples.apart false)
    ∧ movie_map g' = movie_map (Samples.loaded Samples.apart false)
    ∧ dom (vertices g') = dom (vertices (Samples.loaded Samples.apart false)).
Proof.
  refine (findPath_connects Samples.apart false 1
            (Samples.loaded Samples.apart false) "S" "A" _ _ _ _).
  - vm_compute. reflexivity.
  - intros line a m y Hl Hp.
    repeat (apply elem_of_cons in Hl as [->|Hl];
            [vm_compute in Hp; injection Hp as <- <- <-;
             split; [discriminate|vm_compute; split; discriminate]|]).
    by apply elem_of_nil in Hl.
  - vm_compute. reflexivity.
  - vm_compute. eauto.
Defined.

(** X15.  A query leaves no trace for the next one: after any call of
    [findPath] that returns on such a graph, every further call gives what
    it would have given on the graph as loaded, the line written and the
    graph left behind alike.  ([findPath] resets all vertices first and
    never changes the two maps.) *)
Theorem findPath_forgets_history data w W g fuel s0 e0 out0 g1 s e :
  loadFromFile empty data w = Returns (true, g) →
  (∀ line a m y, line ∈ data → parsed line = Some (a, m, y) →
     a ≠ "" ∧ 1 ≤ weight_of w y ≤ W) →
  W * Z.of_nat (length data) < INT_MAX →
  findPath fuel g s0 e0 = Returns (out0, g1) →
  findPath fuel g1 s e = findPath fuel g s e.
Proof.
  intros Hg Hrec Hsize Hrun.
  assert (is_Some (vertices g !! s0)) as Hs0.
  { destruct (vertices g !! s0) eqn:Hv; [eauto|].
    by rewrite (findPath_unknown_start fuel g s0 e0 Hv) in Hrun. }
  pose proof (registered_weight_bound _ _ _ _ _ Hg Hrec Hs0) as HW.
  pose proof (loaded_consistent _ _ _ _ Hg Hrec HW Hsize) as Hc.
  destruct (findPath_path g W s0 e0 Hc Hs0)
    as (fuel0 & hops & last & g' & Hrun' & _ & _ & Ha & Hm & Hd & Hc').
  pose proof (findPath_more_fuel fuel (fuel `max` fuel0) g s0 e0 _ Hrun
                (Nat.le_max_l _ _)) as H1.
  rewrite (Hrun' (fuel `max` fuel0)%nat (Nat.le_max_r _ _)) in H1.
  injection H1 as _ <-.
  apply findPath_same_graph; try done.
  - by destruct Hc as (_ & _ & _ & ? & _).
  - by destruct Hc' as (_ & _ & _ & ? & _).
Qed.

Lemma findPath_forgets_history_witness :
  findPath 3
    (mkGraph (actor_map (Samples.loaded Samples.apart false))
       (movie_map (Samples.loaded Samples.apart false))
       (<["A" := mkVertex 1 false "S" "M1#@2000" "A"]>
          (<["S" := mkVertex 0 true "" "" "S"]>
             (reset <$> vertices (Samples.loaded Samples.apart false)))))
    "A" "S"
  = findPath 3 (Samples.loaded Samples.apart false) "A" "S".
Proof.
  refine (findPath_forgets_history Samples.apart false 1
            (Samples.loaded Samples.apart false) 3 "S" "A"
            "(S)--[M1#@2000]-->(A)" _ "A" "S" _ _ _ _).
  - vm_compute. reflexivity.
  - intros line a m y Hl Hp.
    repeat (apply elem_of_cons in Hl as [->|Hl];
            [vm_compute in Hp; injection Hp as <- <- <-;
             split; [discriminate|vm_compute; split; discriminate]|]).
    by apply elem_of_nil in Hl.
  - vm_compute. reflexivity.
  - vm_compute. reflexivity.
Defined.

(** *** All the pairs of a run *)

Lemma find_pairs_paths g0 W pairs g :
  consistent g W →
  actor_map g = actor_map g0 → movie_map g = movie_map g0 →
  dom (vertices g) = dom (vertices g0) →
  (∀ line, line ∈ pairs →
     ∃ s e rest, tokenize line = s :: e :: rest
                 ∧ is_Some (vertices g0 !! s)) →
  ∃ fuel0 outs,
    (∀ fuel, (fuel0 ≤ fuel)%nat → find_pairs fuel g pairs = Returns outs)
    ∧ Forall2 (λ line out,
                 ∃ s e rest hops last,
                   tokenize line = s :: e :: rest
                   ∧ out = line_of s hops
                   ∧ connects g0 s hops last = true
                   ∧ (last = e ∨ ∀ hs, connects g0 s hs e = false))
        pairs outs.
Proof.
  revert g. induction pairs as [|line pairs IH]; intros g Hc Ha Hm Hd Hall.
  - exists 0%nat, []. split; [done|constructor].
  - destruct (Hall line) as (s & e & rest & Htok & Hs); [left|].
    assert (is_Some (vertices g !! s)) as Hs'.
    { apply elem_of_dom. rewrite Hd. by apply elem_of_dom. }
    destruct (findPath_path g W s e Hc Hs')
      as (fuel1 & hops & last & g' & Hrun & Hconn & Hlast & Ha' & Hm' & Hd'
          & Hc').
    destruct (IH g' Hc') as (fuel2 & outs & Hruns & Houts).
    { congruence. } { congruence. } { congruence. }
    { intros l Hl. apply Hall. by right. }
    exists (fuel1 `max` fuel2)%nat, (line_of s hops :: outs). split.
    + intros fuel Hfuel. cbn [find_pairs]. rewrite Htok.
      rewrite Hrun by lia. cbn [mbind outcome_bind].
      rewrite Hruns by lia. done.
    + constructor; [|done]. exists s, e, rest, hops, last.
      split; [done|]. split; [done|].
      rewrite <- (connects_same_maps g0 g) by done. split; [done|].
      destruct Hlast as [?|Hno]; [by left|right]. intros hs.
      rewrite <- (connects_same_maps g0 g) by done. apply Hno.
Qed.

(** X16.  On data all of whose lines are records (three fields, a year that
    [stoi] reads, a non-empty actor name, weights between 1 and [W] without
    overflow) and pairs whose lines have at least two fields and a
    registered first actor, pathfinder terminates with status 0 and writes
    the header and one line per pair, in order.  Each line is a genuine
    path from the pair's first actor, and it ends at the pair's second
    actor whenever the two are connected. *)
Theorem pathfinder_answers_every_pair data w W pairs :
  (∀ line, line ∈ data →
     ∃ a m y, parsed line = Some (a, m, y) ∧ a ≠ ""
              ∧ 1 ≤ weight_of w y ≤ W) →
  0 ≤ W → W * Z.of_nat (length data) < INT_MAX →
  (∀ line, line ∈ pairs →
     ∃ s e rest, tokenize line = s :: e :: rest
                 ∧ ∃ record m y, record ∈ data
                                 ∧ parsed record = Some (s, m, y)) →
  ∃ g fuel0 outs,
    loadFromFile empty data w = Returns (true, g)
    ∧ (∀ fuel, (fuel0 ≤ fuel)%nat →
         main fuel data w pairs = Returns (0, header :: outs))
    ∧ Forall2 (λ line out,
                 ∃ s e rest hops last,
                   tokenize line = s :: e :: rest
                   ∧ out = line_of s hops
                   ∧ connects g s hops last = true
                   ∧ (last = e ∨ ∀ hs, connects g s hs e = false))
        pairs outs.
Proof.
  intros Hdata HW Hsize Hpairs.
  destruct (loadFromFile_parsed data w) as (g & Hg & _ & _ & Hvs).
  { intros line Hl. destruct (Hdata line Hl) as (a & m & y & -> & _). eauto. }
  assert (consistent g W) as Hc.
  { apply (loaded_consistent data w); try done.
    intros line a m y Hl Hp.
    destruct (Hdata line Hl) as (a' & m' & y' & Hp' & ?).
    rewrite Hp in Hp'. by injection Hp' as -> -> ->. }
  destruct (find_pairs_paths g W pairs g Hc) as (fuel0 & outs & Hrun & Houts);
    [done..| |].
  { intros line Hl.
    destruct (Hpairs line Hl) as (s & e & rest & Htok & record & m & y & Hr & Hp).
    exists s, e, rest. split; [done|]. rewrite Hvs.
    rewrite decide_False; [eauto|]. intros Hnil.
    assert (m ∈ movies_of s data) as Hin
      by (apply elem_of_movies_of; by exists record, y).
    rewrite Hnil in Hin. by apply elem_of_nil in Hin. }
  exists g, fuel0, outs. split; [done|]. split; [|done].
  intros fuel Hfuel. unfold main. rewrite Hg. cbn [mbind outcome_bind].
  by rewrite (Hrun fuel Hfuel).
Qed.

Lemma pathfinder_answers_every_pair_witness :
  ∃ g fuel0 outs,
    loadFromFile empty Samples.apart false = Returns (true, g)
    ∧ (∀ fuel, (fuel0 ≤ fuel)%nat →
         main fuel Samples.apart false
           [Samples.pair "S" "A"; Samples.pair "E" "S"]
         = Returns (0, header :: outs))
    ∧ Forall2 (λ line out,
                 ∃ s e rest hops last,
                   tokenize line = s :: e :: rest
                   ∧ out = line_of s hops
                   ∧ connects g s hops last = true
                   ∧ (last = e ∨ ∀ hs, connects g s hs e = false))
        [Samples.pair "S" "A"; Samples.pair "E" "S"] outs.
Proof.
  refine (pathfinder_answers_every_pair Samples.apart false 1
            [Samples.pair "S" "A"; Samples.pair "E" "S"] _ _ _ _).
  - intros line Hl.
    repeat (apply elem_of_cons in Hl as [->|Hl];
            [eexists _, _, _; split; [vm_compute; reflexivity|];
             split; [discriminate|vm_compute; split; discriminate]|]).
    by apply elem_of_nil in Hl.
  - lia.
  - vm_compute. reflexivity.
  - intros line Hl.
    apply elem_of_cons in Hl as [->|Hl].
    { exists "S", "A", []. split; [vm_compute; reflexivity|].
      exists (Samples.row "S" "M1" "2000"), "M1#@2000", 2000.
      split; [left|vm_compute; reflexivity]. }
    apply elem_of_cons in Hl as [->|Hl].
    { exists "E", "S", []. split; [vm_compute; reflexivity|].
      exists (Samples.row "E" "M2" "2000"), "M2#@2000", 2000.
      split; [do 2 right; left|vm_compute; reflexivity]. }
    by apply elem_of_nil in Hl.
Defined.

End PathFacts.

(** ** Lines, fields and the two comparators *)

Module LineFacts.
Import Cxx ActorGraph LineSpec PredictorFacts.

Lemma append_cons c (a b : string) : String c a +:+ b = String c (a +:+ b).
Proof. reflexivity. Qed.

Lemma append_assoc (a b c : string) : (a +:+ b) +:+ c = a +:+ (b +:+ c).
Proof.
  induction a as [|x a IH]; [done|]. rewrite !append_cons. by rewrite IH.
Qed.

Lemma append_empty_r (a : string) : a +:+ "" = a.
Proof.
  induction a as [|x a IH]; [done|]. rewrite append_cons. by rewrite IH.
Qed.

(** A field without a tab, read up to the end of the line. *)
Lemma getline_fields_last cur f :
  has_tab f = false → getline_fields cur f = [cur +:+ f].
Proof.
  revert cur. induction f as [|c f IH]; intros cur Hf;
    cbn [getline_fields].
  - by rewrite append_empty_r.
  - cbn [has_tab] in Hf. apply orb_false_iff in Hf as [Hc Hf]. rewrite Hc.
    rewrite IH by done. by rewrite append_assoc.
Qed.

(** A field without a tab, read up to the tab that follows it. *)
Lemma getline_fields_field cur f rest :
  has_tab f = false →
  getline_fields cur (f +:+ String tab rest)
  = (cur +:+ f) :: match rest with
                   | EmptyString => []
                   | String _ _ => getline_fields "" rest
                   end.
Proof.
  revert cur. induction f as [|c f IH]; intros cur Hf;
    rewrite ?append_cons; cbn [getline_fields].
  - rewrite append_empty_r. change ("" +:+ String tab rest)
      with (String tab rest). cbn [getline_fields].
    by rewrite (proj2 (Ascii.eqb_eq tab tab) eq_refl).
  - cbn [has_tab] in Hf. apply orb_false_iff in Hf as [Hc Hf]. rewrite Hc.
    rewrite IH by done. by rewrite append_assoc.
Qed.

Lemma getline_fields_joined f fields :
  Forall (λ f, has_tab f = false) (f :: fields) →
  last (f :: fields) ≠ Some "" →
  getline_fields "" (tab_joined (f :: fields)) = f :: fields.
Proof.
  revert f. induction fields as [|f' fields IH]; intros f Hall Hlast.
  - apply Forall_cons in Hall as [Hf _]. cbn [tab_joined].
    by rewrite getline_fields_last.
  - apply Forall_cons in Hall as [Hf Hall].
    change (tab_joined (f :: f' :: fields))
      with (f +:+ String tab (tab_joined (f' :: fields))).
    rewrite getline_fields_field by done.
    change ("" +:+ f) with f. f_equal.
    assert (last (f' :: fields) ≠ Some "") as Hlast' by done.
    specialize (IH f' Hall Hlast').
    destruct (tab_joined (f' :: fields)) as [|c s] eqn:Hj; [|done].
    exfalso. destruct fields as [|f'' fields].
    + cbn [tab_joined] in Hj. by subst.
    + change (tab_joined (f' :: f'' :: fields))
        with (f' +:+ String tab (tab_joined (f'' :: fields))) in Hj.
      by destruct f'.
Qed.

(** X17.  The loop that splits a line at its tabs recovers the fields of a
    line: for fields without tabs, the last of which is not empty, writing
    them with tabs in between and splitting the line gives the fields back.
    So a record of three such fields is read as exactly these three. *)
Theorem tokenize_tab_joined fields :
  Forall (λ f, has_tab f = false) fields →
  last fields ≠ Some "" →
  tokenize (tab_joined fields) = fields.
Proof.
  intros Hall Hlast. destruct fields as [|f fields]; [done|].
  pose proof (getline_fields_joined f fields Hall Hlast) as Hg.
  unfold tokenize. destruct (tab_joined (f :: fields)) as [|c s] eqn:Hj;
    [|done].
  exfalso. destruct fields as [|f' fields].
  - cbn [tab_joined] in Hj. by subst.
  - change (tab_joined (f :: f' :: fields))
      with (f +:+ String tab (tab_joined (f' :: fields))) in Hj.
    by destruct f.
Qed.

Lemma tokenize_tab_joined_witness :
  tokenize (tab_joined ["Kevin Bacon"; "Apollo 13"; "1995"])
  = ["Kevin Bacon"; "Apollo 13"; "1995"].
Proof.
  refine (tokenize_tab_joined ["Kevin Bacon"; "Apollo 13"; "1995"] _ _).
  - repeat constructor.
  - discriminate.
Defined.

(** *** The comparator of the queue *)

Lemma ltb_irrefl a : String.ltb a a = false.
Proof. by apply ltb_false_le. Qed.

Lemma ltb_asym a b : String.ltb a b = true → String.ltb b a = false.
Proof.
  intros Hab. apply ltb_true_not_le in Hab. apply ltb_false_le.
  destruct (total String.le a b); done.
Qed.

Lemma ltb_trans a b c :
  String.ltb a b = true → String.ltb b c = true → String.ltb a c = true.
Proof.
  intros Hab Hbc. apply ltb_true_not_le in Hab, Hbc. apply ltb_true_not_le.
  intros Hca. apply Hbc. etrans; [exact Hca|].
  destruct (total String.le a b); done.
Qed.

Lemma ltb_total a b :
  String.ltb a b = false → String.ltb b a = false → a = b.
Proof.
  intros Hab Hba. apply ltb_false_le in Hab, Hba.
  by apply (anti_symm String.le).
Qed.

Lemma vertexComp_alt x y :
  vertexComp x y = true
  ↔ dist y < dist x
    ∨ (dist x = dist y ∧ String.ltb (prev_actor x) (prev_actor y) = true).
Proof.
  unfold vertexComp. destruct (dist x =? dist y) eqn:He; simpl.
  - apply Z.eqb_eq in He. split; [auto|]. intros [?|[_ ?]]; [lia|done].
  - apply Z.eqb_neq in He. rewrite Z.ltb_lt. split; [auto|].
    intros [?|[? _]]; [done|lia].
Qed.

Lemma vertexComp_false x y :
  vertexComp x y = false
  ↔ dist x < dist y
    ∨ (dist x = dist y
       ∧ String.ltb (prev_actor x) (prev_actor y) = false).
Proof.
  rewrite <- not_true_iff_false, vertexComp_alt. split.
  - intros Hn. destruct (decide (dist x < dist y)); [by left|right].
    destruct (decide (dist x = dist y)) as [He|Hne].
    + split; [done|]. apply not_true_iff_false. intros Hl. apply Hn. auto.
    + exfalso. apply Hn. left. lia.
  - intros [?|[He Hl]] [?|[He' Hl']]; try lia. congruence.
Qed.

Lemma ltb_neg_trans a b c :
  String.ltb a b = false → String.ltb b c = false → String.ltb a c = false.
Proof.
  rewrite !ltb_false_le. intros Hba Hcb. by etrans.
Qed.

Lemma vertexComp_neg_trans x y z :
  vertexComp x y = false → vertexComp y z = false → vertexComp x z = false.
Proof.
  rewrite !vertexComp_false.
  intros [?|[He1 Hl1]] [?|[He2 Hl2]]; [left; lia..|].
  right. split; [lia|]. by eapply ltb_neg_trans.
Qed.

Lemma vertexComp_irrefl x : vertexComp x x = false.
Proof. apply vertexComp_false. right. split; [done|apply ltb_irrefl]. Qed.

Lemma vertexComp_asym x y : vertexComp x y = true → vertexComp y x = false.
Proof.
  intros Hxy. apply vertexComp_alt in Hxy as [?|[He Hl]];
    apply vertexComp_false; [by left|].
  right. split; [done|by apply ltb_asym].
Qed.

(** X18.  On the values two vertices have at the time of a comparison,
    [vertexComp] is a strict weak order: irreflexive, asymmetric and
    transitive, and two vertices are ordered neither way exactly when their
    distances and their previous actors are equal.  The smaller distance has
    the higher priority. *)
Theorem vertexComp_strict_weak_order :
  (∀ x, vertexComp x x = false)
  ∧ (∀ x y, vertexComp x y = true → vertexComp y x = false)
  ∧ (∀ x y z, vertexComp x y = true → vertexComp y z = true →
              vertexComp x z = true)
  ∧ (∀ x y, vertexComp x y = false ∧ vertexComp y x = false
            ↔ dist x = dist y ∧ prev_actor x = prev_actor y)
  ∧ (∀ x y, dist x < dist y → vertexComp y x = true).
Proof.
  split; [apply vertexComp_irrefl|]. split; [apply vertexComp_asym|].
  split; [|split].
  - intros x y z Hxy Hyz. apply vertexComp_alt.
    apply vertexComp_alt in Hxy as [?|[He1 Hl1]];
      apply vertexComp_alt in Hyz as [?|[He2 Hl2]].
    + left. lia.
    + left. lia.
    + left. lia.
    + right. split; [lia|]. by eapply ltb_trans.
  - intros x y. rewrite !vertexComp_false. split.
    + intros [[?|[He1 Hl1]] [?|[He2 Hl2]]]; try lia.
      split; [done|]. by apply ltb_total.
    + intros [He Hp]. rewrite He, Hp.
      split; right; (split; [done|apply ltb_irrefl]).
  - intros x y Hlt. apply vertexComp_alt. by left.
Qed.

End LineFacts.

(** ** The queue keeps the heap order *)

Module HeapOrderFacts.
Import Cxx HeapSpec HeapFacts.

Lemma parent_lt i : (0 < i)%nat → (parent i < i)%nat.
Proof. intros Hi. unfold parent. pose proof (half_le (i - 1)). lia. Qed.

Lemma parent_children i h :
  (0 < i)%nat → parent i = h ↔ i = (2 * h + 1)%nat ∨ i = (2 * h + 2)%nat.
Proof.
  intros Hi. unfold parent.
  pose proof (Nat.div_mod_eq (i - 1) 2) as Hd.
  pose proof (Nat.mod_upper_bound (i - 1) 2) as Hm. split.
  - intros <-. lia.
  - intros [->| ->].
    + replace (2 * h + 1 - 1)%nat with (h * 2)%nat by lia.
      by rewrite Nat.div_mul.
    + replace (2 * h + 2 - 1)%nat with (1 + h * 2)%nat by lia.
      rewrite Nat.div_add by done. done.
Qed.

Section Heap.
Context {A : Type} `{Inhabited A} (comp : A → A → bool).
Hypothesis Hsw : strict_weak comp.

Lemma insert_total (c : list A) i j x :
  (i < length c)%nat →
  <[i := x]> c !!! j = if decide (j = i) then x else c !!! j.
Proof.
  intros Hi. case_decide as Hj.
  - subst. by apply list_lookup_total_insert_eq.
  - by apply list_lookup_total_insert_ne.
Qed.

Lemma push_heap_loop_heap fuel (c : list A) len hole value :
  (hole < len)%nat → (len ≤ length c)%nat → (hole < fuel)%nat →
  heap_but comp len hole c → fits comp len hole c value →
  heap comp len (push_heap_loop comp fuel c hole 0 value).
Proof.
  destruct Hsw as (Hirr & Hasym & Hnt).
  revert c hole. induction fuel as [|fuel IH];
    intros c hole Hh Hlen Hfuel [Hb1 Hb2] Hfit; [lia|].
  cbn [push_heap_loop]. cbv zeta. fold (parent hole).
  destruct ((0 <? hole)%nat && comp (c !!! parent hole) value) eqn:Hc.
  - apply andb_true_iff in Hc as [Hpos Hcmp]. apply Nat.ltb_lt in Hpos.
    pose proof (parent_lt hole Hpos) as Hp.
    apply IH; [lia|by rewrite length_insert|lia| |].
    + split.
      * intros i Hi Hne Hpne. rewrite !insert_total by lia.
        destruct (decide (i = hole)) as [->|Hih]; [done|].
        destruct (decide (parent i = hole)) as [Hpi|Hpi].
        -- by apply Hb2.
        -- by apply Hb1.
      * intros Hppos i Hi Hpi. rewrite !insert_total by lia.
        pose proof (parent_lt _ Hppos).
        rewrite decide_False by lia.
        assert (comp (c !!! parent (parent hole)) (c !!! parent hole) = false)
          as Hgp by (apply Hb1; lia).
        destruct (decide (i = hole)) as [->|Hih]; [done|].
        eapply Hnt; [exact Hgp|]. rewrite <- Hpi. apply Hb1; [done|done|lia].
    + intros i Hi Hpi. rewrite insert_total by lia.
      destruct (decide (i = hole)) as [->|Hih]; [by apply Hasym|].
      eapply Hnt; [by apply Hasym|]. rewrite <- Hpi.
      apply Hb1; [done|done|lia].
  - intros i Hi. rewrite !insert_total by lia.
    destruct (decide (i = hole)) as [->|Hih].
    + rewrite decide_False by (pose proof (parent_lt hole); lia).
      apply andb_false_iff in Hc as [Hc|Hc]; [|done].
      apply Nat.ltb_ge in Hc. lia.
    + destruct (decide (parent i = hole)) as [Hpi|Hpi].
      * by apply Hfit.
      * by apply Hb1.
Qed.

Lemma push_heap (c : list A) x :
  heap comp (length c) c → heap comp (S (length c)) (push comp c x).
Proof.
  intros Hheap. unfold push. rewrite length_app. cbn [length].
  apply push_heap_loop_heap.
  - lia.
  - rewrite length_app. simpl. lia.
  - lia.
  - split.
    + intros i Hi Hne Hpne. pose proof (parent_lt i).
      rewrite !lookup_total_app_l by lia. apply Hheap. lia.
    + intros Hpos i Hi Hpi. apply parent_children in Hpi; lia.
  - intros i Hi Hpi. apply parent_children in Hpi; lia.
Qed.

Lemma adjust_down_heap fuel (c : list A) len hole :
  (len ≤ length c)%nat → (hole < len)%nat → (len ≤ fuel + hole)%nat →
  heap_but comp len hole c →
  ∃ c1 hole1,
    adjust_down comp fuel c len hole hole = (c1, hole1, hole1)
    ∧ (hole1 < len)%nat ∧ length c1 = length c
    ∧ ¬ (hole1 < (len - 1) / 2)%nat
    ∧ heap_but comp len hole1 c1.
Proof.
  destruct Hsw as (Hirr & Hasym & Hnt).
  revert c hole. induction fuel as [|fuel IH];
    intros c hole Hlen Hh Hfuel [Hb1 Hb2]; [lia|].
  cbn [adjust_down]. cbv zeta.
  destruct (hole <? (len - 1) / 2)%nat eqn:Hlt.
  2:{ apply Nat.ltb_ge in Hlt. exists c, hole. repeat split; auto; lia. }
  apply Nat.ltb_lt in Hlt. pose proof (half_le (len - 1)) as Hhalf.
  set (l := (2 * (hole + 1) - 1)%nat). set (r := (2 * (hole + 1))%nat).
  set (child2 := if comp (c !!! r) (c !!! l) then l else r).
  assert (comp (c !!! child2) (c !!! l) = false
          ∧ comp (c !!! child2) (c !!! r) = false
          ∧ (child2 = l ∨ child2 = r)) as (Hcl & Hcr & Hcase).
  { unfold child2. destruct (comp (c !!! r) (c !!! l)) eqn:Hrl.
    - split; [apply Hirr|]. split; [by apply Hasym|by left].
    - split; [done|]. split; [apply Hirr|by right]. }
  assert (parent l = hole ∧ parent r = hole) as [Hpl Hpr].
  { split; apply parent_children; unfold l, r; lia. }
  assert (hole < child2 ∧ child2 < len)%nat as [Hc1 Hc2]
    by (unfold l, r in *; lia).
  assert (parent child2 = hole) as Hpc by (destruct Hcase as [-> | ->]; done).
  destruct (IH (<[hole := c !!! child2]> c) child2)
    as (c1 & hole1 & Hrun & Hh1 & Hlen1 & Hexit & Hheap1).
  { by rewrite length_insert. }
  { done. }
  { lia. }
  { split.
    - intros i Hi Hne Hpne. rewrite !insert_total by lia.
      destruct (decide (i = hole)) as [->|Hih].
      + rewrite decide_False by (pose proof (parent_lt hole); lia).
        apply Hb2; [lia|lia|done].
      + destruct (decide (parent i = hole)) as [Hpi|Hpi].
        * apply parent_children in Hpi; [|lia].
          destruct Hpi as [->| ->].
          -- replace (2 * hole + 1)%nat with l by (unfold l; lia). exact Hcl.
          -- replace (2 * hole + 2)%nat with r by (unfold r; lia). exact Hcr.
        * by apply Hb1.
    - intros _ i Hi Hpi. rewrite Hpc. rewrite !insert_total by lia.
      pose proof (parent_lt i) as Hpli.
      rewrite decide_True by done.
      rewrite decide_False by lia.
      rewrite <- Hpi. apply Hb1; [done|lia|lia]. }
  exists c1, hole1. split; [exact Hrun|]. split; [done|].
  split; [by rewrite Hlen1, length_insert|]. done.
Qed.

Lemma adjust_heap_heap (c : list A) len value :
  (1 ≤ len)%nat → (len ≤ length c)%nat →
  heap_but comp len 0 c →
  heap comp len (adjust_heap comp c len value).
Proof.
  intros Hlen1 Hlen Hb. unfold adjust_heap.
  destruct (adjust_down_heap len c len 0%nat)
    as (c1 & hole1 & -> & Hh1 & Hl1 & Hexit & [Hb1 Hb2]); [done|lia|lia|done|].
  pose proof (half_le (len - 1)) as Hhalf1.
  destruct (Nat.even len && (hole1 =? (len - 2) / 2)%nat) eqn:Hc.
  - apply andb_true_iff in Hc as [He Heq]. apply Nat.eqb_eq in Heq.
    assert (2 ≤ len)%nat as Hlen2.
    { destruct len as [|[|?]]; [lia|done|lia]. }
    pose proof (half_even len He Hlen2) as Hlast. rewrite <- Heq in Hlast.
    rewrite Hlast.
    assert (parent (len - 1) = hole1) as Hpl.
    { apply parent_children; lia. }
    apply push_heap_loop_heap; [lia|rewrite length_insert; lia|lia| |].
    + split.
      * intros i Hi Hne Hpne. rewrite !insert_total by lia.
        destruct (decide (i = hole1)) as [->|Hih].
        -- rewrite decide_False by (pose proof (parent_lt hole1); lia).
           apply Hb2; [lia|lia|done].
        -- destruct (decide (parent i = hole1)) as [Hpi|Hpi].
           ++ apply parent_children in Hpi; lia.
           ++ by apply Hb1.
      * intros _ i Hi Hpi. apply parent_children in Hpi; lia.
    + intros i Hi Hpi. apply parent_children in Hpi; lia.
  - assert (∀ i, (0 < i < len)%nat → parent i ≠ hole1) as Hleaf.
    { intros i Hi Hpi. apply parent_children in Hpi; [|lia].
      apply andb_false_iff in Hc as [He|Hne].
      - assert (Nat.odd len = true) as Ho
          by (by rewrite <- Nat.negb_even, He).
        apply Nat.odd_spec in Ho as [k ->].
        replace (2 * k + 1 - 1)%nat with (k * 2)%nat in Hexit by lia.
        rewrite Nat.div_mul in Hexit by done. lia.
      - apply Nat.eqb_neq in Hne.
        destruct (Nat.even len) eqn:He.
        + apply Nat.even_spec in He as [k ->].
          destruct k as [|k]; [lia|].
          replace (2 * S k - 2)%nat with (k * 2)%nat in Hne by lia.
          rewrite Nat.div_mul in Hne by done.
          replace (2 * S k - 1)%nat with (1 + k * 2)%nat in Hexit by lia.
          rewrite Nat.div_add in Hexit by done.
          simpl in Hexit. lia.
        + assert (Nat.odd len = true) as Ho
            by (by rewrite <- Nat.negb_even, He).
          apply Nat.odd_spec in Ho as [k ->].
          replace (2 * k + 1 - 1)%nat with (k * 2)%nat in Hexit by lia.
          rewrite Nat.div_mul in Hexit by done. lia. }
    apply push_heap_loop_heap; [lia|lia|lia| |].
    + split; [done|]. intros _ i Hi Hpi. by apply Hleaf in Hpi.
    + intros i Hi Hpi. by apply Hleaf in Hpi.
Qed.

Lemma pop_heap (c : list A) :
  heap comp (length c) c → heap comp (length (pop comp c)) (pop comp c).
Proof.
  intros Hheap. rewrite length_pop. unfold pop.
  destruct (1 <? length c)%nat eqn:Hn.
  - apply Nat.ltb_lt in Hn. set (n := length c) in *.
    set (c' := <[(n - 1)%nat := c !!! 0%nat]> c).
    assert (heap comp (n - 1) (adjust_heap comp c' (n - 1)
                                 (c !!! (n - 1)%nat))) as Hr.
    { apply adjust_heap_heap; [lia|unfold c'; rewrite length_insert; lia|].
      split.
      - intros i Hi _ _. unfold c'. pose proof (parent_lt i).
        rewrite !insert_total by (fold n; lia).
        rewrite !decide_False by lia. apply Hheap. fold n. lia.
      - lia. }
    intros i Hi. replace (pred n) with (n - 1)%nat in Hi by lia.
    pose proof (parent_lt i).
    rewrite !lookup_total_take. rewrite !decide_True by lia. by apply Hr.
  - apply Nat.ltb_ge in Hn. intros i Hi. lia.
Qed.

Lemma heap_top (c : list A) i :
  heap comp (length c) c → (i < length c)%nat →
  comp (c !!! 0%nat) (c !!! i) = false.
Proof.
  destruct Hsw as (Hirr & Hasym & Hnt). intros Hheap.
  induction i as [i IH] using lt_wf_ind. intros Hi.
  destruct (decide (i = 0)%nat) as [->|Hpos]; [apply Hirr|].
  pose proof (parent_lt i). eapply Hnt.
  - apply (IH (parent i)); lia.
  - apply Hheap. lia.
Qed.

End Heap.

Lemma heap_ext {A} `{Inhabited A} (comp comp' : A → A → bool) (c : list A) :
  (∀ x y, x ∈ c → y ∈ c → comp' x y = comp x y) →
  heap comp (length c) c → heap comp' (length c) c.
Proof.
  intros Hext Hheap i Hi. pose proof (parent_lt i).
  rewrite Hext; [by apply Hheap| |];
    apply list_elem_of_lookup_total_2; lia.
Qed.

End HeapOrderFacts.

(** ** The search without weights is breadth first *)

Module LevelFacts.
Import Cxx ActorGraph PathSpec LoadSpec SearchSpec HeapSpec LevelSpec.
Import PathfinderFacts LoadFacts HeapFacts SearchFacts PathFacts LineFacts.
Import HeapOrderFacts.

Lemma comp_now_strict_weak vs : strict_weak (comp_now vs).
Proof.
  split; [|split]; unfold comp_now.
  - intros x. apply vertexComp_irrefl.
  - intros x y. apply vertexComp_asym.
  - intros x y z. apply vertexComp_neg_trans.
Qed.

Lemma comp_now_dist (vs : gmap string Vertex) x y vx vy :
  vs !! x = Some vx → vs !! y = Some vy →
  comp_now vs x y = false → dist vx ≤ dist vy.
Proof.
  intros Hx Hy. unfold comp_now.
  rewrite (lookup_total_correct _ _ _ Hx), (lookup_total_correct _ _ _ Hy).
  rewrite vertexComp_false. lia.
Qed.

Lemma comp_now_same_keys (vs vs' : gmap string Vertex) (q : list string) :
  (∀ k, k ∈ q → ∃ v v', vs !! k = Some v ∧ vs' !! k = Some v'
                        ∧ dist v' = dist v
                        ∧ prev_actor v' = prev_actor v) →
  ∀ x y, x ∈ q → y ∈ q → comp_now vs' x y = comp_now vs x y.
Proof.
  intros Hsame x y Hx Hy.
  destruct (Hsame x Hx) as (vx & vx' & Hvx & Hvx' & Hdx & Hpx).
  destruct (Hsame y Hy) as (vy & vy' & Hvy & Hvy' & Hdy & Hpy).
  unfold comp_now.
  rewrite (lookup_total_correct _ _ _ Hvx), (lookup_total_correct _ _ _ Hvy).
  rewrite (lookup_total_correct _ _ _ Hvx'), (lookup_total_correct _ _ _ Hvy').
  unfold vertexComp. by rewrite Hdx, Hdy, Hpx, Hpy.
Qed.

Lemma level_seen_ext g D cur (Seen Seen' : string → Prop) st :
  (∀ b, Seen' b → Seen b) → level g D cur Seen st → level g D cur Seen' st.
Proof. intros Himp [?????? Hseen]. split; eauto. Qed.

Lemma level_seen_add g D cur (Seen : string → Prop) st b :
  (∀ vb, s_vertices st !! b = Some vb → dist vb ≤ D + 1) →
  level g D cur Seen st → level g D cur (λ x, Seen x ∨ x = b) st.
Proof.
  intros Hb [?????? Hseen]. split; auto.
  intros x vx [Hx| ->] Hvx; [eauto|auto].
Qed.

(** *** One relaxation *)

Lemma relax_level g start end_name D w (Seen : string → Prop)
    am mm vs q movies movie wt cast adj :
  consistent g 1 →
  searching g 1 start end_name (Some w) Seen (mkSearch am mm vs q) →
  level g D (Some w) Seen (mkSearch am mm vs q) →
  actor_map g !! w = Some movies → movie ∈ movies →
  movie_map g !! movie = Some (wt, cast) → adj ∈ cast →
  ∃ vs' q',
    relax w movie wt (vs, q) adj = Returns (vs', q')
    ∧ searching g 1 start end_name (Some w) (λ b, Seen b ∨ b = adj)
        (mkSearch am mm vs' q')
    ∧ level g D (Some w) (λ b, Seen b ∨ b = adj) (mkSearch am mm vs' q')
    ∧ measure (mkSearch am mm vs' q') ≤ measure (mkSearch am mm vs q).
Proof.
  intros Hc Hs Hl Hw Hmovie Hmm Hadj.
  destruct (relax_searching g 1 start end_name w Seen am mm vs q movies movie
              wt cast adj Hc Hs Hw Hmovie Hmm Hadj)
    as (vs' & q' & Hr & Hs' & Hm').
  exists vs', q'. split; [done|]. split; [done|]. split; [|done].
  destruct Hc as (Hc1 & Hc2 & Hcdom & Hcnamed & Hcempty & HW & Hsize).
  pose proof Hs as [_ _ Hch Hpq Hdone Hopen Hclosed Hcur Hseen].
  pose proof Hch as [Hdom Hname Hstart Hdist Hprev Hroot].
  pose proof Hl as [Lheap Ldone Lpq Lprev Lclosed Lcur Lseen].
  cbn [s_actor_map s_movie_map s_vertices pq] in *.
  destruct (Hcur w eq_refl) as (vw & Hvw & Hwdone & Hwbound).
  pose proof (Hname _ _ Hvw) as Hwname.
  pose proof (Lcur w vw eq_refl Hvw) as HwD.
  destruct (Hdone _ _ Hvw Hwdone) as [Hwfin Hwend].
  destruct (Hdist _ _ Hvw) as [?|Hwrange]; [done|].
  destruct (decide (adj = w)) as [->|Hne].
  { rewrite (relax_self vs q w vw movie wt Hvw Hwname) in Hr.
    injection Hr as <- <-. apply level_seen_add; [|done].
    cbn [s_vertices]. intros vb Hvb. rewrite Hvw in Hvb.
    injection Hvb as <-. lia. }
  destruct (Hc2 _ _ _ _ Hmm Hadj) as (Hwt & movies' & Hadjm & Hmovie').
  assert (wt = 1) as -> by lia.
  assert (is_Some (vs !! adj)) as [a Ha].
  { apply elem_of_dom. rewrite Hdom, Hcdom. apply elem_of_dom. eauto. }
  pose proof (done_count_le vs) as Hdc.
  pose proof (size_same_dom _ _ Hdom) as Hsz.
  rewrite (relax_other vs q w vw movie 1 adj a Hvw Hwname Ha Hne) in Hr
    by (unfold INT_MIN, INT_MAX in *; nia).
  destruct (dist vw + 1 <? dist a) eqn:Hlt.
  2:{ apply Z.ltb_ge in Hlt. injection Hr as <- <-.
      apply level_seen_add; [|done]. cbn [s_vertices]. intros vb Hvb.
      rewrite Ha in Hvb. injection Hvb as <-. lia. }
  apply Z.ltb_lt in Hlt. cbv zeta in Hr. injection Hr as <- <-.
  set (a' := mkVertex (dist vw + 1) (done a) w movie (name a)).
  set (vs' := <[adj := a']> vs).
  assert (dist a = INT_MAX) as Hinf.
  { destruct (decide (dist a = INT_MAX)) as [|Hfin]; [done|].
    destruct (Hopen _ _ Ha Hfin) as [Hd|Hin].
    - pose proof (Ldone _ _ Ha Hd). lia.
    - pose proof (Lpq _ _ Hin Ha). lia. }
  assert (adj ∉ q) as Hnq.
  { intros Hin. destruct (Hpq adj Hin) as (v & Hv & Hfin). congruence. }
  assert (done a = false) as Hnd.
  { destruct (done a) eqn:Hd; [|done]. by destruct (Hdone _ _ Ha Hd). }
  assert (∀ k v, vs' !! k = Some v →
            (k = adj ∧ v = a') ∨ (k ≠ adj ∧ vs !! k = Some v)) as Hcases.
  { intros k v Hk. unfold vs' in Hk.
    apply lookup_insert_Some in Hk as [[<- <-]|[? ?]]; auto. }
  assert (∀ k v, vs !! k = Some v → dist v ≤ INT_MAX) as Hle.
  { intros k v Hk. destruct (Hdist k v Hk) as [->|?]; [done|nia]. }
  split; cbn [s_vertices pq]; fold vs'.
  - rewrite length_push. apply push_heap; [apply comp_now_strict_weak|].
    eapply heap_ext; [|exact Lheap]. apply comp_now_same_keys.
    intros k Hk. destruct (Hpq k Hk) as (v & Hv & _). exists v, v.
    split; [done|]. split; [|done]. unfold vs'.
    rewrite lookup_insert_ne; [done|]. intros ->. done.
  - intros k v Hk Hd. destruct (Hcases _ _ Hk) as [[-> ->]|[_ Hk']].
    + simpl in Hd. congruence.
    + by eapply Ldone.
  - intros k v Hin Hk. apply elem_of_push in Hin.
    destruct (Hcases _ _ Hk) as [[-> ->]|[Hkne Hk']]; [simpl; lia|].
    destruct Hin as [?|Hin]; [done|]. by eapply Lpq.
  - intros k v Hk Hp. destruct (Hcases _ _ Hk) as [[-> ->]|[Hkne Hk']].
    + exists vw. unfold vs'. rewrite lookup_insert_ne by done.
      split; [done|]. simpl. lia.
    + destruct (Lprev _ _ Hk' Hp) as (p & Hpk & Hpd).
      exists p. split; [|done]. unfold vs'. rewrite lookup_insert_ne; [done|].
      intros Heq. rewrite <- Heq, Ha in Hpk. injection Hpk as <-.
      pose proof (Hle _ _ Hk'). lia.
  - intros k v Hk Hd Hcurne b vb Hb Hvb.
    destruct (Hcases _ _ Hk) as [[-> ->]|[Hkne Hk']];
      [simpl in Hd; congruence|].
    destruct (Hcases _ _ Hvb) as [[-> ->]|[Hbne Hvb']].
    + pose proof (Lclosed _ _ Hk' Hd Hcurne adj a Hb Ha).
      pose proof (Hle _ _ Hk'). simpl. lia.
    + by eapply Lclosed.
  - intros w' v [= <-] Hv. unfold vs' in Hv.
    rewrite lookup_insert_ne in Hv by done. rewrite Hvw in Hv.
    by injection Hv as <-.
  - intros b vb [Hb| ->] Hvb.
    + destruct (Hcases _ _ Hvb) as [[-> ->]|[Hbne Hvb']]; [simpl; lia|].
      by eapply Lseen.
    + unfold vs' in Hvb. rewrite lookup_insert_eq in Hvb.
      injection Hvb as <-. simpl. lia.
Qed.

(** *** The two loops over the movies and their casts *)

Lemma explore_movie_level g start end_name D w (Seen : string → Prop)
    st movies movie :
  consistent g 1 →
  searching g 1 start end_name (Some w) Seen st →
  level g D (Some w) Seen st →
  actor_map g !! w = Some movies → movie ∈ movies →
  ∃ st',
    explore_movie w st movie = Returns st'
    ∧ searching g 1 start end_name (Some w)
        (λ b, Seen b ∨ ∃ wt cast, movie_map g !! movie = Some (wt, cast)
                                  ∧ b ∈ cast) st'
    ∧ level g D (Some w)
        (λ b, Seen b ∨ ∃ wt cast, movie_map g !! movie = Some (wt, cast)
                                  ∧ b ∈ cast) st'
    ∧ measure st' ≤ measure st.
Proof.
  intros Hc Hs Hl Hw Hmovie. destruct st as [am mm vs q].
  pose proof (se_am _ _ _ _ _ _ _ Hs) as Ham.
  pose proof (se_mm _ _ _ _ _ _ _ Hs) as Hmm.
  cbn [s_actor_map s_movie_map] in Ham, Hmm. subst am mm.
  destruct Hc as (Hc1 & Hc').
  destruct (Hc1 _ _ _ Hw Hmovie) as (wt & cast & Hmm & Hwcast).
  pose proof (conj Hc1 Hc' : consistent g 1) as Hc.
  unfold explore_movie. cbn [s_movie_map s_vertices pq].
  unfold subscript. rewrite Hmm. cbn [fst snd]. rewrite Hmm. cbn [fst snd].
  destruct (for_each_prefix (relax w movie wt)
              (λ pre s,
                 searching g 1 start end_name (Some w)
                   (λ b, Seen b ∨ b ∈ pre)
                   (mkSearch (actor_map g) (movie_map g) s.1 s.2)
                 ∧ level g D (Some w) (λ b, Seen b ∨ b ∈ pre)
                     (mkSearch (actor_map g) (movie_map g) s.1 s.2))
              (λ s, measure (mkSearch (actor_map g) (movie_map g) s.1 s.2))
              (λ x, x ∈ cast) cast [] (vs, q))
    as ([vs' q'] & Hrun & [Hs' Hl'] & Hm').
  - intros pre x [vs1 q1] [Hs1 Hl1] Hx. cbn [fst snd] in *.
    destruct (relax_level g start end_name D w _ _ _ vs1 q1 movies movie
                wt cast x Hc Hs1 Hl1 Hw Hmovie Hmm Hx)
      as (vs2 & q2 & Hr & Hs2 & Hl2 & Hm2).
    exists (vs2, q2). split; [done|]. split; [|done]. cbn [fst snd].
    assert (∀ b, Seen b ∨ b ∈ pre ++ [x] → (Seen b ∨ b ∈ pre) ∨ b = x)
      as Himp.
    { intros b [?|Hb]; [auto|].
      apply elem_of_app in Hb as [?|Hb]; [auto|].
      apply list_elem_of_singleton in Hb. auto. }
    split; [exact (searching_seen_ext _ _ _ _ _ _ _ _ Himp Hs2)|
            exact (level_seen_ext _ _ _ _ _ _ Himp Hl2)].
  - done.
  - cbn [fst snd].
    assert (∀ b, Seen b ∨ b ∈ [] → Seen b) as Himp.
    { intros b [?|Hb]; [done|]. by apply elem_of_nil in Hb. }
    split; [exact (searching_seen_ext _ _ _ _ _ _ _ _ Himp Hs)|
            exact (level_seen_ext _ _ _ _ _ _ Himp Hl)].
  - rewrite Hrun. cbn [mbind outcome_bind]. eexists. split; [done|].
    cbn [fst snd] in *.
    assert (∀ b, Seen b ∨ (∃ wt' cast', Some (wt, cast) = Some (wt', cast')
                                        ∧ b ∈ cast')
                 → Seen b ∨ b ∈ [] ++ cast) as Himp.
    { intros b [?|(wt' & cast' & Hb & ?)]; [by left|right].
      by injection Hb as <- <-. }
    split; [exact (searching_seen_ext _ _ _ _ _ _ _ _ Himp Hs')|].
    split; [exact (level_seen_ext _ _ _ _ _ _ Himp Hl')|done].
Qed.

Lemma explore_all_level g start end_name D w st movies :
  consistent g 1 →
  searching g 1 start end_name (Some w) (λ _, False) st →
  level g D (Some w) (λ _, False) st →
  actor_map g !! w = Some movies →
  ∃ st',
    for_each (explore_movie w) movies st = Returns st'
    ∧ searching g 1 start end_name (Some w) (adjacent g w) st'
    ∧ level g D (Some w) (adjacent g w) st'
    ∧ measure st' ≤ measure st.
Proof.
  intros Hc Hs Hl Hw.
  destruct (for_each_prefix (explore_movie w)
              (λ pre st,
                 searching g 1 start end_name (Some w)
                   (λ b, ∃ m wt cast, m ∈ pre
                      ∧ movie_map g !! m = Some (wt, cast) ∧ b ∈ cast) st
                 ∧ level g D (Some w)
                     (λ b, ∃ m wt cast, m ∈ pre
                        ∧ movie_map g !! m = Some (wt, cast) ∧ b ∈ cast) st)
              measure (λ m, m ∈ movies) movies [] st)
    as (st' & Hrun & [Hs' Hl'] & Hm').
  - intros pre m st1 [Hs1 Hl1] Hm.
    destruct (explore_movie_level g start end_name D w _ st1 movies m
                Hc Hs1 Hl1 Hw Hm) as (st2 & Hr & Hs2 & Hl2 & Hm2).
    exists st2. split; [done|]. split; [|done].
    assert (∀ b, (∃ m' wt cast, m' ∈ pre ++ [m]
                   ∧ movie_map g !! m' = Some (wt, cast) ∧ b ∈ cast)
                 → (∃ m' wt cast, m' ∈ pre
                      ∧ movie_map g !! m' = Some (wt, cast) ∧ b ∈ cast)
                   ∨ ∃ wt cast, movie_map g !! m = Some (wt, cast)
                                ∧ b ∈ cast) as Himp.
    { intros b (m' & wt & cast & Hin & Hmm & Hb).
      apply elem_of_app in Hin as [Hin|Hin].
      - left. by exists m', wt, cast.
      - apply list_elem_of_singleton in Hin as ->. right. by exists wt, cast. }
    split; [exact (searching_seen_ext _ _ _ _ _ _ _ _ Himp Hs2)|
            exact (level_seen_ext _ _ _ _ _ _ Himp Hl2)].
  - done.
  - assert (∀ b, (∃ m wt cast, m ∈ [] ∧ movie_map g !! m = Some (wt, cast)
                                ∧ b ∈ cast) → False) as Himp.
    { intros b (m & _ & _ & Hin & _). by apply elem_of_nil in Hin. }
    split; [exact (searching_seen_ext _ _ _ _ _ _ _ _ Himp Hs)|
            exact (level_seen_ext _ _ _ _ _ _ Himp Hl)].
  - exists st'. split; [done|].
    assert (∀ b, adjacent g w b →
              ∃ m wt cast, m ∈ [] ++ movies
                ∧ movie_map g !! m = Some (wt, cast) ∧ b ∈ cast) as Himp.
    { intros b (m & movies' & wt & cast & Hw' & Hin & Hmm & Hb).
      rewrite Hw in Hw'. injection Hw' as <-. by exists m, wt, cast. }
    split; [exact (searching_seen_ext _ _ _ _ _ _ _ _ Himp Hs')|].
    split; [exact (level_seen_ext _ _ _ _ _ _ Himp Hl')|done].
Qed.

(** *** One round of the search loop *)

Lemma level_top g start end_name D am mm vs top rest w k v :
  searching g 1 start end_name None (λ _, False)
    (mkSearch am mm vs (top :: rest)) →
  level g D None (λ _, False) (mkSearch am mm vs (top :: rest)) →
  vs !! top = Some w → k ∈ top :: rest → vs !! k = Some v →
  dist w ≤ dist v.
Proof.
  intros Hs Hl Hw Hk Hv.
  pose proof (lv_heap _ _ _ _ _ Hl) as Hheap. cbn [s_vertices pq] in Hheap.
  apply list_elem_of_lookup in Hk as [i Hi].
  pose proof (heap_top (comp_now vs) (comp_now_strict_weak vs)
                (top :: rest) i Hheap) as Htop.
  rewrite (list_lookup_total_correct _ _ _ Hi) in Htop.
  cbn [lookup_total list_lookup_total] in Htop.
  eapply comp_now_dist; [done|done|]. apply Htop.
  by eapply lookup_lt_Some.
Qed.

Lemma level_pop g start end_name D am mm vs top rest w :
  searching g 1 start end_name None (λ _, False)
    (mkSearch am mm vs (top :: rest)) →
  level g D None (λ _, False) (mkSearch am mm vs (top :: rest)) →
  vs !! top = Some w →
  level g (dist w) None (λ _, False)
    (mkSearch am mm vs (pop (comp_now vs) (top :: rest))).
Proof.
  intros Hs Hl Hw.
  pose proof Hl as [Lheap Ldone Lpq Lprev Lclosed Lcur Lseen].
  cbn [s_vertices pq] in *.
  assert (D ≤ dist w ≤ D + 1) as HD by (apply (Lpq top); [left|done]).
  split; cbn [s_vertices pq]; try done.
  - by apply pop_heap; [apply comp_now_strict_weak|].
  - intros k v Hk Hd. pose proof (Ldone _ _ Hk Hd). lia.
  - intros k v Hin Hk. apply elem_of_pop in Hin. cbn [tail] in Hin.
    assert (k ∈ top :: rest) as Hin' by (by right).
    pose proof (Lpq _ _ Hin' Hk).
    pose proof (level_top _ _ _ _ _ _ _ _ _ _ _ _ Hs Hl Hw Hin' Hk). lia.
Qed.

Lemma level_mark g start end_name D am mm vs top rest w :
  searching g 1 start end_name None (λ _, False)
    (mkSearch am mm vs (top :: rest)) →
  level g D None (λ _, False) (mkSearch am mm vs (top :: rest)) →
  vs !! top = Some w →
  let w' := mkVertex (dist w) true (prev_actor w) (prev_movie w) (name w) in
  level g (dist w) (Some top) (λ _, False)
    (mkSearch am mm (<[top := w']> vs) (pop (comp_now vs) (top :: rest))).
Proof.
  intros Hs Hl Hw w'.
  pose proof (level_pop _ _ _ _ _ _ _ _ _ _ Hs Hl Hw)
    as [Lheap Ldone Lpq Lprev Lclosed Lcur Lseen].
  cbn [s_vertices pq] in *. set (vs' := <[top := w']> vs).
  assert (∀ k v, vs' !! k = Some v →
            ∃ v0, vs !! k = Some v0 ∧ dist v = dist v0
                  ∧ prev_actor v = prev_actor v0
                  ∧ (done v = true → k = top ∨ done v0 = true)) as Hold.
  { intros k v Hk. unfold vs' in Hk.
    apply lookup_insert_Some in Hk as [[<- <-]|[? ?]].
    - exists w. simpl. repeat split; auto.
    - exists v. repeat split; auto. }
  assert (∀ k v0, vs !! k = Some v0 →
            ∃ v, vs' !! k = Some v ∧ dist v = dist v0
                 ∧ prev_actor v = prev_actor v0) as Hnew.
  { intros k v0 Hk. unfold vs'. destruct (decide (k = top)) as [->|Hne].
    - exists w'. rewrite lookup_insert_eq. rewrite Hw in Hk.
      by injection Hk as <-.
    - exists v0. by rewrite lookup_insert_ne. }
  split; cbn [s_vertices pq]; fold vs'.
  - eapply heap_ext; [|exact Lheap]. apply comp_now_same_keys.
    intros k Hk. apply elem_of_pop in Hk. cbn [tail] in Hk.
    destruct (se_pq _ _ _ _ _ _ _ Hs k) as (v & Hv & _); [by right|].
    cbn [s_vertices] in Hv.
    destruct (Hnew _ _ Hv) as (v' & Hv' & Hd & Hp). by exists v, v'.
  - intros k v Hk Hd.
    destruct (Hold _ _ Hk) as (v0 & Hk0 & -> & _ & Hcase).
    destruct (Hcase Hd) as [->|Hd0].
    + rewrite Hw in Hk0. by injection Hk0 as <-.
    + by eapply Ldone.
  - intros k v Hin Hk. destruct (Hold _ _ Hk) as (v0 & Hk0 & -> & _).
    by eapply Lpq.
  - intros k v Hk Hp.
    destruct (Hold _ _ Hk) as (v0 & Hk0 & -> & Hpa & _). rewrite Hpa in *.
    destruct (Lprev _ _ Hk0 Hp) as (p & Hpk & Hpd).
    destruct (Hnew _ _ Hpk) as (p' & Hp' & Hpd' & _). exists p'.
    split; [done|lia].
  - intros k v Hk Hd Hcurne b vb Hb Hvb.
    destruct (Hold _ _ Hk) as (v0 & Hk0 & -> & _ & Hcase).
    destruct (Hold _ _ Hvb) as (vb0 & Hvb0 & -> & _).
    destruct (Hcase Hd) as [->|Hd0]; [done|].
    by eapply Lclosed.
  - intros ? v [= <-] Hv. unfold vs' in Hv. rewrite lookup_insert_eq in Hv.
    by injection Hv as <-.
  - done.
Qed.

Lemma level_close g D w st :
  level g D (Some w) (adjacent g w) st → level g D None (λ _, False) st.
Proof.
  intros [Lheap Ldone Lpq Lprev Lclosed Lcur Lseen]. split; try done.
  intros k v Hk Hd _ b vb Hb Hvb. destruct (decide (k = w)) as [->|Hne].
  - rewrite (Lcur w v eq_refl Hk). by eapply Lseen.
  - eapply Lclosed; try done. congruence.
Qed.

(** *** No shorter chain than the distance of the vertex on top *)

Lemma path_bound g start end_name D st hs k v b :
  searching g 1 start end_name None (λ _, False) st →
  level g D None (λ _, False) st →
  s_vertices st !! k = Some v → dist v ≠ INT_MAX →
  connects g k hs b = true →
  (∃ vb, s_vertices st !! b = Some vb
         ∧ dist vb ≤ dist v + Z.of_nat (length hs))
  ∨ (∃ x vx, x ∈ pq st ∧ s_vertices st !! x = Some vx
             ∧ dist vx ≤ dist v + Z.of_nat (length hs)).
Proof.
  intros Hs Hl. revert k v.
  induction hs as [|[m a] hs IH]; intros k v Hk Hfin Hc.
  - simpl in Hc. apply bool_decide_eq_true in Hc as <-. left. exists v.
    split; [done|]. simpl. lia.
  - simpl in Hc. apply andb_true_iff in Hc as [Hc Hrest].
    apply andb_true_iff in Hc as [Hp1 Hp2].
    destruct (se_open _ _ _ _ _ _ _ Hs k v Hk Hfin) as [Hd|Hin].
    + pose proof (plays_in_adjacent _ _ _ _ Hp1 Hp2) as Hadj.
      destruct (se_closed _ _ _ _ _ _ _ Hs k v Hk Hd) with (b := a)
        as (va & Hva & Hafin); [done|done|].
      pose proof (lv_closed _ _ _ _ _ Hl k v Hk Hd) as Hcl.
      specialize (Hcl ltac:(done) a va Hadj Hva).
      cbn [length]. rewrite Nat2Z.inj_succ.
      destruct (IH a va Hva Hafin Hrest) as [(vb & Hvb & Hb)|(x & vx & Hx & Hvx & Hb)].
      * left. exists vb. split; [done|lia].
      * right. exists x, vx. split; [done|]. split; [done|lia].
    + right. exists k, v. split; [done|]. split; [done|lia].
Qed.

Lemma optimal_at_pop g start end_name D am mm vs top rest w hs :
  searching g 1 start end_name None (λ _, False)
    (mkSearch am mm vs (top :: rest)) →
  level g D None (λ _, False) (mkSearch am mm vs (top :: rest)) →
  vs !! top = Some w →
  connects g start hs top = true →
  dist w ≤ Z.of_nat (length hs).
Proof.
  intros Hs Hl Hw Hc.
  destruct (ch_start _ _ _ _ (se_chained _ _ _ _ _ _ _ Hs))
    as (v0 & Hv0 & Hd0 & _). cbn [s_vertices] in Hv0.
  destruct (path_bound g start end_name D _ hs start v0 top Hs Hl Hv0)
    as [(vb & Hvb & Hb)|(x & vx & Hx & Hvx & Hb)]; [by rewrite Hd0|done|..].
  - cbn [s_vertices] in Hvb. rewrite Hw in Hvb. injection Hvb as <-. lia.
  - cbn [s_vertices pq] in *.
    pose proof (level_top _ _ _ _ _ _ _ _ _ _ _ _ Hs Hl Hw Hx Hvx). lia.
Qed.

(** *** The search loop *)

Lemma search_loop_level g start end_name fuel D st working :
  consistent g 1 →
  searching g 1 start end_name None (λ _, False) st →
  level g D None (λ _, False) st →
  (∃ v, s_vertices st !! working = Some v ∧ dist v ≠ INT_MAX) →
  (Z.to_nat (measure st) < fuel)%nat →
  ∃ st' working',
    search_loop fuel end_name st working = Returns (st', working')
    ∧ s_actor_map st' = actor_map g ∧ s_movie_map st' = movie_map g
    ∧ chained g 1 start (s_vertices st')
    ∧ (∀ k v, s_vertices st' !! k = Some v → prev_actor v ≠ "" →
         ∃ p, s_vertices st' !! prev_actor v = Some p
              ∧ dist v = dist p + 1)
    ∧ ∃ v, s_vertices st' !! working' = Some v ∧ dist v ≠ INT_MAX
           ∧ (working' = end_name
              ∧ (∀ hs, connects g start hs end_name = true →
                       dist v ≤ Z.of_nat (length hs))
              ∨ ∀ hs, connects g start hs end_name = false).
Proof.
  intros Hc. revert D st working.
  induction fuel as [|fuel IH]; intros D st working Hs Hl Hwork Hfuel; [lia|].
  pose proof (measure_nonneg _ _ _ _ _ _ _ Hs) as Hmpos.
  pose proof (se_am _ _ _ _ _ _ _ Hs) as Ham.
  pose proof (se_mm _ _ _ _ _ _ _ Hs) as Hmm.
  pose proof (se_chained _ _ _ _ _ _ _ Hs) as Hch.
  destruct st as [am mm vs q].
  cbn [s_actor_map s_movie_map s_vertices pq] in *. subst am mm.
  destruct q as [|top rest].
  { exists (mkSearch (actor_map g) (movie_map g) vs []), working.
    split; [done|]. split; [done|]. split; [done|]. split; [done|].
    split; [apply (lv_prev _ _ _ _ _ Hl)|].
    destruct Hwork as (v & Hv & Hfin). exists v.
    split; [done|]. split; [done|]. right.
    intros hs. destruct (connects g start hs end_name) eqn:Hcn; [|done].
    destruct (ch_start _ _ _ _ Hch) as (v0 & Hv0 & Hd0 & _).
    exfalso. eapply (exhausted_reach g 1 start end_name _ hs start v0
                       end_name Hs); try done. by rewrite Hd0. }
  destruct (se_pq _ _ _ _ _ _ _ Hs top) as (w & Hw & Hwfin); [left|].
  cbn [s_vertices] in Hw.
  pose proof (ch_name _ _ _ _ Hch _ _ Hw) as Hwname.
  cbn [search_loop pq s_vertices s_actor_map s_movie_map]. rewrite Hw.
  destruct (String.eqb (name w) end_name) eqn:Hend.
  { apply String.eqb_eq in Hend. eexists _, top. split; [done|].
    cbn [s_actor_map s_movie_map s_vertices pq].
    split; [done|]. split; [done|]. split; [done|].
    split; [apply (lv_prev _ _ _ _ _ Hl)|].
    exists w. split; [done|]. split; [done|]. left.
    split; [congruence|]. intros hs Hcn.
    eapply optimal_at_pop; [exact Hs|exact Hl|done|]. congruence. }
  apply String.eqb_neq in Hend.
  cbn [length] in Hmpos.
  destruct (done w) eqn:Hd.
  { apply (IH (dist w)).
    - by eapply searching_pop.
    - by eapply level_pop.
    - eauto.
    - unfold measure in *. cbn [pq s_vertices] in *. rewrite length_pop.
      cbn [length] in *. lia. }
  cbv zeta.
  assert (is_Some (actor_map g !! top)) as [movies Hmovies].
  { destruct Hc as (_ & _ & Hcdom & _). apply elem_of_dom.
    rewrite <- Hcdom, <- (ch_dom _ _ _ _ Hch). apply elem_of_dom. eauto. }
  unfold subscript. rewrite Hwname, Hmovies. cbn [fst snd].
  destruct (searching_mark g 1 start end_name (actor_map g) (movie_map g)
              vs top rest w (comp_now vs) Hc Hs Hw Hd) as [Hs2 Hm2];
    [congruence|].
  pose proof (level_mark g start end_name D (actor_map g) (movie_map g)
                vs top rest w Hs Hl Hw) as Hl2.
  cbv zeta in Hs2, Hm2, Hl2. rewrite Hwname in Hs2, Hm2, Hl2.
  destruct (explore_all_level g start end_name (dist w) top _ movies Hc Hs2
              Hl2 Hmovies) as (st3 & Hrun & Hs3 & Hl3 & Hm3).
  rewrite Hrun. cbn [mbind outcome_bind].
  apply (IH (dist w)).
  - by eapply searching_close.
  - by eapply level_close.
  - destruct (se_cur _ _ _ _ _ _ _ Hs3 top eq_refl) as (v & Hv & Hvd & _).
    exists v. split; [done|]. by eapply (se_done _ _ _ _ _ _ _ Hs3).
  - pose proof (measure_nonneg _ _ _ _ _ _ _ Hs3). lia.
Qed.

(** *** Walking the predecessors back *)

Lemma unwind_level g start vs fuel k v stack :
  consistent g 1 → chained g 1 start vs →
  (∀ k v, vs !! k = Some v → prev_actor v ≠ "" →
     ∃ p, vs !! prev_actor v = Some p ∧ dist v = dist p + 1) →
  vs !! k = Some v → dist v ≠ INT_MAX →
  (Z.to_nat (dist v) < fuel)%nat →
  ∃ hops,
    connects g start hops k = true
    ∧ Z.of_nat (length hops) = dist v
    ∧ unwind fuel vs k stack = Returns (start :: stack_of hops ++ stack).
Proof.
  intros Hc Hch Hexact. revert k v stack.
  induction fuel as [|fuel IH]; intros k v stack Hk Hfin Hfuel; [lia|].
  pose proof (ch_name _ _ _ _ Hch _ _ Hk) as Hname.
  cbn [unwind]. rewrite Hk.
  destruct (String.eqb (prev_actor v) "") eqn:Hp.
  - apply String.eqb_eq in Hp.
    destruct (ch_root _ _ _ _ Hch _ _ Hk Hp) as [->|?]; [|done].
    exists []. split; [by apply bool_decide_eq_true|].
    destruct (ch_start _ _ _ _ Hch) as (v0 & Hv0 & Hd0 & _).
    rewrite Hk in Hv0. injection Hv0 as <-.
    split; [by rewrite Hd0|]. by rewrite Hname.
  - apply String.eqb_neq in Hp.
    destruct (ch_prev _ _ _ _ Hch _ _ Hk Hp)
      as (_ & Hp1 & Hp2 & p & Hpk & Hpd).
    destruct (Hexact _ _ Hk Hp) as (p' & Hpk' & Hpe).
    rewrite Hpk in Hpk'. injection Hpk' as <-.
    pose proof (chained_dist_nonneg _ _ _ _ _ _ Hch Hpk) as Hp0.
    assert (dist p ≠ INT_MAX) as Hpfin.
    { destruct (ch_dist _ _ _ _ Hch _ _ Hk) as [?|Hr]; [done|].
      destruct Hc as (_ & _ & _ & _ & _ & HW & Hsize).
      pose proof (done_count_le vs).
      pose proof (size_same_dom _ _ (ch_dom _ _ _ _ Hch)). nia. }
    destruct (IH (prev_actor v) p (prev_movie v :: name v :: stack) Hpk Hpfin)
      as (hops & Hconn & Hlen & Hrun); [lia|].
    exists (hops ++ [(prev_movie v, k)]). split; [|split].
    + by apply (connects_snoc g start hops (prev_actor v)).
    + rewrite length_app. simpl. lia.
    + rewrite Hrun, stack_of_snoc, <- app_assoc, Hname. done.
Qed.

Lemma level_initial g start_name :
  named g →
  level g 0 None (λ _, False)
    (mkSearch (actor_map g) (movie_map g)
       (<[start_name := mkVertex 0 false "" "" start_name]>
          (reset <$> vertices g)) [start_name]).
Proof.
  intros Hnamed.
  set (vs := <[start_name := mkVertex 0 false "" "" start_name]>
               (reset <$> vertices g)).
  assert (∀ k v, vs !! k = Some v →
            done v = false ∧ prev_actor v = ""
            ∧ (k = start_name → dist v = 0)) as Hall.
  { intros k v Hk. unfold vs in Hk.
    apply lookup_insert_Some in Hk as [[<- <-]|[Hne Hk]]; [done|].
    rewrite lookup_fmap in Hk.
    destruct (vertices g !! k) as [u|] eqn:Hu; [|done].
    injection Hk as <-. done. }
  split; cbn [s_vertices pq]; fold vs.
  - intros i Hi. simpl in Hi. lia.
  - intros k v Hk Hd. destruct (Hall k v Hk) as (? & _). congruence.
  - intros k v Hin Hk. apply list_elem_of_singleton in Hin as ->.
    destruct (Hall _ v Hk) as (_ & _ & Hd). rewrite Hd by done. lia.
  - intros k v Hk Hp. by destruct (Hall k v Hk) as (_ & ? & _).
  - intros k v Hk Hd. destruct (Hall k v Hk) as (? & _). congruence.
  - done.
  - done.
Qed.

(** What [findPath] does on a consistent graph whose weights are all 1. *)
Lemma findPath_level g start_name end_name :
  consistent g 1 → is_Some (vertices g !! start_name) →
  ∃ fuel0 hops last g',
    (∀ fuel, (fuel0 ≤ fuel)%nat →
       findPath fuel g start_name end_name
       = Returns (line_of start_name hops, g'))
    ∧ connects g start_name hops last = true
    ∧ (last = end_name
       ∧ (∀ hs, connects g start_name hs end_name = true →
                (length hops ≤ length hs)%nat)
       ∨ ∀ hs, connects g start_name hs end_name = false).
Proof.
  intros Hc [v0 Hv0].
  pose proof Hc as (_ & _ & _ & Hnamed & _).
  pose proof (searching_initial g 1 start_name end_name v0 Hc Hv0) as Hs0.
  pose proof (level_initial g start_name Hnamed) as Hl0.
  set (st0 := mkSearch (actor_map g) (movie_map g)
                (<[start_name := mkVertex 0 false "" "" start_name]>
                   (reset <$> vertices g)) [start_name]) in *.
  set (fuel0 := S (Z.to_nat (measure st0) + Z.to_nat INT_MAX)).
  assert (∃ v, s_vertices st0 !! start_name = Some v ∧ dist v ≠ INT_MAX)
    as Hwork.
  { destruct (ch_start _ _ _ _ (se_chained _ _ _ _ _ _ _ Hs0))
      as (v & Hv & Hd & _). exists v. split; [done|]. by rewrite Hd. }
  destruct (search_loop_level g start_name end_name fuel0 0 st0
              start_name Hc Hs0 Hl0 Hwork)
    as (st' & working & Hrun & Ham & Hmm & Hch & Hexact
        & vw & Hvw & Hwfin & Hexit);
    [unfold fuel0; lia|].
  assert (Z.to_nat (dist vw) < fuel0)%nat as Hfw.
  { destruct (ch_dist _ _ _ _ Hch _ _ Hvw) as [?|Hr]; [done|].
    destruct Hc as (_ & _ & _ & _ & _ & HW & Hsize).
    pose proof (done_count_le (s_vertices st')).
    pose proof (size_same_dom _ _ (ch_dom _ _ _ _ Hch)).
    unfold fuel0. nia. }
  destruct (unwind_level g start_name (s_vertices st') fuel0 working vw []
              Hc Hch Hexact Hvw Hwfin Hfw) as (hops & Hconn & Hlen & Hunw).
  exists fuel0, hops, working,
    (mkGraph (s_actor_map st') (s_movie_map st') (s_vertices st')).
  split; [|split; [done|]].
  - intros fuel Hfuel. rewrite (findPath_start fuel g _ _ v0 Hnamed Hv0).
    fold st0.
    rewrite (search_loop_more_fuel fuel0 fuel _ _ _ _ Hrun Hfuel).
    cbn [mbind outcome_bind].
    rewrite (unwind_more_fuel fuel0 fuel _ _ _ _ Hunw Hfuel).
    cbn [mbind outcome_bind]. rewrite app_nil_r.
    by rewrite write_path_stack.
  - destruct Hexit as [[-> Hopt]|Hno]; [left|by right].
    split; [done|]. intros hs Hcn. specialize (Hopt hs Hcn). lia.
Qed.

(** X19.  Without weighted edges the search is breadth first and the path
    written is a shortest one: on a graph loaded from records with
    non-empty actor names, for a registered start and an end actor that is
    connected to it, [findPath] terminates and writes a chain of hops from
    the start to the end actor, and no chain between the two has fewer
    hops. *)
Theorem findPath_fewest_hops data g start_name end_name hs :
  loadFromFile empty data false = Returns (true, g) →
  (∀ line a m y, line ∈ data → parsed line = Some (a, m, y) → a ≠ "") →
  Z.of_nat (length data) < INT_MAX →
  is_Some (vertices g !! start_name) →
  connects g start_name hs end_name = true →
  ∃ fuel0 hops g',
    (∀ fuel, (fuel0 ≤ fuel)%nat →
       findPath fuel g start_name end_name
       = Returns (line_of start_name hops, g'))
    ∧ connects g start_name hops end_name = true
    ∧ (length hops ≤ length hs)%nat
    ∧ ∀ hs', connects g start_name hs' end_name = true →
             (length hops ≤ length hs')%nat.
Proof.
  intros Hg Hrec Hsize Hs Hcn.
  assert (consistent g 1) as Hc.
  { apply (loaded_consistent data false); [done| |done|lia].
    intros line a m y Hl Hp. split; [by eapply Hrec|]. simpl. lia. }
  destruct (findPath_level g start_name end_name Hc Hs)
    as (fuel0 & hops & last & g' & Hrun & Hconn & [[-> Hopt]|Hno]).
  - exists fuel0, hops, g'. auto.
  - by rewrite Hno in Hcn.
Qed.

Lemma findPath_fewest_hops_witness :
  ∃ fuel0 hops g',
    (∀ fuel, (fuel0 ≤ fuel)%nat →
       findPath fuel (Samples.loaded Samples.detour false) "S" "A"
       = Returns (line_of "S" hops, g'))
    ∧ connects (Samples.loaded Samples.detour false) "S" hops "A" = true
    ∧ (length hops ≤ length [("M2#@2018", "B"); ("M3#@2018", "A")])%nat
    ∧ ∀ hs', connects (Samples.loaded Samples.detour false) "S" hs' "A"
             = true → (length hops ≤ length hs')%nat.
Proof.
  refine (findPath_fewest_hops Samples.detour
            (Samples.loaded Samples.detour false) "S" "A"
            [("M2#@2018", "B"); ("M3#@2018", "A")] _ _ _ _ _).
  - vm_compute. reflexivity.
  - intros line a m y Hl Hp.
    repeat (apply elem_of_cons in Hl as [->|Hl];
            [vm_compute in Hp; injection Hp as <- <- <-; discriminate|]).
    by apply elem_of_nil in Hl.
  - vm_compute. reflexivity.
  - vm_compute. eauto.
  - vm_compute. reflexivity.
Defined.

End LevelFacts.

(** ** From the data to the output *)

Module DataFacts.
Import Cxx Projection GraphSpec DataSpec PruneSpec PathSpec LoadSpec.
Import ProjectionFacts PredictorFacts PopularityFacts TableFacts EdgeFacts.
Import PruneFacts LoadFacts SearchFacts PathFacts.

Lemma names_index (i2n : list string) i j :
  NoDup i2n → (i < length i2n)%nat → (j < length i2n)%nat →
  i2n !!! i = i2n !!! j → i = j.
Proof.
  intros Hnd Hi Hj Heq.
  destruct (lookup_lt_is_Some_2 i2n i Hi) as [x Hx].
  destruct (lookup_lt_is_Some_2 i2n j Hj) as [y Hy].
  rewrite (list_lookup_total_correct _ _ _ Hx) in Heq.
  rewrite (list_lookup_total_correct _ _ _ Hy) in Heq. subst y.
  by eapply NoDup_lookup.
Qed.

(** X20.  What popularityfinder writes, in terms of the data alone.  Every
    actor written shares a cast with at least [k] actors that are written
    too (the actor itself counts when a cast names it twice); and every set
    of actors of the data with this property is contained in the output. *)
Theorem popular_actors tsv k_arg k fuel names :
  stoi k_arg = Returns k →
  Popularity.main fuel tsv k_arg = Returns (Popularity.header :: names) →
  (∀ a, a ∈ names →
     ∃ l : list string,
       NoDup l ∧ (∀ b, b ∈ l → b ∈ names ∧ co_star tsv a b)
       ∧ k ≤ Z.of_nat (length l))
  ∧ ∀ T : list string,
      (∀ a, a ∈ T →
         (∃ line rest, line ∈ tsv ∧ tokenize line = a :: rest)
         ∧ ∃ l : list string,
             NoDup l ∧ (∀ b, b ∈ l → b ∈ T ∧ co_star tsv a b)
             ∧ k ≤ Z.of_nat (length l)) →
      ∀ a, a ∈ T → a ∈ names.
Proof.
  intros Hk Hmain.
  assert (∃ g, Popularity.BuildStructures tsv = Returns g) as [g Hb].
  { unfold Popularity.main in Hmain. rewrite Hk in Hmain. simpl in Hmain.
    destruct (Popularity.BuildStructures tsv) as [g| | |]; try done.
    by exists g. }
  destruct (main_names _ _ _ _ _ _ Hk Hb Hmain) as (c & Hrun & Hn).
  destruct (BuildStructures_tables _ _ Hb) as (tb & Htb & Hreg & Hg & Hp).
  subst g. cbn [Popularity.g_int_to_name Popularity.graph Popularity.counts]
    in *.
  set (n := length (int_to_name tb)) in *. set (gr := build_graph tb) in *.
  set (fuel' := (fuel + S n)%nat) in *.
  destruct (prune_result n gr k fuel' Hp) as (c1 & Hrun1 & _ & Hsurv & Hcl & Hmax);
    [unfold fuel'; lia|].
  rewrite Hrun in Hrun1. injection Hrun1 as <-.
  pose proof (registry_NoDup tb Hreg) as Hnd.
  assert (length gr = n) as Hlen by apply Hp.
  assert (∀ i, (i < n)%nat →
            name_to_int tb !! (int_to_name tb !!! i) = Some i) as Hid.
  { intros i Hi. apply Hreg.
    destruct (lookup_lt_is_Some_2 (int_to_name tb) i Hi) as [x Hx].
    by rewrite (list_lookup_total_correct _ _ _ Hx). }
  split.
  - intros a Ha. apply Hn in Ha as (i & Hi & ->).
    destruct (Hcl i Hi) as [Hlt Hdeg]. rewrite Hlen in Hlt.
    unfold degree_within in Hdeg. rewrite Hlen in Hdeg.
    exists ((int_to_name tb !!!.)
              <$> filter (λ j, j ∈ survivors k c ∧ entry gr i j ≠ 0)
                    (seq 0 n)).
    split; [|split].
    + apply NoDup_fmap_2_strong; [|apply NoDup_filter, NoDup_seq].
      intros x y Hx Hy Heq.
      apply list_elem_of_filter in Hx as [_ Hx], Hy as [_ Hy].
      apply elem_of_seq in Hx, Hy.
      eapply names_index; [done| | |done]; lia.
    + intros b Hb'. apply list_elem_of_fmap in Hb' as (j & -> & Hj).
      apply list_elem_of_filter in Hj as [[HjS He] Hj].
      apply elem_of_seq in Hj. split.
      * apply Hn. by exists j.
      * apply (build_graph_co_star tsv tb _ _ i j Htb); [by apply Hid|
          apply Hid; lia|].
        destruct Hp as (_ & _ & Hbin).
        destruct (Hbin i j) as [?|?]; [done|lia|done|done].
    + by rewrite length_fmap.
  - intros T HT.
    assert (∀ a, a ∈ T → ∃ i, name_to_int tb !! a = Some i ∧ (i < n)%nat)
      as Hreg'.
    { intros a Ha. destruct (HT a Ha) as [(line & rest & Hl & Htok) _].
      destruct (for_each_registers_all tsv no_tables tb line a rest Htb Hl
                  Htok) as [i Hi].
      exists i. split; [done|]. by eapply registry_id_lt. }
    set (T' := list_to_set (id_of (name_to_int tb) <$> T) : gset nat).
    assert (∀ i, i ∈ T' ↔ ∃ a, a ∈ T ∧ name_to_int tb !! a = Some i) as HT'.
    { intros i. unfold T'. rewrite elem_of_list_to_set, list_elem_of_fmap.
      split.
      - intros (a & -> & Ha). exists a. split; [done|].
        destruct (Hreg' a Ha) as (i & Hi & _). unfold id_of. by rewrite Hi.
      - intros (a & Ha & Hi). exists a. split; [|done].
        unfold id_of. by rewrite Hi. }
    assert (closed gr k T') as Hclosed.
    { intros i Hi. apply HT' in Hi as (a & Ha & Hai).
      pose proof (registry_id_lt _ _ _ Hreg Hai) as Hlt. fold n in Hlt.
      split; [by rewrite Hlen|].
      destruct (HT a Ha) as [_ (l & Hndl & Hl & Hkl)].
      etrans; [exact Hkl|]. unfold degree_within. rewrite Hlen.
      apply Nat2Z.inj_le.
      rewrite <- (length_fmap (id_of (name_to_int tb)) l).
      apply submseteq_length, NoDup_submseteq.
      - apply NoDup_fmap_2_strong; [|done]. intros x y Hx Hy Heq.
        destruct (Hl x Hx) as [HxT _]. destruct (Hl y Hy) as [HyT _].
        destruct (Hreg' x HxT) as (ix & Hix & _).
        destruct (Hreg' y HyT) as (iy & Hiy & _).
        unfold id_of in Heq. rewrite Hix, Hiy in Heq. simpl in Heq. subst iy.
        apply Hreg in Hix, Hiy. congruence.
      - intros j Hj. apply list_elem_of_fmap in Hj as (b & -> & Hb').
        destruct (Hl b Hb') as [HbT Hco].
        destruct (Hreg' b HbT) as (j & Hj & Hjn).
        unfold id_of. rewrite Hj. simpl.
        apply list_elem_of_filter. split; [split|].
        + apply HT'. by exists b.
        + apply (build_graph_co_star tsv tb a b i j Htb Hai Hj) in Hco.
          fold gr in Hco. lia.
        + apply elem_of_seq. lia. }
    intros a Ha. destruct (Hreg' a Ha) as (i & Hi & Hin).
    apply Hn. exists i. split.
    + apply (Hmax T' Hclosed). apply HT'. by exists a.
    + apply Hreg in Hi. by rewrite (list_lookup_total_correct _ _ _ Hi).
Qed.

Lemma popular_actors_witness :
  ∃ l : list string,
    NoDup l
    ∧ (∀ b, b ∈ l → b ∈ ["A"; "B"; "C"] ∧ co_star Samples.scenario "A" b)
    ∧ 2 ≤ Z.of_nat (length l).
Proof.
  refine (proj1 (popular_actors Samples.scenario "2" 2 5 ["A"; "B"; "C"]
                   _ _) "A" _).
  - vm_compute. reflexivity.
  - vm_compute. reflexivity.
  - left.
Defined.

(** X21.  The two maps of a loaded graph mirror each other and the data:
    a movie key is listed under an actor exactly when the actor is listed
    under the movie key, and exactly when some record of the data has this
    actor and this key; an actor has a vertex exactly when the data has a
    record of the actor. *)
Theorem loaded_maps_mirror data w g a m :
  ActorGraph.loadFromFile ActorGraph.empty data w = Returns (true, g) →
  ((∃ movies, ActorGraph.actor_map g !! a = Some movies ∧ m ∈ movies)
   ↔ ∃ line y, line ∈ data ∧ parsed line = Some (a, m, y))
  ∧ ((∃ wt cast, ActorGraph.movie_map g !! m = Some (wt, cast) ∧ a ∈ cast)
     ↔ ∃ line y, line ∈ data ∧ parsed line = Some (a, m, y))
  ∧ (plays_in g a m = true
     ↔ ∃ line y, line ∈ data ∧ parsed line = Some (a, m, y))
  ∧ (is_Some (ActorGraph.vertices g !! a)
     ↔ ∃ line m' y, line ∈ data ∧ parsed line = Some (a, m', y)).
Proof.
  intros Hg.
  destruct (loadFromFile_parsed data w (loadFromFile_true _ _ _ Hg))
    as (g' & Hg' & Ham & Hmm & Hvs).
  rewrite Hg in Hg'. injection Hg' as <-.
  assert ((∃ movies, ActorGraph.actor_map g !! a = Some movies ∧ m ∈ movies)
          ↔ m ∈ movies_of a data) as H1.
  { rewrite Ham. split.
    - intros (movies & Hl & Hin). case_decide; [done|]. by injection Hl as <-.
    - intros Hin. exists (movies_of a data). split; [|done].
      rewrite decide_False; [done|]. intros Hnil. rewrite Hnil in Hin.
      by apply elem_of_nil in Hin. }
  assert ((∃ wt cast, ActorGraph.movie_map g !! m = Some (wt, cast)
                      ∧ a ∈ cast)
          ↔ a ∈ players_of m data) as H2.
  { rewrite Hmm. split.
    - intros (wt & cast & Hl & Hin).
      destruct (head (years_of m data)); [|done]. simpl in Hl.
      by injection Hl as <- <-.
    - intros Hin. pose proof Hin as Hin'.
      apply elem_of_players_of in Hin' as (line & y & Hl & Hp).
      destruct (years_of_head m y data) as [y0 Hy0].
      { apply elem_of_years_of. by exists line, a. }
      rewrite Hy0. simpl. eauto. }
  split; [by rewrite H1, elem_of_movies_of|].
  split; [by rewrite H2, elem_of_players_of|]. split.
  - rewrite <- elem_of_movies_of. unfold plays_in.
    rewrite andb_true_iff, !bool_decide_eq_true. split.
    + intros [Hin _]. apply H1.
      destruct (ActorGraph.actor_map g !! a) as [movies|];
        [eauto|by apply elem_of_nil in Hin].
    + intros Hin. pose proof Hin as Hin'.
      apply H1 in Hin as (movies & -> & Hin).
      apply elem_of_movies_of, elem_of_players_of, H2 in Hin'
        as (wt & cast & -> & Hin'). done.
  - rewrite Hvs. split.
    + intros Hs. case_decide as Hnil; [by destruct Hs|].
      destruct (movies_of a data) as [|m' l] eqn:Hm; [done|].
      assert (m' ∈ movies_of a data) as Hin by (rewrite Hm; left).
      apply elem_of_movies_of in Hin as (line & y & Hl & Hp). eauto.
    + intros (line & m' & y & Hl & Hp).
      rewrite decide_False; [eauto|]. intros Hnil.
      assert (m' ∈ movies_of a data) as Hin
        by (apply elem_of_movies_of; eauto).
      rewrite Hnil in Hin. by apply elem_of_nil in Hin.
Qed.

Lemma loaded_maps_mirror_witness :
  plays_in (Samples.loaded Samples.detour true) "B" "M2#@2018" = true
  ↔ ∃ line y, line ∈ Samples.detour
              ∧ parsed line = Some ("B", "M2#@2018", y).
Proof.
  refine (proj1 (proj2 (proj2 (loaded_maps_mirror Samples.detour true
                                 (Samples.loaded Samples.detour true)
                                 "B" "M2#@2018" _)))).
  vm_compute. reflexivity.
Defined.

End DataFacts.
